(** * Maximum flow of the logistics network (task_1.py)

    A shallow embedding of the capacity-matrix builder, the breadth-first
    augmenting-path search, the Edmonds-Karp loop and the flow table of
    [task_1.py], followed by the properties of the flow they compute;
    then the two item stores and their price range queries of
    [task_2.py]. *)

From Stdlib Require Import ZArith Lia Floats.
From stdpp Require Import base tactics option list gmap strings pretty sorting.

Local Open Scope Z_scope.

(** ** Python values *)

(** Exceptions the modelled statements can raise. *)
Inductive exn : Set := IndexError | KeyError | OverflowError.

(** Outcome of running a piece of code: a value, a raised exception, or
    the loop budget of the model ran out before the code returned. *)
Inductive result (A : Type) : Type :=
  | Ok (a : A)
  | Raise (e : exn)
  | OutOfFuel.
Arguments Ok {A} a.
Arguments Raise {A} e.
Arguments OutOfFuel {A}.

#[global] Instance result_ret : MRet result := fun A a => Ok a.
#[global] Instance result_bind : MBind result := fun A B f m =>
  match m with
  | Ok a => f a
  | Raise e => Raise e
  | OutOfFuel => OutOfFuel
  end.

(** The weights of the script are ints and [float("inf")].  The only
    floats the program then creates are [inf] and what arithmetic makes
    of it: a finite float never arises, because an operation with one
    float operand and one int operand always has an infinite or NaN float
    operand. *)
Inductive pyfloat : Set := PInf | NInf | NaN.

#[global] Instance pyfloat_eq_dec : EqDecision pyfloat.
Proof. solve_decision. Defined.

(** A number is a Python int (unbounded) or one of those floats. *)
Inductive num : Set :=
  | Int (z : Z)
  | Flt (f : pyfloat).

#[global] Instance num_inhabited : Inhabited num := populate (Int 0).
#[global] Instance num_eq_dec : EqDecision num.
Proof. solve_decision. Defined.

(** Converting an int to a float raises OverflowError once the int rounds
    to 2^1024 or more in magnitude. *)
Definition DBL_OVERFLOW : Z := 2 ^ 1024 - 2 ^ 970.

Definition fits_double (z : Z) : bool := Z.abs z <? DBL_OVERFLOW.

Definition float_neg (f : pyfloat) : pyfloat :=
  match f with PInf => NInf | NInf => PInf | NaN => NaN end.

Definition float_add (f g : pyfloat) : pyfloat :=
  match f, g with
  | PInf, PInf => PInf
  | NInf, NInf => NInf
  | _, _ => NaN
  end.

(** [a + b] *)
Definition num_add (a b : num) : result num :=
  match a, b with
  | Int x, Int y => Ok (Int (x + y))
  | Int x, Flt g => if fits_double x then Ok (Flt g) else Raise OverflowError
  | Flt f, Int y => if fits_double y then Ok (Flt f) else Raise OverflowError
  | Flt f, Flt g => Ok (Flt (float_add f g))
  end.

(** [a - b] *)
Definition num_sub (a b : num) : result num :=
  match a, b with
  | Int x, Int y => Ok (Int (x - y))
  | Int x, Flt g =>
      if fits_double x then Ok (Flt (float_neg g)) else Raise OverflowError
  | Flt f, Int y => if fits_double y then Ok (Flt f) else Raise OverflowError
  | Flt f, Flt g => Ok (Flt (float_add f (float_neg g)))
  end.

(** [a < b]; comparisons between an int and a float are exact and do not
    convert. *)
Definition num_lt (a b : num) : bool :=
  match a, b with
  | Int x, Int y => x <? y
  | Int _, Flt PInf => true
  | Flt NInf, Int _ => true
  | Flt NInf, Flt PInf => true
  | _, _ => false
  end.

(** [a > 0] *)
Definition num_pos (a : num) : bool := num_lt (Int 0) a.

(** [min(a, b)]: the first argument unless the second is smaller. *)
Definition py_min (a b : num) : num := if num_lt b a then b else a.

(** ** Lists indexed the Python way *)

(** Position addressed by index [i] in a list of length [len]: negative
    indices count from the end, anything else out of range is an error. *)
Definition py_index (len : nat) (i : Z) : option nat :=
  if bool_decide (0 <= i < Z.of_nat len) then Some (Z.to_nat i)
  else if bool_decide (- Z.of_nat len <= i < 0) then
    Some (Z.to_nat (Z.of_nat len + i))
  else None.

(** [l[i]] *)
Definition getitem {A} (l : list A) (i : Z) : result A :=
  match py_index (length l) i with
  | Some k => match l !! k with Some x => Ok x | None => Raise IndexError end
  | None => Raise IndexError
  end.

(** [l[i] = x] *)
Definition setitem {A} (l : list A) (i : Z) (x : A) : result (list A) :=
  match py_index (length l) i with
  | Some k => Ok (<[k:=x]> l)
  | None => Raise IndexError
  end.

Abbreviation matrix := (list (list num)).

(** [m[i][j]] *)
Definition getitem2 (m : matrix) (i j : Z) : result num :=
  row ← getitem m i; getitem row j.

(** [m[i][j] = x]; the row object is updated in place. *)
Definition setitem2 (m : matrix) (i j : Z) (x : num) : result matrix :=
  row ← getitem m i; row' ← setitem row j x; setitem m i row'.

(** [[[0] * n for _ in range(n)]] *)
Definition zeros (n : nat) : matrix := replicate n (replicate n (Int 0)).

(** [range(n)] *)
Definition range (n : nat) : list Z := seqZ 0 (Z.of_nat n).

(** ** build_capacity_matrix *)

(** The graph as [G.edges(data=True)] enumerates it: source name, target
    name and the [weight] attribute of every edge.  A [DiGraph] holds one
    edge per ordered pair, so the matrix built from it does not depend on
    the order of enumeration. *)
Definition graph := list (string * string * num).

(** [node_indices[u]] *)
Definition lookup_node (node_indices : gmap string Z) (u : string) : result Z :=
  match node_indices !! u with
  | Some i => Ok i
  | None => Raise KeyError
  end.

Fixpoint fill_matrix (node_indices : gmap string Z) (edges : graph)
    (m : matrix) : result matrix :=
  match edges with
  | [] => Ok m
  | (u, v, w) :: rest =>
      i ← lookup_node node_indices u;
      j ← lookup_node node_indices v;
      m' ← setitem2 m i j w;
      fill_matrix node_indices rest m'
  end.

Definition build_capacity_matrix (G : graph) (node_indices : gmap string Z)
    : result matrix :=
  let n := size node_indices in
  fill_matrix node_indices G (zeros n).

(** ** bfs *)

(** State of the search: the [visited] flags, the queue and the
    predecessor array [parent], which the caller owns and the search
    overwrites in place. *)
Record bfs_state := BfsState {
  bs_visited : list bool;
  bs_queue : list Z;
  bs_parent : list Z
}.

(** The loop [for v in range(len(capacity))] for one dequeued [u]; the
    boolean tells whether the loop left through [return True].  The
    condition is [not visited[v] and capacity[u][v] - flow[u][v] > 0],
    whose second operand is evaluated only for an unvisited [v]. *)
Fixpoint bfs_for (capacity flow : matrix) (sink u : Z) (vs : list Z)
    (st : bfs_state) : result (bool * bfs_state) :=
  match vs with
  | [] => Ok (false, st)
  | v :: vs' =>
      seen ← getitem (bs_visited st) v;
      if (seen : bool) then bfs_for capacity flow sink u vs' st
      else
        c ← getitem2 capacity u v;
        f ← getitem2 flow u v;
        r ← num_sub c f;
        if num_pos r then
          parent' ← setitem (bs_parent st) v u;
          visited' ← setitem (bs_visited st) v true;
          if bool_decide (v = sink) then
            Ok (true, BfsState visited' (bs_queue st) parent')
          else
            bfs_for capacity flow sink u vs'
              (BfsState visited' (bs_queue st ++ [v]) parent')
        else bfs_for capacity flow sink u vs' st
  end.

(** The loop [while queue]. *)
Fixpoint bfs_while (fuel : nat) (capacity flow : matrix) (sink : Z)
    (st : bfs_state) : result (bool * list Z) :=
  match fuel with
  | O => OutOfFuel
  | S fuel' =>
      match bs_queue st with
      | [] => Ok (false, bs_parent st)
      | u :: queue' =>
          '(found, st') ← bfs_for capacity flow sink u
                            (range (length capacity))
                            (BfsState (bs_visited st) queue' (bs_parent st));
          if (found : bool) then Ok (true, bs_parent st')
          else bfs_while fuel' capacity flow sink st'
      end
  end.

(** [bfs(capacity, flow, source, sink, parent)]: the returned boolean and
    the contents of [parent] afterwards. *)
Definition bfs (fuel : nat) (capacity flow : matrix) (source sink : Z)
    (parent : list Z) : result (bool * list Z) :=
  let visited := replicate (length capacity) false in
  let queue := [source] in
  visited' ← setitem visited source true;
  bfs_while fuel capacity flow sink (BfsState visited' queue parent).

(** ** edmonds_karp *)

(** First inner loop, [while s != source]: the bottleneck along the
    recorded predecessors.  The source reads [parent[s]] three times in
    one turn, each time with the same result; it is read once here. *)
Fixpoint bottleneck (fuel : nat) (capacity flow : matrix) (parent : list Z)
    (source s : Z) (path_flow : num) : result num :=
  match fuel with
  | O => OutOfFuel
  | S fuel' =>
      if bool_decide (s = source) then Ok path_flow
      else
        p ← getitem parent s;
        c ← getitem2 capacity p s;
        f ← getitem2 flow p s;
        r ← num_sub c f;
        bottleneck fuel' capacity flow parent source p (py_min path_flow r)
  end.

(** Second inner loop, [while v != source]: push [path_flow] along the
    same path; [flow[v][u] -= path_flow] reads the matrix that
    [flow[u][v] += path_flow] has just updated. *)
Fixpoint augment (fuel : nat) (flow : matrix) (parent : list Z)
    (source v : Z) (path_flow : num) : result matrix :=
  match fuel with
  | O => OutOfFuel
  | S fuel' =>
      if bool_decide (v = source) then Ok flow
      else
        u ← getitem parent v;
        x ← getitem2 flow u v;
        x' ← num_add x path_flow;
        flow1 ← setitem2 flow u v x';
        y ← getitem2 flow1 v u;
        y' ← num_sub y path_flow;
        flow2 ← setitem2 flow1 v u y';
        augment fuel' flow2 parent source u path_flow
  end.

(** What the outer loop carries from one iteration to the next. *)
Record ek_state := EkState {
  ek_flow : matrix;
  ek_parent : list Z;
  ek_max_flow : num
}.

(** One turn of [while bfs(...)]: [None] when the search fails and the
    loop is left, otherwise the state after the augmentation. *)
Definition ek_step (gas : nat) (capacity : matrix) (source sink : Z)
    (st : ek_state) : result (option ek_state) :=
  '(found, parent') ← bfs gas capacity (ek_flow st) source sink (ek_parent st);
  if (found : bool) then
    path_flow ← bottleneck gas capacity (ek_flow st) parent' source sink
                  (Flt PInf);
    flow' ← augment gas (ek_flow st) parent' source sink path_flow;
    max_flow' ← num_add (ek_max_flow st) path_flow;
    Ok (Some (EkState flow' parent' max_flow'))
  else Ok None.

Fixpoint ek_loop (fuel gas : nat) (capacity : matrix) (source sink : Z)
    (st : ek_state) : result (num * matrix) :=
  match fuel with
  | O => OutOfFuel
  | S fuel' =>
      next ← ek_step gas capacity source sink st;
      match next with
      | Some st' => ek_loop fuel' gas capacity source sink st'
      | None => Ok (ek_max_flow st, ek_flow st)
      end
  end.

Definition ek_init (capacity : matrix) : ek_state :=
  let n := length capacity in
  EkState (zeros n) (replicate n (-1)) (Int 0).

(** [edmonds_karp(capacity, source, sink)]; every loop may take up to
    [fuel] turns. *)
Definition edmonds_karp (fuel : nat) (capacity : matrix) (source sink : Z)
    : result (num * matrix) :=
  ek_loop fuel fuel capacity source sink (ek_init capacity).

(** ** print_flow_table *)

(** [f"Магазин {store_num}"] *)
Definition store_name (store_num : Z) : string :=
  String.app "Магазин " (pretty store_num).

(** The loop [for warehouse in warehouses] accumulating [total_flow]. *)
Fixpoint warehouse_loop (flow : matrix) (node_indices : gmap string Z)
    (term_idx store_idx : Z) (warehouses : list string) (total_flow : num)
    : result num :=
  match warehouses with
  | [] => Ok total_flow
  | warehouse :: rest =>
      warehouse_idx ← lookup_node node_indices warehouse;
      a ← getitem2 flow warehouse_idx store_idx;
      if num_pos a then
        b ← getitem2 flow term_idx warehouse_idx;
        if num_pos b then
          a' ← getitem2 flow warehouse_idx store_idx;
          b' ← getitem2 flow term_idx warehouse_idx;
          total_flow' ← num_add total_flow (py_min a' b');
          warehouse_loop flow node_indices term_idx store_idx rest total_flow'
        else
          warehouse_loop flow node_indices term_idx store_idx rest total_flow
      else
        warehouse_loop flow node_indices term_idx store_idx rest total_flow
  end.

(** A printed line: terminal, store and the flow attributed to the pair. *)
Definition table_row : Type := string * string * num.

(** What statements that print leave behind: the lines printed, in
    printing order, and how the statements ended.  A line that was
    printed stays printed when a later statement raises. *)
Definition printed : Type := list table_row * result unit.

(** The loop [for store_num in store_range]; [out] holds the lines printed
    so far. *)
Fixpoint store_loop (flow : matrix) (node_indices : gmap string Z)
    (term : string) (term_idx : Z) (warehouses : list string)
    (store_range : list Z) (out : list table_row) : printed :=
  match store_range with
  | [] => (out, Ok tt)
  | store_num :: rest =>
      let store := store_name store_num in
      match
        store_idx ← lookup_node node_indices store;
        warehouse_loop flow node_indices term_idx store_idx warehouses (Int 0)
      with
      | Ok total_flow =>
          let out' :=
            if num_pos total_flow then out ++ [(term, store, total_flow)]
            else out in
          store_loop flow node_indices term term_idx warehouses rest out'
      | Raise e => (out, Raise e)
      | OutOfFuel => (out, OutOfFuel)
      end
  end.

(** The loop [for term in terminals]. *)
Fixpoint terminal_loop (flow : matrix) (node_indices : gmap string Z)
    (terminals warehouses : list string) (store_range : list Z)
    (out : list table_row) : printed :=
  match terminals with
  | [] => (out, Ok tt)
  | term :: rest =>
      match lookup_node node_indices term with
      | Ok term_idx =>
          match store_loop flow node_indices term term_idx warehouses
                  store_range out with
          | (out', Ok _) =>
              terminal_loop flow node_indices rest warehouses store_range out'
          | stopped => stopped
          end
      | Raise e => (out, Raise e)
      | OutOfFuel => (out, OutOfFuel)
      end
  end.

(** [print_flow_table]: the lines it prints below the heading, and how
    the call ended. *)
Definition print_flow_table (flow : matrix) (node_indices : gmap string Z)
    (terminals warehouses : list string) (store_range : list Z) : printed :=
  terminal_loop flow node_indices terminals warehouses store_range [].

(** ** The script *)

Definition inf : num := Flt PInf.

(** [create_logistics_graph]: the edges in the order they are added. *)
Definition create_logistics_graph : graph :=
  [ ("Термінал 1", "Склад 1", Int 25);
    ("Термінал 1", "Склад 2", Int 20);
    ("Термінал 1", "Склад 3", Int 15);
    ("Термінал 2", "Склад 3", Int 15);
    ("Термінал 2", "Склад 4", Int 30);
    ("Термінал 2", "Склад 2", Int 10);
    ("Склад 1", "Магазин 1", Int 15);
    ("Склад 1", "Магазин 2", Int 10);
    ("Склад 1", "Магазин 3", Int 20);
    ("Склад 2", "Магазин 4", Int 15);
    ("Склад 2", "Магазин 5", Int 10);
    ("Склад 2", "Магазин 6", Int 25);
    ("Склад 3", "Магазин 7", Int 20);
    ("Склад 3", "Магазин 8", Int 15);
    ("Склад 3", "Магазин 9", Int 10);
    ("Склад 4", "Магазин 10", Int 20);
    ("Склад 4", "Магазин 11", Int 10);
    ("Склад 4", "Магазин 12", Int 15);
    ("Склад 4", "Магазин 13", Int 5);
    ("Склад 4", "Магазин 14", Int 10) ].

(** [add_super_source_sink]: one infinite edge from the super source to
    every terminal, then one from every store to the super sink. *)
Definition add_super_source_sink (G : graph) (terminals stores : list string)
    (super_source super_sink : string) : graph :=
  G ++ ((fun terminal => (super_source, terminal, inf)) <$> terminals)
    ++ ((fun store => (store, super_sink, inf)) <$> stores).

(** [list(G.nodes)]: the nodes in the order the edges introduced them. *)
Fixpoint nodes_from (edges : graph) (seen : list string) : list string :=
  match edges with
  | [] => seen
  | (u, v, _) :: rest =>
      let seen1 := if decide (u ∈ seen) then seen else seen ++ [u] in
      let seen2 := if decide (v ∈ seen1) then seen1 else seen1 ++ [v] in
      nodes_from rest seen2
  end.

(** [{node: i for i, node in enumerate(nodes)}] *)
Definition enumerate (nodes : list string) : gmap string Z :=
  list_to_map (zip nodes (range (length nodes))).

Definition super_source : string := "Джерело".
Definition super_sink : string := "Сток".
Definition terminals : list string := ["Термінал 1"; "Термінал 2"].
Definition warehouses : list string :=
  ["Склад 1"; "Склад 2"; "Склад 3"; "Склад 4"].
Definition stores : list string := store_name <$> seqZ 1 14.

Definition logistics_graph : graph :=
  add_super_source_sink create_logistics_graph terminals stores
    super_source super_sink.

Definition node_indices : gmap string Z :=
  enumerate (nodes_from logistics_graph []).

(** The capacity matrix the script passes to [edmonds_karp]. *)
Definition capacity_matrix : matrix :=
  match build_capacity_matrix logistics_graph node_indices with
  | Ok m => m
  | _ => []
  end.

(** Source side of the cut right behind the two terminals. *)
Definition terminal_side : list bool :=
  (fun i : nat => bool_decide (i = 0 \/ i = 4 \/ i = 20)%nat) <$> seq 0 22.

(** ** Specification vocabulary *)

(** Entry [(i, j)] of a matrix, read at positions known to be in range. *)
Definition at2 (m : matrix) (i j : nat) : num := (m !!! i) !!! j.

(** In-place update of entry [(i, j)]. *)
Definition set2 (m : matrix) (i j : nat) (x : num) : matrix :=
  <[i := <[j := x]> (m !!! i)]> m.

Definition zval (x : num) : Z :=
  match x with Int z => z | Flt _ => 0 end.

Definition is_int (x : num) : bool :=
  match x with Int _ => true | Flt _ => false end.

(** [n] rows of [n] entries each. *)
Definition square (n : nat) (m : matrix) : bool :=
  bool_decide (length m = n) &&
  forallb (fun row : list num => bool_decide (length row = n)) m.

(** Every entry is a Python int. *)
Definition int_matrix (m : matrix) : bool := forallb (forallb is_int) m.

(** A capacity is a non-negative int or [float("inf")]. *)
Definition capacity_ok (c : num) : bool :=
  match c with
  | Int z => bool_decide (0 <= z)
  | Flt PInf => true
  | Flt _ => false
  end.

Definition valid_capacity (n : nat) (capacity : matrix) : bool :=
  square n capacity && forallb (forallb capacity_ok) capacity.

(** Edge [i -> j] is traversable: [capacity[i][j] - flow[i][j] > 0]. *)
Definition residual (capacity flow : matrix) (i j : nat) : bool :=
  match num_sub (at2 capacity i j) (at2 flow i j) with
  | Ok r => num_pos r
  | _ => false
  end.

(** [rpath capacity flow n x k y]: a walk of [k] residual edges from [x]
    to [y] through nodes below [n]. *)
Inductive rpath (capacity flow : matrix) (n x : nat) : nat -> nat -> Prop :=
  | rpath_nil : (x < n)%nat -> rpath capacity flow n x 0 x
  | rpath_snoc k y z :
      rpath capacity flow n x k y -> (z < n)%nat ->
      residual capacity flow y z = true ->
      rpath capacity flow n x (S k) z.

Fixpoint sumZ (n : nat) (f : nat -> Z) : Z :=
  match n with
  | O => 0
  | S k => sumZ k f + f k
  end.

(** Sum of [flow[i][*]] and of [flow[*][j]]. *)
Definition row_sum (n : nat) (flow : matrix) (i : nat) : Z :=
  sumZ n (fun j => zval (at2 flow i j)).
Definition col_sum (n : nat) (flow : matrix) (j : nat) : Z :=
  sumZ n (fun i => zval (at2 flow i j)).

(** Capacities with a proper infinity, for adding up a cut. *)
Inductive ext : Set := Fin (z : Z) | Infty.

Definition ext_add (a b : ext) : ext :=
  match a, b with
  | Fin x, Fin y => Fin (x + y)
  | _, _ => Infty
  end.

Definition ext_le (a b : ext) : bool :=
  match a, b with
  | Fin x, Fin y => bool_decide (x <= y)
  | _, Infty => true
  | Infty, Fin _ => false
  end.

Definition ext_min (a b : ext) : ext := if ext_le a b then a else b.

Definition ext_of (c : num) : ext :=
  match c with Int z => Fin z | Flt _ => Infty end.

Fixpoint sum_ext (n : nat) (f : nat -> ext) : ext :=
  match n with
  | O => Fin 0
  | S k => ext_add (sum_ext k f) (f k)
  end.

(** A cut is given by the flags of the nodes on the source side. *)
Definition in_cut (S : list bool) (i : nat) : bool :=
  match S !! i with Some b => b | None => false end.

Definition is_cut (n s t : nat) (S : list bool) : bool :=
  bool_decide (length S = n) && in_cut S s && negb (in_cut S t).

(** Total capacity of the edges leaving the source side. *)
Definition cut_capacity (n : nat) (capacity : matrix) (S : list bool) : ext :=
  sum_ext n (fun i => sum_ext n (fun j =>
    if in_cut S i && negb (in_cut S j) then ext_of (at2 capacity i j)
    else Fin 0)).

(** All flag lists of length [n]. *)
Fixpoint subsets (n : nat) : list (list bool) :=
  match n with
  | O => [[]]
  | S k => (cons true <$> subsets k) ++ (cons false <$> subsets k)
  end.

(** The least capacity among all cuts separating [s] from [t], by
    enumeration. *)
Definition min_cut (n : nat) (capacity : matrix) (s t : nat) : ext :=
  foldr ext_min Infty
    (cut_capacity n capacity <$> filter (fun S => is_cut n s t S = true) (subsets n)).

(** The flow attributed to one (entry, exit) pair as the specification
    words it: the sum, over the intermediate nodes whose contribution is
    strictly positive, of [min(flow[entry][w], flow[w][exit])]. *)
Fixpoint attributed (F : nat -> nat -> Z) (entry exit_ : nat) (inter : list nat) : Z :=
  match inter with
  | [] => 0
  | w :: rest =>
      let c := Z.min (F entry w) (F w exit_) in
      (if bool_decide (0 < c) then c else 0) + attributed F entry exit_ rest
  end.

(** Number of nodes the search has not reached yet. *)
Fixpoint unvisited (visited : list bool) : nat :=
  match visited with
  | [] => 0
  | b :: rest => ((if b then 0 else 1) + unvisited rest)%nat
  end.

(** The nodes found by following [parent] from [v] back to the source,
    source first; [fuel] bounds the number of hops. *)
Fixpoint trace (fuel : nat) (parent : list Z) (source v : Z) : list Z :=
  match fuel with
  | O => [v]
  | S fuel' =>
      if bool_decide (v = source) then [v]
      else match getitem parent v with
           | Ok u => trace fuel' parent source u ++ [v]
           | _ => [v]
           end
  end.

(** The level assigned to a node discovered from [u]. *)
Definition deepen (depth : nat -> nat) (u k : nat) : nat -> nat :=
  fun x => if decide (x = k) then S (depth u) else depth x.

Section SearchInvariant.
Variables (capacity flow : matrix) (n s : nat) (sink : Z).

(** The predecessors of the visited nodes form a tree rooted at the
    source whose edges are residual; [depth] is the level in that tree. *)
Record bfs_tree (visited : list bool) (parent : list Z) (depth : nat -> nat)
    : Prop := {
  bt_len_v : length visited = n;
  bt_len_p : length parent = n;
  bt_src : visited !! s = Some true;
  bt_src_depth : depth s = 0%nat;
  bt_tree : forall v, visited !! v = Some true -> v <> s ->
    exists u, parent !! v = Some (Z.of_nat u) /\ visited !! u = Some true /\
      residual capacity flow u v = true /\ depth v = S (depth u);
  bt_count : forall v, visited !! v = Some true ->
    (depth v + unvisited visited < n)%nat
}.

(** Invariant of the search; [vq] is the queue, with the node being
    expanded still at its head. *)
Record bfs_inv (visited : list bool) (parent : list Z) (vq : list nat)
    (depth : nat -> nat) : Prop := {
  bi_tree : bfs_tree visited parent depth;
  bi_sink : forall v, visited !! v = Some true -> v = s \/ Z.of_nat v <> sink;
  bi_queue : forall x, x ∈ vq -> visited !! x = Some true;
  bi_closed : forall u v, visited !! u = Some true -> u ∉ vq -> (v < n)%nat ->
    residual capacity flow u v = true -> visited !! v = Some true;
  bi_sorted : forall i j x y, vq !! i = Some x -> vq !! j = Some y ->
    (i <= j)%nat -> (depth x <= depth y <= S (depth x))%nat;
  bi_done : forall p x, visited !! p = Some true -> p ∉ vq -> x ∈ vq ->
    (depth p <= depth x)%nat;
  bi_edge : forall x y, visited !! x = Some true -> visited !! y = Some true ->
    residual capacity flow x y = true -> (depth y <= S (depth x))%nat
}.

(** What holds when the search returns [True]: the sink [t] is in the
    tree, and no residual walk from the source reaches it in fewer hops
    than its level. *)
Record bfs_found (visited : list bool) (parent : list Z)
    (depth : nat -> nat) (t : nat) : Prop := {
  bf_tree : bfs_tree visited parent depth;
  bf_sink : sink = Z.of_nat t;
  bf_ne : t <> s;
  bf_visited : visited !! t = Some true;
  bf_short : forall k, rpath capacity flow n s k t -> (depth t <= k)%nat;
  bf_leaf : forall v, visited !! v = Some true -> v <> s ->
    parent !! v <> Some sink;
  bf_last : forall x, visited !! x = Some true -> (depth x <= depth t)%nat
}.

(** What holds when the search returns [False]: the visited nodes are
    closed under residual edges and the sink is not among them. *)
Record bfs_closed (visited : list bool) : Prop := {
  bc_len : length visited = n;
  bc_src : visited !! s = Some true;
  bc_sink : forall v, visited !! v = Some true -> v = s \/ Z.of_nat v <> sink;
  bc_closed : forall u v, visited !! u = Some true -> (v < n)%nat ->
    residual capacity flow u v = true -> visited !! v = Some true
}.

End SearchInvariant.

Arguments bt_len_v {_ _ _ _ _ _ _}.
Arguments bt_len_p {_ _ _ _ _ _ _}.
Arguments bt_src {_ _ _ _ _ _ _}.
Arguments bt_src_depth {_ _ _ _ _ _ _}.
Arguments bt_tree {_ _ _ _ _ _ _}.
Arguments bt_count {_ _ _ _ _ _ _}.
Arguments bi_tree {_ _ _ _ _ _ _ _ _}.
Arguments bi_sink {_ _ _ _ _ _ _ _ _}.
Arguments bi_queue {_ _ _ _ _ _ _ _ _}.
Arguments bi_closed {_ _ _ _ _ _ _ _ _}.
Arguments bi_sorted {_ _ _ _ _ _ _ _ _}.
Arguments bi_done {_ _ _ _ _ _ _ _ _}.
Arguments bi_edge {_ _ _ _ _ _ _ _ _}.
Arguments bf_tree {_ _ _ _ _ _ _ _ _}.
Arguments bf_sink {_ _ _ _ _ _ _ _ _}.
Arguments bf_ne {_ _ _ _ _ _ _ _ _}.
Arguments bf_visited {_ _ _ _ _ _ _ _ _}.
Arguments bf_short {_ _ _ _ _ _ _ _ _}.
Arguments bf_leaf {_ _ _ _ _ _ _ _ _}.
Arguments bf_last {_ _ _ _ _ _ _ _ _}.
Arguments bc_len {_ _ _ _ _ _}.
Arguments bc_src {_ _ _ _ _ _}.
Arguments bc_sink {_ _ _ _ _ _}.
Arguments bc_closed {_ _ _ _ _ _}.

Definition fin_val (e : ext) : Z :=
  match e with Fin z => z | Infty => 0 end.

(** [flow[i][j]] as an integer. *)
Definition fl (flow : matrix) (i j : nat) : Z := zval (at2 flow i j).

(** Net flow leaving the source side of a cut. *)
Definition cut_flow (n : nat) (flow : matrix) (S : list bool) : Z :=
  sumZ n (fun i => sumZ n (fun j =>
    if in_cut S i && negb (in_cut S j) then fl flow i j else 0)).

Section FlowInvariant.
Variables (capacity : matrix) (n s t : nat).

(** A valid integral flow of value [value]: skew-symmetric, within the
    finite capacities, conserved at the inner nodes, and no entry larger
    in magnitude than the value pushed so far. *)
Record flow_inv (flow : matrix) (value : Z) : Prop := {
  fi_square : square n flow = true;
  fi_int : forall i j, (i < n)%nat -> (j < n)%nat ->
    at2 flow i j = Int (fl flow i j);
  fi_skew : forall i j, (i < n)%nat -> (j < n)%nat ->
    fl flow i j = - fl flow j i;
  fi_cap : forall i j c, (i < n)%nat -> (j < n)%nat ->
    at2 capacity i j = Int c -> fl flow i j <= c;
  fi_cons : forall v, (v < n)%nat -> v <> s -> v <> t ->
    row_sum n flow v = 0;
  fi_value : row_sum n flow s = value;
  fi_bound : forall i j, (i < n)%nat -> (j < n)%nat ->
    Z.abs (fl flow i j) <= value
}.

(** Invariant of the outer loop. *)
Record ek_inv (st : ek_state) (value : Z) : Prop := {
  ei_flow : flow_inv (ek_flow st) value;
  ei_parent : length (ek_parent st) = n;
  ei_max_flow : ek_max_flow st = Int value
}.

End FlowInvariant.

Arguments fi_square {_ _ _ _ _ _}.
Arguments fi_int {_ _ _ _ _ _}.
Arguments fi_skew {_ _ _ _ _ _}.
Arguments fi_cap {_ _ _ _ _ _}.
Arguments fi_cons {_ _ _ _ _ _}.
Arguments fi_value {_ _ _ _ _ _}.
Arguments fi_bound {_ _ _ _ _ _}.
Arguments ei_flow {_ _ _ _ _ _}.
Arguments ei_parent {_ _ _ _ _ _}.
Arguments ei_max_flow {_ _ _ _ _ _}.

(** [on_walk parent s v x]: following [parent] from [v] towards the
    source [s] passes through [x]. *)
Inductive on_walk (parent : list Z) (s : nat) : nat -> nat -> Prop :=
  | ow_here v : on_walk parent s v v
  | ow_up v u x :
      v <> s -> parent !! v = Some (Z.of_nat u) ->
      on_walk parent s u x -> on_walk parent s v x.

(** A residual capacity met on an augmenting path: a positive int or
    infinity. *)
Definition good (a : num) : bool :=
  match a with
  | Int z => bool_decide (0 < z)
  | Flt PInf => true
  | Flt _ => false
  end.

(** Invariant of the second inner loop, which has pushed [pf] along the
    path from the sink [t] back to [v]; [flow] is the flow the search ran
    on and [F'] the partly updated one. *)
Record aug_inv (capacity flow : matrix) (n s t : nat) (value pf : Z)
    (visited : list bool) (parent : list Z) (depth : nat -> nat)
    (F' : matrix) (v : nat) : Prop := {
  ai_square : square n F' = true;
  ai_int : forall i j, (i < n)%nat -> (j < n)%nat ->
    at2 F' i j = Int (fl F' i j);
  ai_skew : forall i j, (i < n)%nat -> (j < n)%nat ->
    fl F' i j = - fl F' j i;
  ai_cap : forall i j c, (i < n)%nat -> (j < n)%nat ->
    at2 capacity i j = Int c -> fl F' i j <= c;
  ai_bound : forall i j, (i < n)%nat -> (j < n)%nat ->
    Z.abs (fl F' i j) <= value + pf;
  ai_rows : forall x, (x < n)%nat ->
    row_sum n F' x = row_sum n flow x
      + (if decide (x = v) then pf else 0)
      - (if decide (x = t) then pf else 0);
  ai_fresh : forall x u, visited !! x = Some true -> x <> s ->
    (depth x <= depth v)%nat -> parent !! x = Some (Z.of_nat u) ->
    fl F' u x = fl flow u x /\ fl F' x u = fl flow x u
}.

Arguments ai_square {_ _ _ _ _ _ _ _ _ _ _ _}.
Arguments ai_int {_ _ _ _ _ _ _ _ _ _ _ _}.
Arguments ai_skew {_ _ _ _ _ _ _ _ _ _ _ _}.
Arguments ai_cap {_ _ _ _ _ _ _ _ _ _ _ _}.
Arguments ai_bound {_ _ _ _ _ _ _ _ _ _ _ _}.
Arguments ai_rows {_ _ _ _ _ _ _ _ _ _ _ _}.
Arguments ai_fresh {_ _ _ _ _ _ _ _ _ _ _ _}.

(** [walk_list capacity flow n s l y]: the node list [l] starts at [s],
    ends at [y] and steps along residual edges only. *)
Inductive walk_list (capacity flow : matrix) (n s : nat)
    : list nat -> nat -> Prop :=
  | wl_start : (s < n)%nat -> walk_list capacity flow n s [s] s
  | wl_snoc l y z :
      walk_list capacity flow n s l y -> (z < n)%nat ->
      residual capacity flow y z = true ->
      walk_list capacity flow n s (l ++ [z]) z.

(** No subtraction [capacity[i][j] - flow[i][j]] raises. *)
Definition sub_ok (n : nat) (capacity flow : matrix) : bool :=
  forallb (fun i => forallb (fun j =>
    match num_sub (at2 capacity i j) (at2 flow i j) with
    | Ok _ => true
    | _ => false
    end) (seq 0 n)) (seq 0 n).

(** The networks the engine is meant for: an [n] by [n] matrix of
    non-negative ints and infinities, distinct endpoints in range, and a
    cut [side] between them whose capacity is finite and converts to a
    float. *)
Definition bounded_network (n : nat) (capacity : matrix) (s t : nat)
    (side : list bool) : bool :=
  valid_capacity n capacity && bool_decide (s < n)%nat &&
  bool_decide (t < n)%nat && is_cut n s t side &&
  match cut_capacity n capacity side with
  | Fin c => bool_decide (c < DBL_OVERFLOW)
  | Infty => false
  end.

(** Loop budget that suffices on such a network. *)
Definition budget (n : nat) (capacity : matrix) (side : list bool) : nat :=
  S (Nat.max n (Z.to_nat (fin_val (cut_capacity n capacity side)))).

(** Index of a name, for names known to be in the dictionary. *)
Definition index_of (node_indices : gmap string Z) (name : string) : nat :=
  match node_indices !! name with Some i => Z.to_nat i | None => 0%nat end.

(** The table as the specification describes it: for every (entry, exit)
    pair in printing order, the attributed flow, kept only when it is
    strictly positive. *)
Definition decompose (flow : matrix) (node_indices : gmap string Z)
    (terminals warehouses : list string) (store_range : list Z)
    : list table_row :=
  term ← terminals;
  store_num ← store_range;
  let a := attributed (fl flow) (index_of node_indices term)
             (index_of node_indices (store_name store_num))
             (index_of node_indices <$> warehouses) in
  if bool_decide (0 < a) then [(term, store_name store_num, Int a)] else [].

(** States the outer loop passes through: the initial one and the one
    after each augmentation. *)
Inductive ek_reach (gas : nat) (capacity : matrix) (source sink : Z)
    : ek_state -> Prop :=
  | ek_reach_init : ek_reach gas capacity source sink (ek_init capacity)
  | ek_reach_step st st' :
      ek_reach gas capacity source sink st ->
      ek_step gas capacity source sink st = Ok (Some st') ->
      ek_reach gas capacity source sink st'.

(** [ek_after gas capacity source sink k st]: [st] is the state of the
    outer loop after [k] augmentations. *)
Inductive ek_after (gas : nat) (capacity : matrix) (source sink : Z)
    : nat -> ek_state -> Prop :=
  | ek_after_O : ek_after gas capacity source sink 0 (ek_init capacity)
  | ek_after_S k st st' :
      ek_after gas capacity source sink k st ->
      ek_step gas capacity source sink st = Ok (Some st') ->
      ek_after gas capacity source sink (S k) st'.

(** The flow matrices the engine shows: the one it starts with, the one
    after each augmentation, and the one it returns. *)
Inductive ek_observed (capacity : matrix) (source sink : Z)
    : matrix -> Prop :=
  | obs_state gas st :
      ek_reach gas capacity source sink st ->
      ek_observed capacity source sink (ek_flow st)
  | obs_final fuel mf flow :
      edmonds_karp fuel capacity source sink = Ok (mf, flow) ->
      ek_observed capacity source sink flow.

(** [flow[i][j] == -flow[j][i]] for all index pairs. *)
Definition skew_symmetric (n : nat) (flow : matrix) : Prop :=
  forall i j, (i < n)%nat -> (j < n)%nat ->
    exists f, at2 flow i j = Int f /\ at2 flow j i = Int (- f).

(** [flow[i][j] <= capacity[i][j]] on every edge of finite capacity, and
    [flow[i][j] >= -capacity[j][i]] whenever the reverse capacity is
    finite. *)
Definition within_capacity (n : nat) (capacity flow : matrix) : Prop :=
  forall i j, (i < n)%nat -> (j < n)%nat ->
    exists f, at2 flow i j = Int f /\
      (forall c, at2 capacity i j = Int c -> f <= c) /\
      (forall c, at2 capacity j i = Int c -> - c <= f).

(** Every name is in the dictionary, with an index in [0, n). *)
Definition names_ok (n : nat) (node_indices : gmap string Z)
    (names : list string) : bool :=
  forallb (fun name =>
    match node_indices !! name with
    | Some i => bool_decide (0 <= i < Z.of_nat n)
    | None => false
    end) names.

(** The flow the script hands to [print_flow_table]. *)
Definition logistics_flow : matrix :=
  match edmonds_karp 200 capacity_matrix 20 21 with
  | Ok (_, flow) => flow
  | _ => []
  end.

(** ** Vocabulary for the builder and the script *)

(** The node names an edge list mentions, sources and targets in turn. *)
Fixpoint endpoints (edges : graph) : list string :=
  match edges with
  | [] => []
  | (u, v, _) :: rest => u :: v :: endpoints rest
  end.

(** What the loop of the builder leaves in cell [(i, j)] that held [acc]
    before: the weight of the last edge whose names have the indices [i]
    and [j]. *)
Fixpoint written (node_indices : gmap string Z) (edges : graph) (i j : nat)
    (acc : num) : num :=
  match edges with
  | [] => acc
  | (u, v, w) :: rest =>
      written node_indices rest i j
        (if bool_decide (node_indices !! u = Some (Z.of_nat i) /\
                         node_indices !! v = Some (Z.of_nat j))
         then w else acc)
  end.

(** The weight of the last edge from [u] to [v] in the list, [acc] when
    there is none. *)
Fixpoint last_weight (edges : graph) (u v : string) (acc : num) : num :=
  match edges with
  | [] => acc
  | (u', v', w) :: rest =>
      last_weight rest u v (if bool_decide (u' = u /\ v' = v) then w else acc)
  end.

(** Every weight is a non-negative int. *)
Definition weights_ok (G : graph) : bool :=
  forallb (fun e : string * string * num =>
    match e.2 with Int z => bool_decide (0 <= z) | Flt _ => false end) G.

(** Sum of the int weights of an edge list. *)
Fixpoint total_weight (G : graph) : Z :=
  match G with
  | [] => 0
  | (_, _, w) :: rest => zval w + total_weight rest
  end.

(** The roles the script hands to [add_super_source_sink]: some terminal
    and some store, no store that is a terminal or the super source, a
    super sink that is neither a terminal nor the super source. *)
Definition roles_ok (terminals stores : list string)
    (super_source super_sink : string) : bool :=
  bool_decide (terminals <> []) && bool_decide (stores <> []) &&
  bool_decide (super_source <> super_sink) &&
  bool_decide (super_source ∉ stores) &&
  bool_decide (super_sink ∉ terminals) &&
  forallb (fun x => bool_decide (x ∉ stores)) terminals.

(** Flags of the nodes that carry one of the given names. *)
Definition side_of (nodes names : list string) : list bool :=
  (fun x => bool_decide (x ∈ names)) <$> nodes.

(** Sum of all int entries of a matrix. *)
Definition matrix_total (n : nat) (m : matrix) : Z :=
  sumZ n (fun i => row_sum n m i).

(** A feasible flow of the network: a matrix of ints that is
    skew-symmetric, within the finite capacities and conserved at every
    node but the endpoints. *)
Record feasible (capacity : matrix) (n s t : nat) (g : matrix) : Prop := {
  fe_int : forall i j, (i < n)%nat -> (j < n)%nat ->
    at2 g i j = Int (fl g i j);
  fe_skew : forall i j, (i < n)%nat -> (j < n)%nat ->
    fl g i j = - fl g j i;
  fe_cap : forall i j c, (i < n)%nat -> (j < n)%nat ->
    at2 capacity i j = Int c -> fl g i j <= c;
  fe_cons : forall v, (v < n)%nat -> v <> s -> v <> t ->
    row_sum n g v = 0
}.

Arguments fe_int {_ _ _ _ _}.
Arguments fe_skew {_ _ _ _ _}.
Arguments fe_cap {_ _ _ _ _}.
Arguments fe_cons {_ _ _ _ _}.

(** The statements of the script from [add_super_source_sink] to
    [print_flow_table], for any graph, roles and store numbers: the value
    it prints, if it gets that far, then the lines of its table and how
    the run ended.  The stores are the names of the store numbers, as in
    the script. *)
Definition script (fuel : nat) (G : graph) (terminals warehouses : list string)
    (store_range : list Z) (super_source super_sink : string)
    : option num * printed :=
  let stores := store_name <$> store_range in
  let G' := add_super_source_sink G terminals stores super_source super_sink in
  let nodes := nodes_from G' [] in
  let node_indices := enumerate nodes in
  match
    capacity_matrix ← build_capacity_matrix G' node_indices;
    source_idx ← lookup_node node_indices super_source;
    sink_idx ← lookup_node node_indices super_sink;
    edmonds_karp fuel capacity_matrix source_idx sink_idx
  with
  | Ok (max_flow, flow) =>
      (Some max_flow,
       print_flow_table flow node_indices terminals warehouses store_range)
  | Raise e => (None, ([], Raise e))
  | OutOfFuel => (None, ([], OutOfFuel))
  end.

(** What a node sends to, and what it receives from, the listed nodes,
    counting the strictly positive entries only. *)
Fixpoint sent (F : nat -> nat -> Z) (x : nat) (inter : list nat) : Z :=
  match inter with
  | [] => 0
  | w :: rest => Z.max 0 (F x w) + sent F x rest
  end.

Fixpoint received (F : nat -> nat -> Z) (x : nat) (inter : list nat) : Z :=
  match inter with
  | [] => 0
  | w :: rest => Z.max 0 (F w x) + received F x rest
  end.

(** No edge of strictly positive capacity leaves the flagged nodes. *)
Definition blocked (n : nat) (capacity : matrix) (side : list bool) : bool :=
  forallb (fun i => forallb (fun j =>
    negb (in_cut side i && negb (in_cut side j) && num_pos (at2 capacity i j)))
    (seq 0 n)) (seq 0 n).

(** ** The item stores of task_2.py *)

(** A row of the CSV file as [load_items_from_csv] builds it: the dict
    with the keys "Name", "Category" and "Price", the price a float. *)
Record item := Item { Name : string; Category : string; Price : float }.

(** An [OOBTree] keyed by item ID, as the list that [tree.items()]
    yields: one pair per key, in ascending order of the keys. *)
Definition oobtree := list (Z * item).

(** [tree[item_id] = item] *)
Fixpoint tree_setitem (tree : oobtree) (item_id : Z) (it : item) : oobtree :=
  match tree with
  | [] => [(item_id, it)]
  | (k, v) :: rest =>
      if item_id <? k then (item_id, it) :: tree
      else if item_id =? k then (item_id, it) :: rest
      else (k, v) :: tree_setitem rest item_id it
  end.

(** A [dict] keyed by item ID, as the list that [store.items()] yields:
    one pair per key, in the order in which the keys were first
    inserted. *)
Definition pydict := list (Z * item).

(** [store[item_id] = item]: a key already present keeps its place. *)
Fixpoint dict_setitem (store : pydict) (item_id : Z) (it : item) : pydict :=
  match store with
  | [] => [(item_id, it)]
  | (k, v) :: rest =>
      if item_id =? k then (k, it) :: rest
      else (k, v) :: dict_setitem rest item_id it
  end.

Definition add_item_to_tree (tree : oobtree) (item_id : Z) (it : item)
    : oobtree :=
  tree_setitem tree item_id it.

Definition add_item_to_dict (store : pydict) (item_id : Z) (it : item)
    : pydict :=
  dict_setitem store item_id it.

(** [min_price <= item["Price"] <= max_price] *)
Definition in_range (min_price max_price : float) (it : item) : bool :=
  PrimFloat.leb min_price (Price it) && PrimFloat.leb (Price it) max_price.

(** [[item for _, item in tree.items() if ...]] *)
Definition range_query_tree (tree : oobtree) (min_price max_price : float)
    : list item :=
  kv ← tree; if in_range min_price max_price kv.2 then [kv.2] else [].

(** [[item for item in store.values() if ...]] *)
Definition range_query_dict (store : pydict) (min_price max_price : float)
    : list item :=
  it ← store.*2; if in_range min_price max_price it then [it] else [].

(** The loop of [main] that adds every loaded row to both stores. *)
Fixpoint fill_stores (items : list (Z * item)) (tree : oobtree)
    (store : pydict) : oobtree * pydict :=
  match items with
  | [] => (tree, store)
  | (item_id, it) :: rest =>
      fill_stores rest (add_item_to_tree tree item_id it)
        (add_item_to_dict store item_id it)
  end.

(** The row that was loaded last under an ID. *)
Fixpoint last_row (items : list (Z * item)) (item_id : Z) : option item :=
  match items with
  | [] => None
  | (k, v) :: rest =>
      match last_row rest item_id with
      | Some x => Some x
      | None => if k =? item_id then Some v else None
      end
  end.

(** What one call of the search has written so far, against the contents
    [parent0] that [parent] had when the search was called; [u] is the
    node being expanded, [q] the rest of the queue and [k] the next
    neighbour the loop over [range(len(capacity))] will look at.  An
    entry that differs from [parent0] belongs to a marked node other than
    the source and names a marked node that has left the queue and is not
    the sink; if it names [u], its index lies before [k]. *)
Record bfs_marks (n s : nat) (sink : Z) (parent0 : list Z)
    (visited : list bool) (parent : list Z) (u : nat) (q : list nat)
    (k : nat) : Prop := {
  bm_len_v : length visited = n;
  bm_len_p : length parent = n;
  bm_src : visited !! s = Some true;
  bm_queue : forall x, x ∈ u :: q ->
    visited !! x = Some true /\ Z.of_nat x <> sink;
  bm_nodup : NoDup (u :: q);
  bm_written : forall v, parent !! v <> parent0 !! v ->
    visited !! v = Some true /\ v <> s /\
    exists p, parent !! v = Some (Z.of_nat p) /\ visited !! p = Some true /\
      (p ∉ q) /\ Z.of_nat p <> sink /\ (p = u -> (v < k)%nat)
}.

(** What the entries written by a search that returned [True] show: they
    belong to marked nodes other than the source, none of them names the
    sink [t], and those that name the predecessor of the sink have an
    index up to [t]. *)
Record bfs_stopped (s t : nat) (parent0 : list Z) (visited : list bool)
    (parent : list Z) : Prop := {
  bw_frame : forall v, parent !! v <> parent0 !! v ->
    visited !! v = Some true /\ v <> s;
  bw_leaf : forall v, parent !! v = Some (Z.of_nat t) ->
    parent0 !! v = Some (Z.of_nat t);
  bw_scan : forall v, parent !! v <> parent0 !! v ->
    parent !! v = parent !! t -> (v <= t)%nat
}.

Arguments bm_len_v {_ _ _ _ _ _ _ _ _}.
Arguments bm_len_p {_ _ _ _ _ _ _ _ _}.
Arguments bm_src {_ _ _ _ _ _ _ _ _}.
Arguments bm_queue {_ _ _ _ _ _ _ _ _}.
Arguments bm_nodup {_ _ _ _ _ _ _ _ _}.
Arguments bm_written {_ _ _ _ _ _ _ _ _}.
Arguments bw_frame {_ _ _ _ _}.
Arguments bw_leaf {_ _ _ _ _}.
Arguments bw_scan {_ _ _ _ _}.

(** ** Reading and writing in range *)

Lemma bind_ok {A B} (a : A) (f : A -> result B) : (Ok a ≫= f) = f a.
Proof. reflexivity. Qed.

Ltac ok_step := rewrite bind_ok; cbv beta.

Lemma py_index_nat (len i : nat) :
  (i < len)%nat -> py_index len (Z.of_nat i) = Some i.
Proof.
  intros Hi. unfold py_index.
  rewrite bool_decide_eq_true_2 by lia. by rewrite Nat2Z.id.
Qed.

Lemma getitem_nat {A} (l : list A) (i : nat) (x : A) :
  l !! i = Some x -> getitem l (Z.of_nat i) = Ok x.
Proof.
  intros Hx. unfold getitem.
  rewrite py_index_nat by (by eapply lookup_lt_Some). by rewrite Hx.
Qed.

Lemma setitem_nat {A} (l : list A) (i : nat) (x : A) :
  (i < length l)%nat -> setitem l (Z.of_nat i) x = Ok (<[i:=x]> l).
Proof. intros Hi. unfold setitem. by rewrite py_index_nat. Qed.

Lemma square_length n (m : matrix) : square n m = true -> length m = n.
Proof.
  unfold square. intros [H _]%andb_true_iff. by apply bool_decide_eq_true_1 in H.
Qed.

Lemma square_row n (m : matrix) i :
  square n m = true -> (i < n)%nat ->
  m !! i = Some (m !!! i) /\ length (m !!! i) = n.
Proof.
  intros Hsq Hi. pose proof (square_length _ _ Hsq) as Hlen.
  assert (Hrow : m !! i = Some (m !!! i)).
  { apply list_lookup_lookup_total_lt. lia. }
  split; [done|].
  unfold square in Hsq. apply andb_true_iff in Hsq as [_ Hall].
  rewrite forallb_forall in Hall.
  apply (bool_decide_eq_true_1 _), Hall.
  apply list_elem_of_In. by eapply list_elem_of_lookup_2.
Qed.

Lemma square_entry n (m : matrix) i j :
  square n m = true -> (i < n)%nat -> (j < n)%nat ->
  (m !!! i) !! j = Some (at2 m i j).
Proof.
  intros Hsq Hi Hj. destruct (square_row n m i Hsq Hi) as [_ Hlen].
  unfold at2. apply list_lookup_lookup_total_lt. lia.
Qed.

Lemma getitem2_nat n (m : matrix) i j :
  square n m = true -> (i < n)%nat -> (j < n)%nat ->
  getitem2 m (Z.of_nat i) (Z.of_nat j) = Ok (at2 m i j).
Proof.
  intros Hsq Hi Hj. unfold getitem2.
  destruct (square_row n m i Hsq Hi) as [Hrow _].
  rewrite (getitem_nat _ _ _ Hrow), bind_ok.
  apply getitem_nat. by eapply square_entry.
Qed.

Lemma setitem2_nat n (m : matrix) i j x :
  square n m = true -> (i < n)%nat -> (j < n)%nat ->
  setitem2 m (Z.of_nat i) (Z.of_nat j) x = Ok (set2 m i j x).
Proof.
  intros Hsq Hi Hj. unfold setitem2.
  destruct (square_row n m i Hsq Hi) as [Hrow Hlen].
  rewrite (getitem_nat _ _ _ Hrow), bind_ok.
  rewrite setitem_nat, bind_ok by lia.
  apply setitem_nat. rewrite (square_length _ _ Hsq). lia.
Qed.

Lemma square_set2 n (m : matrix) i j x :
  square n m = true -> square n (set2 m i j x) = true.
Proof.
  intros Hsq. pose proof (square_length _ _ Hsq) as Hlen.
  unfold square, set2 in *. apply andb_true_iff in Hsq as [_ Hall].
  apply andb_true_iff. split.
  - apply bool_decide_eq_true. by rewrite length_insert.
  - rewrite forallb_forall in *. intros row Hin.
    apply list_elem_of_In, list_elem_of_lookup in Hin as [k Hk].
    destruct (decide (k = i)) as [->|Hne].
    + assert (Hi : (i < length m)%nat).
      { apply lookup_lt_Some in Hk. by rewrite length_insert in Hk. }
      rewrite list_lookup_insert_eq in Hk by done.
      injection Hk as <-. rewrite length_insert.
      apply Hall, list_elem_of_In. eapply list_elem_of_lookup_2.
      by apply list_lookup_lookup_total_lt.
    + rewrite list_lookup_insert_ne in Hk by done.
      apply Hall, list_elem_of_In. by eapply list_elem_of_lookup_2.
Qed.

Lemma at2_set2 n (m : matrix) i j x a b :
  square n m = true -> (i < n)%nat -> (j < n)%nat ->
  at2 (set2 m i j x) a b =
    if bool_decide (a = i /\ b = j) then x else at2 m a b.
Proof.
  intros Hsq Hi Hj. destruct (square_row n m i Hsq Hi) as [Hrow Hlen].
  pose proof (square_length _ _ Hsq) as Hm.
  unfold at2, set2.
  destruct (decide (a = i)) as [->|Hne].
  - rewrite list_lookup_total_insert_eq by lia.
    destruct (decide (b = j)) as [->|Hnb].
    + rewrite bool_decide_eq_true_2 by done.
      by rewrite list_lookup_total_insert_eq by lia.
    + rewrite bool_decide_eq_false_2 by tauto.
      by rewrite list_lookup_total_insert_ne.
  - rewrite bool_decide_eq_false_2 by tauto.
    by rewrite list_lookup_total_insert_ne.
Qed.

(** ** The search *)

Lemma unvisited_replicate n : unvisited (replicate n false) = n.
Proof. induction n as [|n IH]; simpl; [done|]. by rewrite IH. Qed.

Lemma unvisited_visit (visited : list bool) v :
  visited !! v = Some false ->
  (unvisited (<[v:=true]> visited) + 1 = unvisited visited)%nat.
Proof.
  revert v. induction visited as [|b l IH]; intros [|v] Hv; simpl in *;
    try done.
  - injection Hv as ->. lia.
  - specialize (IH v Hv). lia.
Qed.

Lemma rpath_lt capacity flow n x k y :
  rpath capacity flow n x k y -> (y < n)%nat.
Proof. by destruct 1. Qed.

Lemma visit_old (visited : list bool) (k x : nat) :
  visited !! k = Some false -> visited !! x = Some true -> x <> k.
Proof. intros Hk Hx Heq. rewrite Heq, Hk in Hx. discriminate Hx. Qed.

Lemma visit_keep (visited : list bool) (k x : nat) :
  visited !! k = Some false -> visited !! x = Some true ->
  <[k:=true]> visited !! x = Some true.
Proof.
  intros Hk Hx. rewrite list_lookup_insert_ne; [exact Hx|].
  intros Heq. rewrite <- Heq, Hk in Hx. discriminate Hx.
Qed.

Lemma visit_new (visited : list bool) (k : nat) :
  visited !! k = Some false -> <[k:=true]> visited !! k = Some true.
Proof. intros Hk. apply list_lookup_insert_eq. by eapply lookup_lt_Some. Qed.

Lemma visit_inv_lookup (visited : list bool) (k x : nat) :
  <[k:=true]> visited !! x = Some true ->
  x = k \/ (x <> k /\ visited !! x = Some true).
Proof.
  intros Hx. destruct (decide (x = k)) as [Heq|Hne]; [by left|].
  right. by rewrite list_lookup_insert_ne in Hx.
Qed.

Lemma visited_lt n (visited : list bool) x :
  length visited = n -> visited !! x = Some true -> (x < n)%nat.
Proof. intros Hn H. rewrite <- Hn. by eapply lookup_lt_Some. Qed.

Section Search.
Variables (capacity flow : matrix) (n s : nat) (sink : Z).
Hypothesis Hcap : square n capacity = true.
Hypothesis Hflow : square n flow = true.
Hypothesis Hres : forall i j, (i < n)%nat -> (j < n)%nat ->
  exists r, num_sub (at2 capacity i j) (at2 flow i j) = Ok r.

#[local] Abbreviation Tree := (bfs_tree capacity flow n s).
#[local] Abbreviation Inv := (bfs_inv capacity flow n s sink).
#[local] Abbreviation Found := (bfs_found capacity flow n s sink).
#[local] Abbreviation res := (residual capacity flow).

Lemma inv_head visited parent u q depth x :
  Inv visited parent (u :: q) depth -> x ∈ u :: q ->
  (depth u <= depth x <= S (depth u))%nat.
Proof.
  intros HI [j Hj]%list_elem_of_lookup.
  eapply (bi_sorted HI 0%nat j); [done|done|lia].
Qed.

Lemma inv_level visited parent u q depth x :
  Inv visited parent (u :: q) depth -> visited !! x = Some true ->
  (depth x <= S (depth u))%nat.
Proof.
  intros HI Hx. destruct (decide (x ∈ u :: q)) as [Hin|Hout].
  - by apply (inv_head _ _ _ _ _ _ HI).
  - pose proof (bi_done HI x u Hx Hout) as H.
    specialize (H ltac:(left)). lia.
Qed.

(** Nodes within [depth u] residual hops of the source have all been
    visited, at a level no larger than the number of hops. *)
Lemma reach_visited visited parent u q depth k y :
  Inv visited parent (u :: q) depth ->
  rpath capacity flow n s k y -> (k <= depth u)%nat ->
  visited !! y = Some true /\ (depth y <= k)%nat.
Proof.
  intros HI Hp. induction Hp as [Hs|k y z Hp IH Hz Hyz]; intros Hk.
  - pose proof (bi_tree HI) as HT.
    split; [apply HT|]. rewrite (bt_src_depth HT). lia.
  - destruct IH as [Hy Hdy]; [lia|].
    assert (Hout : y ∉ u :: q).
    { intros Hin. pose proof (inv_head _ _ _ _ _ _ HI Hin). lia. }
    assert (Hvz : visited !! z = Some true).
    { by eapply (bi_closed HI y z). }
    split; [done|].
    pose proof (bi_edge HI y z Hy Hvz Hyz). lia.
Qed.

Section Visit.
Variables (visited : list bool) (parent : list Z) (u : nat) (q : list nat)
  (depth : nat -> nat) (k : nat).
Hypothesis HI : Inv visited parent (u :: q) depth.
Hypothesis Hk : visited !! k = Some false.
Hypothesis Huk : res u k = true.

Let visited' := <[k:=true]> visited.
Let parent' := <[k:=Z.of_nat u]> parent.
Let depth' := deepen depth u k.

Lemma deepen_old x : x <> k -> depth' x = depth x.
Proof. intros Hx. unfold depth'. unfold deepen. by rewrite decide_False. Qed.

Lemma deepen_new : depth' k = S (depth u).
Proof. unfold depth'. unfold deepen. by rewrite decide_True. Qed.

Lemma visit_head : visited !! u = Some true.
Proof. apply (bi_queue HI). left. Qed.

Lemma visit_tree : Tree visited' parent' depth'.
Proof.
  pose proof (bi_tree HI) as HT.
  pose proof visit_head as Hu. pose proof (visit_old _ _ _ Hk Hu) as Hne.
  pose proof (unvisited_visit _ _ Hk) as Hcount. fold visited' in Hcount.
  split.
  - unfold visited'. rewrite length_insert. apply HT.
  - unfold parent'. rewrite length_insert. apply HT.
  - apply visit_keep; [done|]. apply HT.
  - rewrite deepen_old; [apply HT|]. eapply visit_old; [done|]. apply HT.
  - intros v Hv Hvs. apply visit_inv_lookup in Hv as [->|[Hvk Hv]].
    + exists u. split; [|split; [|split]].
      * unfold parent'. apply list_lookup_insert_eq.
        rewrite (bt_len_p HT), <- (bt_len_v HT).
        by eapply lookup_lt_Some.
      * by apply visit_keep; [done|].
      * done.
      * by rewrite deepen_new, deepen_old.
    + destruct (bt_tree HT v Hv Hvs) as (w & Hp & Hw & Hr & Hd).
      exists w. split; [|split; [|split]].
      * unfold parent'. by rewrite list_lookup_insert_ne.
      * by apply visit_keep; [done|].
      * done.
      * rewrite !deepen_old; [done| |done]. by eapply visit_old.
  - intros v Hv. apply visit_inv_lookup in Hv as [->|[Hvk Hv]].
    + rewrite deepen_new.
      pose proof (bt_count HT u Hu). lia.
    + rewrite deepen_old by done.
      pose proof (bt_count HT v Hv). lia.
Qed.

Lemma visit_inv :
  Z.of_nat k <> sink -> Inv visited' parent' (u :: q ++ [k]) depth'.
Proof.
  intros Hsink.
  pose proof visit_head as Hu. pose proof (visit_old _ _ _ Hk Hu) as Hne.
  split.
  - apply visit_tree.
  - intros v Hv. apply visit_inv_lookup in Hv as [->|[Hvk Hv]]; [by right|].
    by apply (bi_sink HI).
  - intros x Hx. rewrite app_comm_cons in Hx.
    apply elem_of_app in Hx as [Hx|Hx].
    + apply visit_keep; [done|]. by apply (bi_queue HI).
    + apply list_elem_of_singleton in Hx as ->. by apply visit_new.
  - intros a b Ha Hout Hb Hab. rewrite app_comm_cons in Hout.
    apply not_elem_of_app in Hout as [Hout Hak].
    apply visit_inv_lookup in Ha as [->|[_ Ha]].
    { exfalso. apply Hak. by apply list_elem_of_singleton. }
    apply visit_keep; [done|].
    by apply (bi_closed HI a b).
  - intros i j x y Hx Hy Hij. rewrite app_comm_cons in Hx, Hy.
    assert (Hlast : forall i x, ((u :: q) ++ [k]) !! i = Some x ->
      ((u :: q) !! i = Some x /\ x <> k /\ (i < length (u :: q))%nat) \/
      (i = length (u :: q) /\ x = k)).
    { intros i0 x0 H0. apply lookup_app_Some in H0 as [H0|[Hge H0]].
      - left. split; [done|]. split; [|by eapply lookup_lt_Some].
        eapply visit_old; [done|]. apply (bi_queue HI).
        by eapply list_elem_of_lookup_2.
      - right. apply list_lookup_singleton_Some in H0 as [H0 <-].
        split; [lia|done]. }
    apply Hlast in Hx as [(Hx & Hxk & Hxi)|[-> ->]];
      apply Hlast in Hy as [(Hy & Hyk & Hyj)|[-> ->]].
    + rewrite !deepen_old by done.
      by apply (bi_sorted HI i j).
    + rewrite deepen_new, deepen_old by done.
      pose proof (inv_head _ _ _ _ _ x HI) as H.
      specialize (H ltac:(by eapply list_elem_of_lookup_2)). lia.
    + lia.
    + lia.
  - intros p x Hp Hout Hx. rewrite app_comm_cons in Hout, Hx.
    apply not_elem_of_app in Hout as [Hout Hpk].
    apply visit_inv_lookup in Hp as [->|[Hpk' Hp]].
    { exfalso. apply Hpk. by apply list_elem_of_singleton. }
    rewrite (deepen_old p) by done.
    apply elem_of_app in Hx as [Hx|Hx].
    + rewrite deepen_old.
      * by apply (bi_done HI).
      * eapply visit_old; [done|]. by apply (bi_queue HI).
    + apply list_elem_of_singleton in Hx as ->. rewrite deepen_new.
      pose proof (bi_done HI p u Hp Hout) as H.
      specialize (H ltac:(left)). lia.
  - intros x y Hx Hy Hxy.
    apply visit_inv_lookup in Hx as [->|[Hxk Hx]];
      apply visit_inv_lookup in Hy as [->|[Hyk Hy]].
    + lia.
    + rewrite deepen_new, deepen_old by done.
      pose proof (inv_level _ _ _ _ _ y HI Hy). lia.
    + rewrite deepen_new, deepen_old by done.
      destruct (decide (x ∈ u :: q)) as [Hin|Hout].
      * pose proof (inv_head _ _ _ _ _ x HI Hin). lia.
      * exfalso.
        assert (visited !! k = Some true); [|congruence].
        apply (bi_closed HI x k); try done.
        rewrite <- (bt_len_v (bi_tree HI)).
        by eapply lookup_lt_Some.
    + rewrite !deepen_old by done.
      by apply (bi_edge HI).
Qed.

Lemma visit_found :
  Z.of_nat k = sink -> Found visited' parent' depth' k.
Proof.
  intros Hsink. split.
  - apply visit_tree.
  - done.
  - intros ->.
    pose proof (bt_src (bi_tree HI)).
    congruence.
  - by apply visit_new.
  - intros len Hp. rewrite deepen_new.
    destruct (decide (len <= depth u)%nat) as [Hle|]; [|lia].
    destruct (reach_visited _ _ _ _ _ _ _ HI Hp Hle). congruence.
  - pose proof visit_head as Hu. pose proof (visit_old _ _ _ Hk Hu) as Hne.
    intros v Hv Hvs. rewrite <- Hsink.
    apply visit_inv_lookup in Hv as [Hvk|[Hvk Hv]].
    + rewrite Hvk. unfold parent'.
      rewrite list_lookup_insert_eq.
      * intros [= Heq]. lia.
      * rewrite (bt_len_p (bi_tree HI)),
          <- (bt_len_v (bi_tree HI)).
        by eapply lookup_lt_Some.
    + destruct (bt_tree (bi_tree HI) v Hv Hvs)
        as (w & Hp & Hw & _).
      unfold parent'. rewrite list_lookup_insert_ne by done. rewrite Hp.
      pose proof (visit_old _ _ _ Hk Hw). intros [= Heq]. lia.
  - intros x Hx. rewrite deepen_new.
    apply visit_inv_lookup in Hx as [Hxk|[Hxk Hx]].
    + by rewrite Hxk, deepen_new.
    + rewrite deepen_old by done. by eapply inv_level.
Qed.

End Visit.

Lemma range_step (k m : nat) :
  seqZ (Z.of_nat k) (Z.of_nat (S m)) =
  Z.of_nat k :: seqZ (Z.of_nat (S k)) (Z.of_nat m).
Proof. rewrite seqZ_cons by lia. f_equal. f_equal; lia. Qed.

(** Dequeuing the expanded node once all its neighbours were tried. *)
Lemma inv_pop visited parent u q depth :
  Inv visited parent (u :: q) depth ->
  (forall v, (v < n)%nat -> res u v = true -> visited !! v = Some true) ->
  Inv visited parent q depth.
Proof.
  intros HI Hall. split.
  - apply HI.
  - apply HI.
  - intros x Hx. apply (bi_queue HI). by right.
  - intros a b Ha Hout Hb Hab. destruct (decide (a = u)) as [->|Hne].
    + by apply Hall.
    + apply (bi_closed HI a b); try done.
      intros [->|Hin]%elem_of_cons; tauto.
  - intros i j x y Hx Hy Hij.
    apply (bi_sorted HI (S i) (S j)); [done|done|lia].
  - intros p x Hp Hout Hx. destruct (decide (p = u)) as [->|Hne].
    + apply list_elem_of_lookup in Hx as [j Hj].
      apply (bi_sorted HI 0%nat (S j)); [done|done|lia].
    + apply (bi_done HI); [done| |by right].
      intros [->|Hin]%elem_of_cons; tauto.
  - apply HI.
Qed.

Lemma bfs_for_spec u : forall m k visited q parent depth,
  (k + m = n)%nat ->
  Inv visited parent (u :: q) depth ->
  (forall v, (v < k)%nat -> res u v = true -> visited !! v = Some true) ->
  exists found visited' q' parent' depth',
    bfs_for capacity flow sink (Z.of_nat u)
      (seqZ (Z.of_nat k) (Z.of_nat m))
      (BfsState visited (Z.of_nat <$> q) parent)
    = Ok (found, BfsState visited' (Z.of_nat <$> q') parent') /\
    if (found : bool) then exists t, Found visited' parent' depth' t
    else Inv visited' parent' (u :: q') depth' /\
         (forall v, (v < n)%nat -> res u v = true ->
                    visited' !! v = Some true) /\
         (unvisited visited' + length q' = unvisited visited + length q)%nat.
Proof.
  induction m as [|m IH]; intros k visited q parent depth Hkm HI Hpc.
  - exists false, visited, q, parent, depth. split; [done|].
    split; [done|]. split; [|done]. intros v Hv. apply Hpc. lia.
  - rewrite range_step. cbn [bfs_for bs_visited bs_queue bs_parent].
    pose proof (bi_tree HI) as HT.
    pose proof (bt_len_v HT) as Hlv.
    pose proof (bt_len_p HT) as Hlp.
    assert (Hu : visited !! u = Some true)
      by (apply (bi_queue HI); left).
    assert (Hun : (u < n)%nat) by (by eapply visited_lt).
    destruct (lookup_lt_is_Some_2 visited k ltac:(lia)) as [b Hb].
    rewrite (getitem_nat _ _ _ Hb); ok_step.
    assert (Hnext : forall vis' q' par' dep',
      Inv vis' par' (u :: q') dep' ->
      (forall v, (v < S k)%nat -> res u v = true -> vis' !! v = Some true) ->
      (unvisited vis' + length q' = unvisited visited + length q)%nat ->
      exists found visited' q'0 parent' depth',
        bfs_for capacity flow sink (Z.of_nat u)
          (seqZ (Z.of_nat (S k)) (Z.of_nat m))
          (BfsState vis' (Z.of_nat <$> q') par')
        = Ok (found, BfsState visited' (Z.of_nat <$> q'0) parent') /\
        if (found : bool) then exists t, Found visited' parent' depth' t
        else Inv visited' parent' (u :: q'0) depth' /\
             (forall v, (v < n)%nat -> res u v = true ->
                        visited' !! v = Some true) /\
             (unvisited visited' + length q'0
              = unvisited visited + length q)%nat).
    { intros vis' q' par' dep' HI' Hpc' Hme.
      destruct (IH (S k) vis' q' par' dep' ltac:(lia) HI' Hpc')
        as (found & v2 & q2 & p2 & d2 & Hrun & Hpost).
      exists found, v2, q2, p2, d2. split; [done|].
      destruct found; [done|]. destruct Hpost as (? & ? & ?).
      split; [done|]. split; [done|]. lia. }
    destruct b.
    { apply (Hnext visited q parent depth); [done| |done].
      intros v Hv Hr. destruct (decide (v = k)) as [->|]; [done|].
      apply Hpc; [lia|done]. }
    rewrite (getitem2_nat n capacity u k) by (done || lia); ok_step.
    rewrite (getitem2_nat n flow u k) by (done || lia); ok_step.
    destruct (Hres u k ltac:(lia) ltac:(lia)) as [r Hr].
    assert (Hruk : res u k = num_pos r) by (unfold residual; by rewrite Hr).
    rewrite Hr; ok_step.
    destruct (num_pos r) eqn:Hpos.
    2:{ apply (Hnext visited q parent depth); [done| |done].
        intros v Hv Hrv. destruct (decide (v = k)) as [->|]; [congruence|].
        apply Hpc; [lia|done]. }
    rewrite (setitem_nat parent) by lia; ok_step.
    rewrite (setitem_nat visited) by lia; ok_step.
    case_bool_decide as Hsink.
    + exists true, (<[k:=true]> visited), q, (<[k:=Z.of_nat u]> parent),
        (deepen depth u k).
      split; [done|]. exists k. by eapply visit_found.
    + replace ((Z.of_nat <$> q) ++ [Z.of_nat k])
        with (Z.of_nat <$> (q ++ [k])) by (by rewrite fmap_app).
      apply (Hnext _ _ _ (deepen depth u k)).
      * by eapply visit_inv.
      * intros v Hv Hrv. destruct (decide (v = k)) as [->|].
        -- by apply visit_new.
        -- apply visit_keep; [done|]. apply Hpc; [lia|done].
      * pose proof (unvisited_visit _ _ Hb). rewrite length_app. simpl. lia.
Qed.

Lemma inv_closed visited parent depth :
  Inv visited parent [] depth -> bfs_closed capacity flow n s sink visited.
Proof.
  intros HI. pose proof (bi_tree HI) as HT. split.
  - apply HT.
  - apply HT.
  - apply HI.
  - intros a b Ha Hb Hab.
    apply (bi_closed HI a b); try done.
    apply not_elem_of_nil.
Qed.

Lemma bfs_while_spec : forall fuel visited q parent depth,
  Inv visited parent q depth ->
  (unvisited visited + length q < fuel)%nat ->
  length capacity = n ->
  exists found parent',
    bfs_while fuel capacity flow sink
      (BfsState visited (Z.of_nat <$> q) parent) = Ok (found, parent') /\
    if (found : bool)
    then exists visited' depth' t, Found visited' parent' depth' t
    else exists visited',
      bfs_closed capacity flow n s sink visited' /\ length parent' = n.
Proof.
  induction fuel as [|fuel IH]; intros visited q parent depth HI Hfuel Hn;
    [lia|].
  cbn [bfs_while bs_queue bs_visited bs_parent].
  destruct q as [|u q]; cbn [fmap list_fmap].
  - exists false, parent. split; [done|]. exists visited.
    split; [by eapply inv_closed|]. apply HI.
  - rewrite Hn. unfold range.
    destruct (bfs_for_spec u n 0%nat visited q parent depth
                ltac:(lia) HI ltac:(lia))
      as (found & v2 & q2 & p2 & d2 & Hrun & Hpost).
    change 0 with (Z.of_nat 0). rewrite Hrun; ok_step.
    destruct found.
    + exists true, p2. split; [done|]. destruct Hpost as [t Ht].
      by exists v2, d2, t.
    + destruct Hpost as (HI2 & Hall & Hme).
      apply (IH v2 q2 p2 d2); [by eapply inv_pop| |done].
      simpl in Hfuel. lia.
Qed.

Lemma inv_init parent :
  length parent = n -> (s < n)%nat ->
  Inv (<[s:=true]> (replicate n false)) parent [s] (fun _ => 0%nat).
Proof.
  intros Hlp Hs.
  assert (Hone : forall v,
    <[s:=true]> (replicate n false) !! v = Some true -> v = s).
  { intros v Hv. destruct (decide (v = s)) as [|Hne]; [done|].
    rewrite list_lookup_insert_ne in Hv by done.
    apply lookup_replicate in Hv as [? _]. done. }
  assert (Hsrc : <[s:=true]> (replicate n false) !! s = Some true).
  { apply list_lookup_insert_eq. by rewrite length_replicate. }
  split.
  - split.
    + by rewrite length_insert, length_replicate.
    + done.
    + done.
    + done.
    + intros v Hv Hne. by apply Hone in Hv.
    + intros v Hv.
      assert (Hrep : replicate n false !! s = Some false)
        by (by apply lookup_replicate).
      pose proof (unvisited_visit _ _ Hrep) as Hc.
      rewrite unvisited_replicate in Hc. lia.
  - intros v Hv. left. by apply Hone.
  - intros x Hx. apply list_elem_of_singleton in Hx as ->. done.
  - intros a b Ha Hout. apply Hone in Ha as ->.
    exfalso. apply Hout. by apply list_elem_of_singleton.
  - intros i j x y Hx Hy Hij. lia.
  - intros p x Hp Hout Hx. lia.
  - intros x y Hx Hy Hxy. lia.
Qed.

(** The search returns, and its answer comes with the tree or with the
    closed set of visited nodes. *)
Lemma bfs_spec fuel parent :
  length parent = n -> (s < n)%nat -> (n < fuel)%nat ->
  exists found parent',
    bfs fuel capacity flow (Z.of_nat s) sink parent = Ok (found, parent') /\
    if (found : bool)
    then exists visited' depth' t, Found visited' parent' depth' t
    else exists visited',
      bfs_closed capacity flow n s sink visited' /\ length parent' = n.
Proof.
  intros Hlp Hs Hfuel. unfold bfs.
  pose proof (square_length _ _ Hcap) as Hn. rewrite Hn.
  rewrite setitem_nat by (by rewrite length_replicate); ok_step.
  change [Z.of_nat s] with (Z.of_nat <$> [s]).
  eapply bfs_while_spec; [by apply inv_init| |done].
  assert (Hrep : replicate n false !! s = Some false)
    by (by apply lookup_replicate).
  pose proof (unvisited_visit _ _ Hrep) as Hc.
  rewrite unvisited_replicate in Hc. simpl. lia.
Qed.

End Search.

(** ** Sums *)

Lemma sumZ_ext n (f g : nat -> Z) :
  (forall i, (i < n)%nat -> f i = g i) -> sumZ n f = sumZ n g.
Proof.
  induction n as [|n IH]; intros H; simpl; [done|].
  rewrite IH, H by (intros; apply H || idtac; lia). done.
Qed.

Lemma sumZ_add n (f g : nat -> Z) :
  sumZ n (fun i => f i + g i) = sumZ n f + sumZ n g.
Proof. induction n as [|n IH]; simpl; lia. Qed.

Lemma sumZ_opp n (f : nat -> Z) : sumZ n (fun i => - f i) = - sumZ n f.
Proof. induction n as [|n IH]; simpl; lia. Qed.

Lemma sumZ_zero n : sumZ n (fun _ => 0) = 0.
Proof. induction n as [|n IH]; simpl; lia. Qed.

Lemma sumZ_le n (f g : nat -> Z) :
  (forall i, (i < n)%nat -> f i <= g i) -> sumZ n f <= sumZ n g.
Proof.
  induction n as [|n IH]; intros H; simpl; [lia|].
  specialize (IH ltac:(intros; apply H; lia)).
  specialize (H n ltac:(lia)). lia.
Qed.

Lemma sumZ_swap n m (f : nat -> nat -> Z) :
  sumZ n (fun i => sumZ m (fun j => f i j)) =
  sumZ m (fun j => sumZ n (fun i => f i j)).
Proof.
  induction n as [|n IH]; simpl.
  - by rewrite sumZ_zero.
  - by rewrite IH, <- sumZ_add.
Qed.

Lemma sumZ_delta n k (a : Z) :
  (k < n)%nat -> sumZ n (fun i => if decide (i = k) then a else 0) = a.
Proof.
  induction n as [|n IH]; intros Hk; [lia|]. simpl.
  destruct (decide (n = k)) as [->|Hne].
  - rewrite (sumZ_ext k _ (fun _ => 0)), sumZ_zero; [lia|].
    intros i Hi. rewrite decide_False; [done|lia].
  - rewrite IH by lia. lia.
Qed.

(** A skew-symmetric table sums to zero. *)
Lemma sumZ_skew n (g : nat -> nat -> Z) :
  (forall i j, (i < n)%nat -> (j < n)%nat -> g i j = - g j i) ->
  sumZ n (fun i => sumZ n (fun j => g i j)) = 0.
Proof.
  intros Hskew.
  assert (H : sumZ n (fun i => sumZ n (fun j => g i j)) =
              - sumZ n (fun i => sumZ n (fun j => g i j))); [|lia].
  rewrite sumZ_swap at 2. rewrite <- sumZ_opp.
  apply sumZ_ext. intros i Hi. rewrite <- sumZ_opp.
  apply sumZ_ext. intros j Hj. by apply Hskew.
Qed.

Lemma sum_ext_fin n (f : nat -> ext) c :
  sum_ext n f = Fin c ->
  (forall i, (i < n)%nat -> f i = Fin (fin_val (f i))) /\
  c = sumZ n (fun i => fin_val (f i)).
Proof.
  revert c. induction n as [|n IH]; intros c H; simpl in *.
  - split; [lia|]. by injection H.
  - destruct (sum_ext n f) as [a|] eqn:Ha; [|done].
    destruct (f n) as [b|] eqn:Hb; [|done].
    destruct (IH a eq_refl) as [Hall ->]. injection H as <-.
    split; [|simpl; lia].
    intros i Hi. destruct (decide (i = n)) as [->|Hne].
    + by rewrite Hb.
    + apply Hall. lia.
Qed.

Lemma sum_ext_of_fin n (f : nat -> ext) (g : nat -> Z) :
  (forall i, (i < n)%nat -> f i = Fin (g i)) ->
  sum_ext n f = Fin (sumZ n g).
Proof.
  induction n as [|n IH]; intros H; simpl; [done|].
  rewrite IH, H by (intros; apply H || idtac; lia). done.
Qed.

(** ** Flow across a cut *)

Lemma is_cut_spec n s t S :
  is_cut n s t S = true ->
  length S = n /\ in_cut S s = true /\ in_cut S t = false.
Proof.
  unfold is_cut. intros [[H1 H2]%andb_true_iff H3]%andb_true_iff.
  apply bool_decide_eq_true_1 in H1. apply negb_true_iff in H3. done.
Qed.

Section Cut.
Variables (capacity : matrix) (n s t : nat) (flow : matrix) (value : Z).
Hypothesis HF : flow_inv capacity n s t flow value.
Hypothesis Hs : (s < n)%nat.

Lemma value_cut_flow S : is_cut n s t S = true -> value = cut_flow n flow S.
Proof.
  intros (Hlen & HSs & HSt)%is_cut_spec.
  transitivity (sumZ n (fun i => if in_cut S i then row_sum n flow i else 0)).
  { rewrite <- (sumZ_delta n s value Hs). apply sumZ_ext. intros i Hi.
    destruct (decide (i = s)) as [->|Hne].
    - rewrite HSs. symmetry. apply HF.
    - destruct (in_cut S i) eqn:HSi; [|done].
      symmetry. apply HF; [done|done|]. intros ->. congruence. }
  transitivity
    (sumZ n (fun i => sumZ n (fun j =>
       if in_cut S i && in_cut S j then fl flow i j else 0)) + cut_flow n flow S).
  { unfold cut_flow. rewrite <- sumZ_add. apply sumZ_ext. intros i Hi.
    rewrite <- sumZ_add. unfold row_sum.
    destruct (in_cut S i); simpl.
    - apply sumZ_ext. intros j Hj. unfold fl. destruct (in_cut S j); simpl; lia.
    - rewrite sumZ_zero. lia. }
  rewrite sumZ_skew; [lia|].
  intros i j Hi Hj. rewrite (andb_comm (in_cut S j)).
  destruct (in_cut S i && in_cut S j); [|lia]. by apply HF.
Qed.

Lemma value_le_cut S c :
  is_cut n s t S = true -> cut_capacity n capacity S = Fin c -> value <= c.
Proof.
  intros Hcut Hc. rewrite (value_cut_flow S Hcut).
  apply sum_ext_fin in Hc as [Hrows ->].
  apply sumZ_le. intros i Hi.
  pose proof (Hrows i Hi) as Hrow. cbv beta in Hrow.
  apply sum_ext_fin in Hrow as [Hcells ->].
  apply sumZ_le. intros j Hj.
  specialize (Hcells j Hj). cbv beta in Hcells.
  destruct (in_cut S i && negb (in_cut S j)); [|done].
  destruct (at2 capacity i j) as [z|f] eqn:Hz; simpl in *; [|done].
  by apply (fi_cap HF).
Qed.

Lemma cut_saturated S :
  is_cut n s t S = true ->
  (forall i j, (i < n)%nat -> (j < n)%nat ->
     in_cut S i = true -> in_cut S j = false ->
     at2 capacity i j = Int (fl flow i j)) ->
  cut_capacity n capacity S = Fin value.
Proof.
  intros Hcut Hsat. rewrite (value_cut_flow S Hcut).
  unfold cut_capacity, cut_flow.
  apply sum_ext_of_fin. intros i Hi.
  apply sum_ext_of_fin. intros j Hj.
  destruct (in_cut S i) eqn:HSi, (in_cut S j) eqn:HSj; simpl; try done.
  by rewrite Hsat.
Qed.

End Cut.

(** ** Arithmetic on residual capacities *)

Lemma ext_le_trans a b c :
  ext_le a b = true -> ext_le b c = true -> ext_le a c = true.
Proof.
  destruct a, b, c; simpl; try done.
  intros H1%bool_decide_eq_true_1 H2%bool_decide_eq_true_1.
  apply bool_decide_eq_true_2. lia.
Qed.

Lemma ext_le_refl a : ext_le a a = true.
Proof. destruct a; simpl; [|done]. apply bool_decide_eq_true_2. lia. Qed.

Lemma py_min_good a b :
  good a = true -> good b = true ->
  good (py_min a b) = true /\
  ext_le (ext_of (py_min a b)) (ext_of a) = true /\
  ext_le (ext_of (py_min a b)) (ext_of b) = true /\
  (is_int a || is_int b = true -> is_int (py_min a b) = true).
Proof.
  destruct a as [x|[]], b as [y|[]]; simpl; try done; intros Ha Hb.
  - unfold py_min, num_lt. destruct (y <? x) eqn:Hlt; simpl.
    + repeat split; try done; apply bool_decide_eq_true_2; lia.
    + repeat split; try done; apply bool_decide_eq_true_2; lia.
  - unfold py_min; simpl. repeat split; try done.
    apply bool_decide_eq_true_2; lia.
  - unfold py_min; simpl. repeat split; try done.
    apply bool_decide_eq_true_2; lia.
Qed.

Lemma fits_double_bound z b :
  Z.abs z <= b -> b < DBL_OVERFLOW -> fits_double z = true.
Proof. intros H1 H2. unfold fits_double. apply Z.ltb_lt. lia. Qed.

Lemma valid_capacity_spec n capacity :
  valid_capacity n capacity = true ->
  square n capacity = true /\
  forall i j, (i < n)%nat -> (j < n)%nat ->
    capacity_ok (at2 capacity i j) = true.
Proof.
  unfold valid_capacity. intros [Hsq Hall]%andb_true_iff. split; [done|].
  intros i j Hi Hj.
  destruct (square_row n capacity i Hsq Hi) as [Hrow Hlen].
  pose proof (square_entry n capacity i j Hsq Hi Hj) as Hcell.
  rewrite forallb_forall in Hall.
  specialize (Hall (capacity !!! i)).
  rewrite forallb_forall in Hall. apply Hall.
  - apply list_elem_of_In. by eapply list_elem_of_lookup_2.
  - apply list_elem_of_In. by eapply list_elem_of_lookup_2.
Qed.

(** The subtraction [capacity[i][j] - flow[i][j]] of the search and of
    the bottleneck loop: it does not raise, and yields the finite residual
    or infinity. *)
Lemma residual_value capacity n s t flow value i j :
  valid_capacity n capacity = true ->
  flow_inv capacity n s t flow value ->
  value < DBL_OVERFLOW ->
  (i < n)%nat -> (j < n)%nat ->
  exists r, num_sub (at2 capacity i j) (at2 flow i j) = Ok r /\
    match at2 capacity i j with
    | Int c => r = Int (c - fl flow i j) /\ 0 <= c - fl flow i j
    | Flt _ => r = Flt PInf
    end.
Proof.
  intros [Hsq Hok]%valid_capacity_spec HF Hv Hi Hj.
  specialize (Hok i j Hi Hj).
  rewrite (fi_int HF i j Hi Hj).
  destruct (at2 capacity i j) as [c|[]] eqn:Hc; simpl in *; try done.
  - eexists. split; [done|]. split; [done|].
    pose proof (fi_cap HF i j c Hi Hj Hc). lia.
  - rewrite (fits_double_bound _ value); [by eexists| |done].
    by apply (fi_bound HF).
Qed.

Lemma cut_finite_edge n capacity S c i j :
  cut_capacity n capacity S = Fin c -> (i < n)%nat -> (j < n)%nat ->
  in_cut S i = true -> in_cut S j = false ->
  exists z, at2 capacity i j = Int z.
Proof.
  intros Hc Hi Hj HSi HSj.
  apply sum_ext_fin in Hc as [Hrows _].
  specialize (Hrows i Hi). cbv beta in Hrows.
  apply sum_ext_fin in Hrows as [Hcells _].
  specialize (Hcells j Hj). cbv beta in Hcells.
  rewrite HSi, HSj in Hcells. simpl in Hcells.
  destruct (at2 capacity i j); [by eexists|done].
Qed.

Lemma row_sum_set2 n (m : matrix) i j x a :
  square n m = true -> (i < n)%nat -> (j < n)%nat ->
  row_sum n (set2 m i j x) a =
  row_sum n m a + (if decide (a = i) then zval x - fl m i j else 0).
Proof.
  intros Hsq Hi Hj. unfold row_sum.
  rewrite <- (sumZ_delta n j
    (if decide (a = i) then zval x - fl m i j else 0) Hj).
  rewrite <- sumZ_add. apply sumZ_ext. intros b Hb.
  rewrite (at2_set2 n) by done. unfold fl.
  destruct (decide (a = i)) as [->|Hne], (decide (b = j)) as [->|Hnb].
  - rewrite bool_decide_eq_true_2 by done. lia.
  - rewrite bool_decide_eq_false_2 by tauto. lia.
  - rewrite bool_decide_eq_false_2 by tauto. lia.
  - rewrite bool_decide_eq_false_2 by tauto. lia.
Qed.

Lemma on_walk_inv parent s v x :
  on_walk parent s v x ->
  x = v \/ (v <> s /\ exists u, parent !! v = Some (Z.of_nat u) /\
                                on_walk parent s u x).
Proof. destruct 1 as [|v u x Hv Hp Hw]; [by left|]. right. eauto. Qed.

(** ** One augmentation *)

Section Augment.
Variables (capacity flow : matrix) (n s t : nat) (value : Z).
Variables (visited : list bool) (parent : list Z) (depth : nat -> nat).
Variables (side : list bool) (c : Z).
Hypothesis Hcap : valid_capacity n capacity = true.
Hypothesis HF : flow_inv capacity n s t flow value.
Hypothesis Hval : value < DBL_OVERFLOW.
Hypothesis HT : bfs_tree capacity flow n s visited parent depth.
Hypothesis Hcut : is_cut n s t side = true.
Hypothesis Hc : cut_capacity n capacity side = Fin c.

(** The tree edge into a visited node other than the source, with its
    residual capacity. *)
Lemma tree_edge v :
  visited !! v = Some true -> v <> s ->
  exists u r,
    parent !! v = Some (Z.of_nat u) /\ visited !! u = Some true /\
    (u < n)%nat /\ (v < n)%nat /\ depth v = S (depth u) /\
    num_sub (at2 capacity u v) (at2 flow u v) = Ok r /\ good r = true /\
    (forall z, at2 capacity u v = Int z -> r = Int (z - fl flow u v)).
Proof.
  intros Hv Hvs.
  destruct (bt_tree HT v Hv Hvs) as (u & Hp & Hu & Hr & Hd).
  pose proof (bt_len_v HT) as Hlen.
  assert (Hun : (u < n)%nat) by (by eapply visited_lt).
  assert (Hvn : (v < n)%nat) by (by eapply visited_lt).
  destruct (residual_value capacity n s t flow value u v Hcap HF Hval Hun Hvn)
    as (r & Hsub & Hcase).
  exists u, r. repeat (split; [done|]).
  unfold residual in Hr. rewrite Hsub in Hr.
  destruct (at2 capacity u v) as [z|f] eqn:Hz.
  - destruct Hcase as [-> Hge]. split; [|by intros ? [= <-]].
    simpl in *. apply Z.ltb_lt in Hr. by apply bool_decide_eq_true_2.
  - subst r. split; [done|]. intros z [=].
Qed.

Lemma depth_zero v : visited !! v = Some true -> depth v = 0%nat -> v = s.
Proof.
  intros Hv Hd. destruct (decide (v = s)) as [|Hne]; [done|].
  destruct (tree_edge v Hv Hne) as (u & r & _ & _ & _ & _ & Hdv & _). lia.
Qed.

Lemma bottleneck_spec : forall d v acc fuel,
  visited !! v = Some true -> depth v = d -> (d < fuel)%nat ->
  good acc = true ->
  exists r,
    bottleneck fuel capacity flow parent (Z.of_nat s) (Z.of_nat v) acc
      = Ok r /\
    good r = true /\
    ext_le (ext_of r) (ext_of acc) = true /\
    (forall x u z, on_walk parent s v x -> x <> s ->
       parent !! x = Some (Z.of_nat u) -> at2 capacity u x = Int z ->
       ext_le (ext_of r) (Fin (z - fl flow u x)) = true) /\
    (is_int acc = true \/ in_cut side v = false -> is_int r = true).
Proof.
  destruct (is_cut_spec _ _ _ _ Hcut) as (HlenS & HSs & HSt).
  destruct (valid_capacity_spec _ _ Hcap) as [Hsq _].
  induction d as [|d IH]; intros v acc fuel Hv Hd Hfuel Hacc;
    (destruct fuel as [|fuel]; [lia|]); cbn [bottleneck].
  - apply depth_zero in Hd as ->; [|done].
    rewrite bool_decide_eq_true_2 by done.
    exists acc. split; [done|]. split; [done|].
    split; [apply ext_le_refl|]. split.
    + intros x u z [->|[Hne _]]%on_walk_inv; done.
    + intros [H|H]; [done|congruence].
  - assert (Hvs : v <> s).
    { intros ->. rewrite (bt_src_depth HT) in Hd. lia. }
    rewrite bool_decide_eq_false_2 by lia.
    destruct (tree_edge v Hv Hvs)
      as (u & r0 & Hp & Hu & Hun & Hvn & Hdv & Hsub & Hgood & Hfin).
    rewrite (getitem_nat _ _ _ Hp); ok_step.
    rewrite (getitem2_nat n capacity u v) by done; ok_step.
    rewrite (getitem2_nat n flow u v) by (done || apply HF); ok_step.
    rewrite Hsub; ok_step.
    destruct (py_min_good acc r0 Hacc Hgood) as (Hg & Hle1 & Hle2 & Hint).
    destruct (IH u (py_min acc r0) fuel Hu ltac:(lia) ltac:(lia) Hg)
      as (r & Hrun & Hgr & Hle & Hwalk & Hintr).
    exists r. split; [done|]. split; [done|].
    split; [by eapply ext_le_trans|]. split.
    + intros x u' z [->|[_ (u'' & Hp' & Hw)]]%on_walk_inv Hxs Hpx Hz.
      * rewrite Hp in Hpx. injection Hpx as Heq.
        apply Nat2Z.inj in Heq as <-.
        eapply ext_le_trans; [done|].
        eapply ext_le_trans; [done|].
        rewrite (Hfin z Hz). apply ext_le_refl.
      * rewrite Hp in Hp'. injection Hp' as Heq.
        apply Nat2Z.inj in Heq as <-. by eapply Hwalk.
    + intros Hor. apply Hintr.
      destruct (in_cut side u) eqn:HSu; [|by right].
      left. apply Hint. destruct Hor as [->|HSv]; [done|].
      destruct (cut_finite_edge n capacity side c u v Hc Hun Hvn HSu HSv)
        as [z Hz].
      rewrite (Hfin z Hz). simpl. apply orb_true_r.
Qed.

#[local] Abbreviation AugInv pf :=
  (aug_inv capacity flow n s t value pf visited parent depth).

Lemma aug_inv_start pf : 0 < pf -> AugInv pf flow t.
Proof.
  intros Hpf. split; try apply HF.
  - intros i j Hi Hj. pose proof (fi_bound HF i j Hi Hj). lia.
  - intros x Hx. destruct (decide (x = t)); lia.
  - done.
Qed.

(** Pushing [pf] over the tree edge [u -> v]. *)
Lemma aug_inv_push pf F' u v :
  0 < pf -> AugInv pf F' v ->
  visited !! v = Some true -> v <> s ->
  parent !! v = Some (Z.of_nat u) -> visited !! u = Some true ->
  depth v = Datatypes.S (depth u) ->
  (forall z, at2 capacity u v = Int z -> pf <= z - fl flow u v) ->
  let F1 := set2 F' u v (Int (fl F' u v + pf)) in
  let F2 := set2 F1 v u (Int (fl F' v u - pf)) in
  AugInv pf F2 u.
Proof.
  intros Hpf HA Hv Hvs Hp Hu Hd Hres F1 F2.
  pose proof (bt_len_v HT) as Hlen.
  assert (Hun : (u < n)%nat) by (by eapply visited_lt).
  assert (Hvn : (v < n)%nat) by (by eapply visited_lt).
  assert (Huv : u <> v) by (intros Heq; rewrite Heq in Hd; lia).
  pose proof (ai_square HA) as Hsq.
  assert (Hsq1 : square n F1 = true) by (by apply square_set2).
  assert (Hsq2 : square n F2 = true) by (by apply square_set2).
  destruct (ai_fresh HA v u Hv Hvs ltac:(lia) Hp)
    as [Ha Hb].
  assert (Hat : forall i j, at2 F2 i j =
    if bool_decide (i = v /\ j = u) then Int (fl F' v u - pf)
    else if bool_decide (i = u /\ j = v) then Int (fl F' u v + pf)
    else at2 F' i j).
  { intros i j. unfold F2. rewrite (at2_set2 n) by done.
    case_bool_decide; [done|]. unfold F1. by rewrite (at2_set2 n) by done. }
  assert (Hfl : forall i j, fl F2 i j =
    if bool_decide (i = v /\ j = u) then fl F' v u - pf
    else if bool_decide (i = u /\ j = v) then fl F' u v + pf
    else fl F' i j).
  { intros i j. unfold fl at 1. rewrite Hat.
    repeat case_bool_decide; done. }
  pose proof (ai_skew HA u v Hun Hvn) as Hskuv.
  split.
  - done.
  - intros i j Hi Hj. rewrite Hat, Hfl.
    repeat case_bool_decide; try done.
    by apply (ai_int HA).
  - intros i j Hi Hj. rewrite !Hfl.
    pose proof (ai_skew HA i j Hi Hj).
    repeat case_bool_decide; destruct_and?; simplify_eq; try lia; tauto.
  - intros i j z Hi Hj Hz. rewrite Hfl.
    repeat case_bool_decide; destruct_and?; simplify_eq.
    + pose proof (ai_cap HA _ _ z Hi Hj Hz). lia.
    + specialize (Hres z Hz). lia.
    + by apply (ai_cap HA).
  - intros i j Hi Hj. rewrite Hfl.
    pose proof (fi_bound HF u v Hun Hvn).
    pose proof (fi_bound HF v u Hvn Hun).
    pose proof (ai_bound HA i j Hi Hj).
    repeat case_bool_decide; destruct_and?; simplify_eq; lia.
  - intros x Hx. unfold F2.
    rewrite (row_sum_set2 n) by done. unfold F1 at 1.
    rewrite (row_sum_set2 n) by done.
    rewrite (ai_rows HA x Hx).
    assert (Hf1 : fl F1 v u = fl F' v u).
    { unfold fl, F1. rewrite (at2_set2 n) by done.
      rewrite bool_decide_eq_false_2; [done|]. intros [? ?]. done. }
    rewrite Hf1. simpl.
    destruct (decide (x = v)), (decide (x = u)), (decide (x = t)); lia.
  - intros x w Hx Hxs Hdx Hpx.
    destruct (ai_fresh HA x w Hx Hxs ltac:(lia) Hpx)
      as [H1 H2].
    rewrite <- H1, <- H2, !Hfl.
    destruct (bt_tree HT x Hx Hxs) as (w' & Hpw & _ & _ & Hdw).
    rewrite Hpx in Hpw. injection Hpw as Heq. apply Nat2Z.inj in Heq as <-.
    repeat case_bool_decide; destruct_and?; simplify_eq; try lia; done.
Qed.

Lemma augment_spec pf : forall d v F' fuel,
  0 < pf -> visited !! v = Some true -> depth v = d -> (d < fuel)%nat ->
  (forall x u z, on_walk parent s v x -> x <> s ->
     parent !! x = Some (Z.of_nat u) -> at2 capacity u x = Int z ->
     pf <= z - fl flow u x) ->
  AugInv pf F' v ->
  exists F'',
    augment fuel F' parent (Z.of_nat s) (Z.of_nat v) (Int pf) = Ok F'' /\
    AugInv pf F'' s.
Proof.
  induction d as [|d IH]; intros v F' fuel Hpf Hv Hd Hfuel Hwalk HA;
    (destruct fuel as [|fuel]; [lia|]); cbn [augment].
  - apply depth_zero in Hd as ->; [|done].
    rewrite bool_decide_eq_true_2 by done. by exists F'.
  - assert (Hvs : v <> s).
    { intros ->. rewrite (bt_src_depth HT) in Hd. lia. }
    rewrite bool_decide_eq_false_2 by lia.
    destruct (tree_edge v Hv Hvs)
      as (u & r0 & Hp & Hu & Hun & Hvn & Hdv & _).
    assert (Huv : u <> v) by (intros Heq; rewrite Heq in Hdv; lia).
    pose proof (ai_square HA) as Hsq.
    rewrite (getitem_nat _ _ _ Hp); ok_step.
    rewrite (getitem2_nat n F' u v) by done; ok_step.
    rewrite (ai_int HA u v Hun Hvn).
    cbn [num_add]; ok_step.
    rewrite (setitem2_nat n F' u v) by done; ok_step.
    set (F1 := set2 F' u v (Int (fl F' u v + pf))).
    assert (Hsq1 : square n F1 = true) by (by apply square_set2).
    rewrite (getitem2_nat n F1 v u) by done; ok_step.
    assert (Hf1 : at2 F1 v u = Int (fl F' v u)).
    { unfold F1. rewrite (at2_set2 n) by done.
      rewrite bool_decide_eq_false_2 by (intros [? ?]; done).
      by apply (ai_int HA). }
    rewrite Hf1. cbn [num_sub]; ok_step.
    rewrite (setitem2_nat n F1 v u) by done; ok_step.
    apply (IH u _ fuel Hpf Hu ltac:(lia) ltac:(lia)).
    + intros x w z Hw. apply Hwalk. by eapply ow_up.
    + apply (aug_inv_push pf F' u v); try done.
      intros z Hz. by apply (Hwalk v u z (ow_here _ _ _)).
Qed.

End Augment.

(** ** The outer loop *)

Lemma at2_zeros n i j : (i < n)%nat -> (j < n)%nat -> at2 (zeros n) i j = Int 0.
Proof.
  intros Hi Hj. unfold at2, zeros.
  rewrite !lookup_total_replicate_2; done.
Qed.

Lemma square_zeros n : square n (zeros n) = true.
Proof.
  unfold square, zeros. apply andb_true_iff. split.
  - apply bool_decide_eq_true_2, length_replicate.
  - apply forallb_forall. intros row Hin%list_elem_of_In.
    apply elem_of_replicate in Hin as [-> _].
    apply bool_decide_eq_true_2, length_replicate.
Qed.

Lemma row_sum_zeros n i : (i < n)%nat -> row_sum n (zeros n) i = 0.
Proof.
  intros Hi. unfold row_sum.
  rewrite (sumZ_ext n _ (fun _ => 0)); [apply sumZ_zero|].
  intros j Hj. by rewrite at2_zeros.
Qed.

Section Engine.
Variables (capacity : matrix) (n s t : nat) (side : list bool) (c : Z).
Hypothesis Hcap : valid_capacity n capacity = true.
Hypothesis Hs : (s < n)%nat.
Hypothesis Ht : (t < n)%nat.
Hypothesis Hcut : is_cut n s t side = true.
Hypothesis Hc : cut_capacity n capacity side = Fin c.
Hypothesis Hdbl : c < DBL_OVERFLOW.

#[local] Abbreviation EkInv := (ek_inv capacity n s t).
#[local] Abbreviation FlowInv := (flow_inv capacity n s t).

Lemma source_not_sink : s <> t.
Proof.
  destruct (is_cut_spec _ _ _ _ Hcut) as (_ & H1 & H2).
  intros Heq. rewrite Heq in H1. congruence.
Qed.

Lemma ek_init_inv : EkInv (ek_init capacity) 0.
Proof.
  destruct (valid_capacity_spec _ _ Hcap) as [Hsq Hok].
  unfold ek_init. rewrite (square_length _ _ Hsq).
  split; cbn [ek_flow ek_parent ek_max_flow]; [|apply length_replicate|done].
  split.
  - apply square_zeros.
  - intros i j Hi Hj. unfold fl. by rewrite at2_zeros.
  - intros i j Hi Hj. unfold fl. by rewrite !at2_zeros.
  - intros i j z Hi Hj Hz. unfold fl. rewrite at2_zeros by done. simpl.
    specialize (Hok i j Hi Hj). rewrite Hz in Hok.
    by apply bool_decide_eq_true_1 in Hok.
  - intros v Hv _ _. by apply row_sum_zeros.
  - by apply row_sum_zeros.
  - intros i j Hi Hj. unfold fl. by rewrite at2_zeros.
Qed.

Lemma aug_inv_done flow value pf visited parent depth F' :
  aug_inv capacity flow n s t value pf visited parent depth F' s ->
  FlowInv flow value -> FlowInv F' (value + pf).
Proof.
  intros HA HF. pose proof source_not_sink as Hst. split; try apply HA.
  - intros v Hv Hvs Hvt.
    rewrite (ai_rows HA v Hv).
    rewrite (fi_cons HF v Hv Hvs Hvt).
    rewrite !decide_False by done. lia.
  - rewrite (ai_rows HA s Hs).
    rewrite (fi_value HF).
    rewrite decide_True, decide_False by done. lia.
Qed.

(** One turn of the loop either pushes a positive integer amount and
    keeps the invariant, or finds the sink cut off and stops. *)
Lemma ek_step_spec gas st value :
  EkInv st value -> (n < gas)%nat ->
  (exists st' pf,
     ek_step gas capacity (Z.of_nat s) (Z.of_nat t) st = Ok (Some st') /\
     0 < pf /\ EkInv st' (value + pf)) \/
  (ek_step gas capacity (Z.of_nat s) (Z.of_nat t) st = Ok None /\
   exists visited,
     bfs_closed capacity (ek_flow st) n s (Z.of_nat t) visited).
Proof.
  intros [HF Hlp Hmf] Hgas.
  destruct (valid_capacity_spec _ _ Hcap) as [Hsq Hok].
  pose proof (value_le_cut _ _ _ _ _ _ HF Hs side c Hcut Hc) as Hvc.
  assert (Hval : value < DBL_OVERFLOW) by lia.
  assert (Hres : forall i j, (i < n)%nat -> (j < n)%nat ->
    exists r, num_sub (at2 capacity i j) (at2 (ek_flow st) i j) = Ok r).
  { intros i j Hi Hj.
    destruct (residual_value capacity n s t _ value i j Hcap HF Hval Hi Hj)
      as (r & Hr & _). by exists r. }
  destruct (bfs_spec capacity (ek_flow st) n s (Z.of_nat t) Hsq
              (fi_square HF) Hres gas (ek_parent st) Hlp Hs Hgas)
    as (found & parent' & Hbfs & Hpost).
  unfold ek_step. rewrite Hbfs; ok_step. cbn beta iota.
  destruct found.
  2:{ right. split; [done|]. destruct Hpost as (visited & Hcl & _).
      by exists visited. }
  left. destruct Hpost as (visited & depth & t0 & HFound).
  pose proof (bf_sink HFound) as Heq.
  apply Nat2Z.inj in Heq. subst t0.
  pose proof (bf_tree HFound) as HT.
  pose proof (bf_visited HFound) as Hvt.
  pose proof (bt_count HT t Hvt) as Hdt.
  destruct (is_cut_spec _ _ _ _ Hcut) as (_ & HSs & HSt).
  destruct (bottleneck_spec capacity (ek_flow st) n s t value visited parent'
              depth side c Hcap HF Hval HT Hcut Hc (depth t) t (Flt PInf) gas
              Hvt eq_refl ltac:(lia) eq_refl)
    as (r & Hbn & Hgood & _ & Hwalk & Hint).
  rewrite Hbn; ok_step.
  specialize (Hint (or_intror HSt)).
  destruct r as [pf|]; [|done]. simpl in Hgood.
  apply bool_decide_eq_true_1 in Hgood.
  destruct (augment_spec capacity (ek_flow st) n s t value visited parent'
              depth side c Hcap HF Hval HT Hcut Hc pf (depth t) t
              (ek_flow st) gas
              Hgood Hvt eq_refl ltac:(lia))
    as (F'' & Haug & HA).
  { intros x u z Hw Hxs Hp Hz.
    specialize (Hwalk x u z Hw Hxs Hp Hz). simpl in Hwalk.
    by apply bool_decide_eq_true_1 in Hwalk. }
  { by apply aug_inv_start. }
  rewrite Haug; ok_step. rewrite Hmf. cbn [num_add]; ok_step.
  eexists _, pf. split; [done|]. split; [done|].
  split; cbn [ek_flow ek_parent ek_max_flow].
  - by eapply aug_inv_done.
  - apply HT.
  - done.
Qed.

(** The loop returns once the budget exceeds what is left of the cut. *)
Lemma ek_loop_spec gas : forall fuel st value,
  EkInv st value -> (n < gas)%nat -> (Z.to_nat (c - value) < fuel)%nat ->
  exists mf F visited,
    ek_loop fuel gas capacity (Z.of_nat s) (Z.of_nat t) st = Ok (Int mf, F) /\
    FlowInv F mf /\ bfs_closed capacity F n s (Z.of_nat t) visited.
Proof.
  induction fuel as [|fuel IH]; intros st value HI Hgas Hfuel; [lia|].
  cbn [ek_loop].
  destruct (ek_step_spec gas st value HI Hgas)
    as [(st' & pf & Hstep & Hpf & HI')|(Hstep & visited & Hcl)].
  - rewrite Hstep; ok_step.
    apply (IH st' (value + pf) HI' Hgas).
    pose proof (value_le_cut _ _ _ _ _ _ (ei_flow HI') Hs
                  side c Hcut Hc).
    lia.
  - rewrite Hstep; ok_step.
    exists value, (ek_flow st), visited.
    rewrite (ei_max_flow HI). split; [done|].
    split; [apply HI|done].
Qed.

Lemma ek_reach_inv gas st :
  (n < gas)%nat ->
  ek_reach gas capacity (Z.of_nat s) (Z.of_nat t) st ->
  exists value, EkInv st value.
Proof.
  intros Hgas. induction 1 as [|st st' _ [value HI] Hstep].
  - exists 0. apply ek_init_inv.
  - destruct (ek_step_spec gas st value HI Hgas)
      as [(st2 & pf & Hstep2 & Hpf & HI')|(Hstep2 & _)].
    + rewrite Hstep in Hstep2. injection Hstep2 as <-. by eexists.
    + rewrite Hstep in Hstep2. discriminate.
Qed.

(** Every augmentation adds at least one unit. *)
Lemma ek_after_inv gas k st :
  (n < gas)%nat ->
  ek_after gas capacity (Z.of_nat s) (Z.of_nat t) k st ->
  exists value, EkInv st value /\ Z.of_nat k <= value.
Proof.
  intros Hgas. induction 1 as [|k st st' _ (value & HI & Hk) Hstep].
  - exists 0. split; [apply ek_init_inv|lia].
  - destruct (ek_step_spec gas st value HI Hgas)
      as [(st2 & pf & Hstep2 & Hpf & HI')|(Hstep2 & _)].
    + rewrite Hstep in Hstep2. injection Hstep2 as <-.
      exists (value + pf). split; [done|lia].
    + rewrite Hstep in Hstep2. discriminate.
Qed.

(** The visited nodes of the last, failed search form a saturated cut. *)
Lemma closed_cut F mf visited :
  FlowInv F mf -> mf < DBL_OVERFLOW ->
  bfs_closed capacity F n s (Z.of_nat t) visited ->
  is_cut n s t visited = true /\ cut_capacity n capacity visited = Fin mf.
Proof.
  intros HF Hmf [Hlen Hsrc Hsink Hclosed].
  pose proof source_not_sink as Hst.
  assert (Hin : forall i, (i < n)%nat ->
    visited !! i = Some (in_cut visited i)).
  { intros i Hi. unfold in_cut.
    destruct (lookup_lt_is_Some_2 visited i ltac:(lia)) as [b Hb].
    by rewrite Hb. }
  assert (Hcutv : is_cut n s t visited = true).
  { unfold is_cut. rewrite bool_decide_eq_true_2 by done.
    pose proof (Hin s Hs) as H1. rewrite Hsrc in H1. injection H1 as <-.
    simpl. destruct (in_cut visited t) eqn:Hvt; [|done].
    pose proof (Hin t Ht) as H2. rewrite Hvt in H2.
    destruct (Hsink t H2); done. }
  split; [done|].
  apply (cut_saturated capacity n s t F mf HF Hs visited Hcutv).
  intros i j Hi Hj HSi HSj.
  assert (Hr : residual capacity F i j = false).
  { destruct (residual capacity F i j) eqn:Hr; [|done].
    assert (visited !! j = Some true).
    { apply (Hclosed i j); [|done|done]. by rewrite (Hin i Hi), HSi. }
    rewrite (Hin j Hj), HSj in H. done. }
  destruct (residual_value capacity n s t F mf i j Hcap HF Hmf Hi Hj)
    as (r & Hsub & Hcase).
  unfold residual in Hr. rewrite Hsub in Hr.
  destruct (at2 capacity i j) as [z|f] eqn:Hz.
  - destruct Hcase as [-> Hge]. simpl in Hr. apply Z.ltb_ge in Hr.
    f_equal. lia.
  - by subst r.
Qed.

End Engine.

(** ** A larger budget never changes a result *)

Ltac bind_inv H :=
  match type of H with
  | (?m ≫= _) = Ok _ =>
      destruct m eqn:?; [rewrite bind_ok in H; cbv beta in H
                        | discriminate H | discriminate H]
  end.

Lemma bfs_while_mono capacity flow sink : forall fuel fuel' st r,
  bfs_while fuel capacity flow sink st = Ok r -> (fuel <= fuel')%nat ->
  bfs_while fuel' capacity flow sink st = Ok r.
Proof.
  induction fuel as [|fuel IH]; intros fuel' st r H Hle; [done|].
  destruct fuel' as [|fuel']; [lia|]. cbn [bfs_while] in *.
  destruct (bs_queue st) as [|u q]; [done|].
  bind_inv H. rewrite bind_ok. cbv beta.
  destruct a as [[] st']; [done|]. apply IH; [done|lia].
Qed.

Lemma bfs_mono capacity flow source sink parent fuel fuel' r :
  bfs fuel capacity flow source sink parent = Ok r -> (fuel <= fuel')%nat ->
  bfs fuel' capacity flow source sink parent = Ok r.
Proof.
  unfold bfs. intros H Hle. bind_inv H. rewrite bind_ok. cbv beta.
  by eapply bfs_while_mono.
Qed.

Lemma bottleneck_mono capacity flow parent source : forall fuel fuel' v acc r,
  bottleneck fuel capacity flow parent source v acc = Ok r ->
  (fuel <= fuel')%nat ->
  bottleneck fuel' capacity flow parent source v acc = Ok r.
Proof.
  induction fuel as [|fuel IH]; intros fuel' v acc r H Hle; [done|].
  destruct fuel' as [|fuel']; [lia|]. cbn [bottleneck] in *.
  case_bool_decide; [done|].
  do 4 (bind_inv H; rewrite bind_ok; cbv beta).
  apply IH; [done|lia].
Qed.

Lemma augment_mono parent source pf : forall fuel fuel' flow v r,
  augment fuel flow parent source v pf = Ok r -> (fuel <= fuel')%nat ->
  augment fuel' flow parent source v pf = Ok r.
Proof.
  induction fuel as [|fuel IH]; intros fuel' flow v r H Hle; [done|].
  destruct fuel' as [|fuel']; [lia|]. cbn [augment] in *.
  case_bool_decide; [done|].
  do 7 (bind_inv H; rewrite bind_ok; cbv beta).
  apply IH; [done|lia].
Qed.

Lemma ek_step_mono capacity source sink gas gas' st r :
  ek_step gas capacity source sink st = Ok r -> (gas <= gas')%nat ->
  ek_step gas' capacity source sink st = Ok r.
Proof.
  unfold ek_step. intros H Hle. bind_inv H.
  erewrite bfs_mono by done. rewrite bind_ok. cbv beta.
  destruct a as [[] parent']; [|done].
  bind_inv H. erewrite bottleneck_mono by done. rewrite bind_ok. cbv beta.
  bind_inv H. erewrite augment_mono by done. rewrite bind_ok. cbv beta.
  done.
Qed.

Lemma ek_loop_mono capacity source sink gas gas' : forall fuel fuel' st r,
  ek_loop fuel gas capacity source sink st = Ok r ->
  (fuel <= fuel')%nat -> (gas <= gas')%nat ->
  ek_loop fuel' gas' capacity source sink st = Ok r.
Proof.
  induction fuel as [|fuel IH]; intros fuel' st r H Hle Hgas; [done|].
  destruct fuel' as [|fuel']; [lia|]. cbn [ek_loop] in *.
  bind_inv H. erewrite ek_step_mono by done. rewrite bind_ok. cbv beta.
  destruct a as [st'|]; [|done]. apply IH; [done|lia|done].
Qed.

Lemma ek_reach_mono capacity source sink gas gas' st :
  ek_reach gas capacity source sink st -> (gas <= gas')%nat ->
  ek_reach gas' capacity source sink st.
Proof.
  intros H Hle. induction H as [|st st' _ IH Hstep].
  - constructor.
  - eapply ek_reach_step; [done|]. by eapply ek_step_mono.
Qed.

Lemma ek_after_mono capacity source sink gas gas' k st :
  ek_after gas capacity source sink k st -> (gas <= gas')%nat ->
  ek_after gas' capacity source sink k st.
Proof.
  intros H Hle. induction H as [|k st st' _ IH Hstep].
  - constructor.
  - eapply ek_after_S; [done|]. by eapply ek_step_mono.
Qed.

(** ** The path recorded by the search *)

Lemma trace_spec capacity flow n s visited parent depth :
  bfs_tree capacity flow n s visited parent depth ->
  forall d v fuel,
    visited !! v = Some true -> depth v = d -> (d < fuel)%nat ->
    exists l,
      trace fuel parent (Z.of_nat s) (Z.of_nat v) = Z.of_nat <$> l /\
      walk_list capacity flow n s l v /\ length l = S d.
Proof.
  intros HT. pose proof (bt_len_v HT) as Hlen.
  induction d as [|d IH]; intros v fuel Hv Hd Hfuel;
    (destruct fuel as [|fuel]; [lia|]); cbn [trace].
  - assert (v = s) as ->.
    { destruct (decide (v = s)) as [|Hne]; [done|].
      destruct (bt_tree HT v Hv Hne) as (u & _ & _ & _ & Hdv).
      lia. }
    rewrite bool_decide_eq_true_2 by done. exists [s].
    split; [done|]. split; [|done]. constructor. by eapply visited_lt.
  - assert (Hvs : v <> s).
    { intros ->. rewrite (bt_src_depth HT) in Hd. lia. }
    rewrite bool_decide_eq_false_2 by lia.
    destruct (bt_tree HT v Hv Hvs) as (u & Hp & Hu & Hr & Hdv).
    rewrite (getitem_nat _ _ _ Hp).
    destruct (IH u fuel Hu ltac:(lia) ltac:(lia)) as (l & Htr & Hwl & Hll).
    exists (l ++ [v]). rewrite Htr, fmap_app. split; [done|]. split.
    + econstructor; [done| |done]. by eapply visited_lt.
    + rewrite length_app. simpl. lia.
Qed.

Lemma walk_list_rpath capacity flow n s l y :
  walk_list capacity flow n s l y ->
  rpath capacity flow n s (length l - 1) y.
Proof.
  induction 1 as [|l y z Hw IH Hz Hr]; simpl; [by constructor|].
  rewrite length_app. simpl.
  assert (Hl : (0 < length l)%nat).
  { destruct Hw; [simpl; lia|]. rewrite length_app. simpl. lia. }
  replace (length l + 1 - 1)%nat with (S (length l - 1)) by lia.
  by econstructor.
Qed.

Lemma closed_rpath capacity flow n s sink visited k y :
  bfs_closed capacity flow n s sink visited ->
  rpath capacity flow n s k y -> visited !! y = Some true.
Proof.
  intros HC. induction 1 as [|k y z _ IH Hz Hr]; [apply HC|].
  by apply (bc_closed HC y z).
Qed.

(** ** The least cut by enumeration *)

Lemma subsets_complete n (S : list bool) : length S = n -> S ∈ subsets n.
Proof.
  revert S. induction n as [|n IH]; intros [|b S] Hlen; simpl in *;
    try done.
  - by apply list_elem_of_singleton.
  - apply elem_of_app. destruct b; [left|right];
      apply list_elem_of_fmap; exists S; (split; [done|apply IH; lia]).
Qed.

Lemma ext_le_antisym a b : ext_le a b = true -> ext_le b a = true -> a = b.
Proof.
  destruct a, b; simpl; try done.
  intros H1%bool_decide_eq_true_1 H2%bool_decide_eq_true_1. f_equal. lia.
Qed.

Lemma ext_le_total a b : ext_le a b = false -> ext_le b a = true.
Proof.
  destruct a, b; simpl; try done.
  intros H%bool_decide_eq_false_1. apply bool_decide_eq_true_2. lia.
Qed.

Lemma foldr_ext_min_lower m (l : list ext) :
  (forall x, x ∈ l -> ext_le m x = true) ->
  ext_le m (foldr ext_min Infty l) = true.
Proof.
  induction l as [|x l IH]; intros H; cbn [foldr]; [by destruct m|].
  unfold ext_min at 1. destruct (ext_le x (foldr ext_min Infty l)).
  - apply H. by left.
  - apply IH. intros y Hy. apply H. by right.
Qed.

Lemma foldr_ext_min_upper m (l : list ext) :
  m ∈ l -> ext_le (foldr ext_min Infty l) m = true.
Proof.
  induction l as [|x l IH]; intros Hin; [by apply elem_of_nil in Hin|].
  cbn [foldr]. unfold ext_min at 1.
  destruct (ext_le x (foldr ext_min Infty l)) eqn:Hx.
  - apply elem_of_cons in Hin as [->|Hin]; [apply ext_le_refl|].
    eapply ext_le_trans; [done|]. by apply IH.
  - apply elem_of_cons in Hin as [->|Hin]; [by apply ext_le_total|].
    by apply IH.
Qed.

Lemma min_cut_char n capacity s t S m :
  is_cut n s t S = true -> cut_capacity n capacity S = m ->
  (forall S', is_cut n s t S' = true ->
     ext_le m (cut_capacity n capacity S') = true) ->
  min_cut n capacity s t = m.
Proof.
  intros Hcut Hm Hall. unfold min_cut. apply ext_le_antisym.
  - apply foldr_ext_min_upper. apply list_elem_of_fmap. exists S.
    split; [done|]. apply list_elem_of_filter. split; [done|].
    apply subsets_complete. by destruct (is_cut_spec _ _ _ _ Hcut).
  - apply foldr_ext_min_lower. intros x Hx.
    apply list_elem_of_fmap in Hx as (S' & -> & HS').
    apply list_elem_of_filter in HS' as [HS' _]. by apply Hall.
Qed.

Lemma bounded_network_spec n capacity s t side :
  bounded_network n capacity s t side = true ->
  valid_capacity n capacity = true /\ (s < n)%nat /\ (t < n)%nat /\
  is_cut n s t side = true /\
  exists c, cut_capacity n capacity side = Fin c /\ c < DBL_OVERFLOW.
Proof.
  unfold bounded_network.
  intros [[[[H1 H2]%andb_true_iff H3]%andb_true_iff H4]%andb_true_iff H5]
    %andb_true_iff.
  apply bool_decide_eq_true_1 in H2, H3.
  destruct (cut_capacity n capacity side) as [c|]; [|done].
  apply bool_decide_eq_true_1 in H5. repeat (split; [done|]). by exists c.
Qed.

(** ** The engine on a bounded network *)

Lemma int_matrix_of n (flow : matrix) :
  square n flow = true ->
  (forall i j, (i < n)%nat -> (j < n)%nat -> at2 flow i j = Int (fl flow i j)) ->
  int_matrix flow = true.
Proof.
  intros Hsq Hint. unfold int_matrix.
  apply forallb_forall. intros row Hrow%list_elem_of_In.
  apply list_elem_of_lookup in Hrow as [i Hi].
  assert (Hin : (i < n)%nat).
  { rewrite <- (square_length _ _ Hsq). by eapply lookup_lt_Some. }
  destruct (square_row n flow i Hsq Hin) as [Hrow Hlen].
  rewrite Hi in Hrow. injection Hrow as ->.
  apply forallb_forall. intros x Hx%list_elem_of_In.
  apply list_elem_of_lookup in Hx as [j Hj].
  assert (Hjn : (j < n)%nat).
  { rewrite <- Hlen. by eapply lookup_lt_Some. }
  pose proof (square_entry n flow i j Hsq Hin Hjn) as Hcell.
  rewrite Hj in Hcell. injection Hcell as ->. by rewrite Hint.
Qed.

Lemma engine_spec n capacity s t side fuel :
  bounded_network n capacity s t side = true ->
  (budget n capacity side <= fuel)%nat ->
  exists mf flow visited,
    edmonds_karp fuel capacity (Z.of_nat s) (Z.of_nat t) = Ok (Int mf, flow) /\
    flow_inv capacity n s t flow mf /\
    bfs_closed capacity flow n s (Z.of_nat t) visited /\
    mf < DBL_OVERFLOW.
Proof.
  intros (Hcap & Hs & Ht & Hcut & c & Hc & Hdbl)%bounded_network_spec Hfuel.
  unfold budget in Hfuel. rewrite Hc in Hfuel. simpl in Hfuel.
  destruct (ek_loop_spec capacity n s t side c Hcap Hs Ht Hcut Hc Hdbl
              fuel fuel (ek_init capacity) 0
              (ek_init_inv capacity n s t Hcap Hs) ltac:(lia) ltac:(lia))
    as (mf & F & visited & Hrun & HF & Hcl).
  exists mf, F, visited. repeat (split; [done|]).
  pose proof (value_le_cut _ _ _ _ _ _ HF Hs side c Hcut Hc). lia.
Qed.

Lemma reach_inv n capacity s t side gas st :
  bounded_network n capacity s t side = true ->
  ek_reach gas capacity (Z.of_nat s) (Z.of_nat t) st ->
  exists value, ek_inv capacity n s t st value.
Proof.
  intros (Hcap & Hs & Ht & Hcut & c & Hc & Hdbl)%bounded_network_spec Hreach.
  apply (ek_reach_inv capacity n s t side c Hcap Hs Ht Hcut Hc Hdbl
           (Nat.max gas (S n))); [lia|].
  eapply ek_reach_mono; [done|lia].
Qed.

(** The matrix the loop returns is the flow of the last state it passed
    through. *)
Lemma ek_loop_reach gas capacity source sink : forall fuel st mf flow,
  ek_reach gas capacity source sink st ->
  ek_loop fuel gas capacity source sink st = Ok (mf, flow) ->
  exists st', ek_reach gas capacity source sink st' /\
    ek_flow st' = flow /\ ek_max_flow st' = mf.
Proof.
  induction fuel as [|fuel IH]; intros st mf flow Hreach H; [done|].
  cbn [ek_loop] in H. bind_inv H. destruct a as [st'|].
  - apply (IH st'); [|done]. by eapply ek_reach_step.
  - injection H as <- <-. by exists st.
Qed.

(** ** Properties of the computed flow *)

(** C1. On a bounded network the value returned by [edmonds_karp] is the
    least capacity among all cuts that separate the source from the
    sink. *)
Theorem max_flow_min_cut n capacity s t side fuel :
  bounded_network n capacity s t side = true ->
  (budget n capacity side <= fuel)%nat ->
  exists mf flow,
    edmonds_karp fuel capacity (Z.of_nat s) (Z.of_nat t) = Ok (Int mf, flow) /\
    min_cut n capacity s t = Fin mf.
Proof.
  intros Hnet Hfuel.
  destruct (engine_spec n capacity s t side fuel Hnet Hfuel)
    as (mf & flow & visited & Hrun & HF & Hcl & Hmf).
  apply bounded_network_spec in Hnet
    as (Hcap & Hs & Ht & Hcut & c & Hc & Hdbl).
  exists mf, flow. split; [done|].
  destruct (closed_cut capacity n s t side Hcap Hs Ht Hcut flow mf visited
              HF Hmf Hcl) as [Hcutv Hcapv].
  apply (min_cut_char n capacity s t visited (Fin mf) Hcutv Hcapv).
  intros S' HS'. destruct (cut_capacity n capacity S') as [c'|] eqn:Hc';
    [|done].
  simpl. apply bool_decide_eq_true_2.
  by eapply (value_le_cut capacity n s t flow mf HF Hs S').
Qed.

Lemma max_flow_min_cut_witness :
  exists mf flow,
    edmonds_karp 200 capacity_matrix (Z.of_nat 20) (Z.of_nat 21)
      = Ok (Int mf, flow) /\
    min_cut 22 capacity_matrix 20 21 = Fin mf.
Proof.
  apply (max_flow_min_cut 22 capacity_matrix 20 21 terminal_side 200).
  - vm_compute. reflexivity.
  - vm_compute. lia.
Defined.

(** C2. On a bounded network the outer loop takes finitely many turns:
    the number of augmentations never exceeds the capacity of the finite
    cut, and with any budget from [budget] on [edmonds_karp] returns, and
    returns the same result. *)
Theorem edmonds_karp_terminates n capacity s t side :
  bounded_network n capacity s t side = true ->
  (exists result, forall fuel,
     (budget n capacity side <= fuel)%nat ->
     edmonds_karp fuel capacity (Z.of_nat s) (Z.of_nat t) = Ok result) /\
  (forall gas k st,
     ek_after gas capacity (Z.of_nat s) (Z.of_nat t) k st ->
     Z.of_nat k <= fin_val (cut_capacity n capacity side)).
Proof.
  intros Hnet. split.
  - destruct (engine_spec n capacity s t side (budget n capacity side) Hnet
                ltac:(lia)) as (mf & flow & visited & Hrun & _).
    exists (Int mf, flow). intros fuel Hfuel. unfold edmonds_karp in *.
    by eapply ek_loop_mono.
  - intros gas k st Hafter.
    apply bounded_network_spec in Hnet
      as (Hcap & Hs & Ht & Hcut & c & Hc & Hdbl).
    destruct (ek_after_inv capacity n s t side c Hcap Hs Ht Hcut Hc Hdbl
                (Nat.max gas (S n)) k st ltac:(lia))
      as (value & HI & Hk).
    { eapply ek_after_mono; [done|lia]. }
    rewrite Hc. simpl.
    pose proof (value_le_cut _ _ _ _ _ _ (ei_flow HI) Hs side c Hcut Hc).
    lia.
Qed.

Lemma edmonds_karp_terminates_witness :
  (exists result, forall fuel,
     (budget 22 capacity_matrix terminal_side <= fuel)%nat ->
     edmonds_karp fuel capacity_matrix (Z.of_nat 20) (Z.of_nat 21)
       = Ok result) /\
  (forall gas k st,
     ek_after gas capacity_matrix (Z.of_nat 20) (Z.of_nat 21) k st ->
     Z.of_nat k <= fin_val (cut_capacity 22 capacity_matrix terminal_side)).
Proof.
  apply (edmonds_karp_terminates 22 capacity_matrix 20 21 terminal_side).
  vm_compute. reflexivity.
Defined.

Lemma col_sum_skew n capacity s t flow value v :
  flow_inv capacity n s t flow value -> (v < n)%nat ->
  col_sum n flow v = - row_sum n flow v.
Proof.
  intros HF Hv. unfold col_sum, row_sum. rewrite <- sumZ_opp.
  apply sumZ_ext. intros i Hi. by apply (fi_skew HF).
Qed.

(** C3. After the engine completes, at every node other than the source
    and the sink the sum of [flow[*][node]] equals the sum of
    [flow[node][*]], both being zero; all entries are ints. *)
Theorem flow_conservation n capacity s t side fuel :
  bounded_network n capacity s t side = true ->
  (budget n capacity side <= fuel)%nat ->
  exists mf flow,
    edmonds_karp fuel capacity (Z.of_nat s) (Z.of_nat t) = Ok (mf, flow) /\
    int_matrix flow = true /\
    forall v, (v < n)%nat -> v <> s -> v <> t ->
      col_sum n flow v = row_sum n flow v /\ row_sum n flow v = 0.
Proof.
  intros Hnet Hfuel.
  destruct (engine_spec n capacity s t side fuel Hnet Hfuel)
    as (mf & flow & visited & Hrun & HF & _).
  exists (Int mf), flow. split; [done|]. split.
  - apply (int_matrix_of n); apply HF.
  - intros v Hv Hvs Hvt.
    rewrite (col_sum_skew _ _ _ _ _ _ _ HF Hv).
    rewrite (fi_cons HF v Hv Hvs Hvt). done.
Qed.

Lemma flow_conservation_witness :
  exists mf flow,
    edmonds_karp 200 capacity_matrix (Z.of_nat 20) (Z.of_nat 21)
      = Ok (mf, flow) /\
    int_matrix flow = true /\
    forall v, (v < 22)%nat -> v <> 20%nat -> v <> 21%nat ->
      col_sum 22 flow v = row_sum 22 flow v /\ row_sum 22 flow v = 0.
Proof.
  apply (flow_conservation 22 capacity_matrix 20 21 terminal_side 200).
  - vm_compute. reflexivity.
  - vm_compute. lia.
Defined.

Lemma observed_inv n capacity s t side flow :
  bounded_network n capacity s t side = true ->
  ek_observed capacity (Z.of_nat s) (Z.of_nat t) flow ->
  exists value, flow_inv capacity n s t flow value.
Proof.
  intros Hnet [gas st Hreach|fuel mf F Hrun].
  - destruct (reach_inv n capacity s t side gas st Hnet Hreach) as [v HI].
    exists v. apply HI.
  - unfold edmonds_karp in Hrun.
    destruct (ek_loop_reach fuel capacity (Z.of_nat s) (Z.of_nat t) fuel
                (ek_init capacity) mf F (ek_reach_init _ _ _ _) Hrun)
      as (st & Hreach & <- & _).
    destruct (reach_inv n capacity s t side fuel st Hnet Hreach) as [v HI].
    exists v. apply HI.
Qed.

(** C4. Every flow matrix the engine holds after an augmentation, and
    the one it returns, satisfies [flow[i][j] == -flow[j][i]] for all
    index pairs. *)
Theorem skew_symmetry_every_step n capacity s t side flow :
  bounded_network n capacity s t side = true ->
  ek_observed capacity (Z.of_nat s) (Z.of_nat t) flow ->
  skew_symmetric n flow.
Proof.
  intros Hnet Hobs.
  destruct (observed_inv n capacity s t side flow Hnet Hobs) as [v HF].
  intros i j Hi Hj. exists (fl flow i j). split.
  - by apply (fi_int HF).
  - rewrite (fi_int HF j i Hj Hi). f_equal.
    by apply (fi_skew HF).
Qed.

Lemma skew_symmetry_every_step_witness :
  exists st,
    ek_step 30 capacity_matrix (Z.of_nat 20) (Z.of_nat 21)
      (ek_init capacity_matrix) = Ok (Some st) /\
    skew_symmetric 22 (ek_flow st).
Proof.
  eexists. split; [vm_compute; reflexivity|].
  apply (skew_symmetry_every_step 22 capacity_matrix 20 21 terminal_side).
  - vm_compute. reflexivity.
  - apply (obs_state _ _ _ 30%nat).
    eapply ek_reach_step; [apply ek_reach_init|].
    vm_compute. reflexivity.
Defined.

(** C5. In every flow matrix the engine holds after an augmentation, and
    in the one it returns, [flow[i][j] <= capacity[i][j]] on every edge of
    finite capacity and [flow[i][j] >= -capacity[j][i]] whenever the
    reverse capacity is finite. *)
Theorem capacity_respected_every_step n capacity s t side flow :
  bounded_network n capacity s t side = true ->
  ek_observed capacity (Z.of_nat s) (Z.of_nat t) flow ->
  within_capacity n capacity flow.
Proof.
  intros Hnet Hobs.
  destruct (observed_inv n capacity s t side flow Hnet Hobs) as [v HF].
  intros i j Hi Hj. exists (fl flow i j).
  split; [by apply (fi_int HF)|]. split.
  - intros c Hc. by apply (fi_cap HF i j).
  - intros c Hc. rewrite (fi_skew HF i j Hi Hj).
    pose proof (fi_cap HF j i c Hj Hi Hc). lia.
Qed.

Lemma capacity_respected_every_step_witness :
  exists mf flow,
    edmonds_karp 200 capacity_matrix (Z.of_nat 20) (Z.of_nat 21)
      = Ok (mf, flow) /\
    within_capacity 22 capacity_matrix flow.
Proof.
  eexists _, _. split; [vm_compute; reflexivity|].
  apply (capacity_respected_every_step 22 capacity_matrix 20 21 terminal_side).
  - vm_compute. reflexivity.
  - apply (obs_final _ _ _ 200%nat (Int 115)). vm_compute. reflexivity.
Defined.

(** With an infinite edge straight from source to sink all finite entries
    are ints, yet the bottleneck is [inf]: the value returned and the flow
    on that edge are floats. *)
Lemma infinite_path_not_integral :
  exists mf flow,
    edmonds_karp 5 [[Int 0; inf]; [Int 0; Int 0]] 0 1 = Ok (mf, flow) /\
    mf = Flt PInf /\ is_int mf = false /\ int_matrix flow = false.
Proof.
  exists (Flt PInf), [[Int 0; Flt PInf]; [Flt NInf; Int 0]].
  vm_compute. done.
Qed.

(** C10. On a bounded network, that is, one of non-negative ints and
    infinities in which some cut between source and sink has finite
    capacity, the engine returns an int as [max_flow] and a flow matrix
    of [n] rows of [n] ints. *)
Theorem integral_flow n capacity s t side fuel :
  bounded_network n capacity s t side = true ->
  (budget n capacity side <= fuel)%nat ->
  exists mf flow,
    edmonds_karp fuel capacity (Z.of_nat s) (Z.of_nat t) = Ok (Int mf, flow) /\
    square n flow = true /\ int_matrix flow = true.
Proof.
  intros Hnet Hfuel.
  destruct (engine_spec n capacity s t side fuel Hnet Hfuel)
    as (mf & flow & visited & Hrun & HF & _).
  exists mf, flow. split; [done|]. split; [apply HF|].
  apply (int_matrix_of n); apply HF.
Qed.

Lemma integral_flow_witness :
  exists mf flow,
    edmonds_karp 200 capacity_matrix (Z.of_nat 20) (Z.of_nat 21)
      = Ok (Int mf, flow) /\
    square 22 flow = true /\ int_matrix flow = true.
Proof.
  apply (integral_flow 22 capacity_matrix 20 21 terminal_side 200).
  - vm_compute. reflexivity.
  - vm_compute. lia.
Defined.

(** ** The search as a whole *)

Lemma sub_ok_spec n capacity flow :
  sub_ok n capacity flow = true ->
  forall i j, (i < n)%nat -> (j < n)%nat ->
    exists r, num_sub (at2 capacity i j) (at2 flow i j) = Ok r.
Proof.
  unfold sub_ok. intros H i j Hi Hj.
  rewrite forallb_forall in H. specialize (H i).
  rewrite forallb_forall in H.
  specialize (H ltac:(apply in_seq; lia) j ltac:(apply in_seq; lia)).
  destruct (num_sub (at2 capacity i j) (at2 flow i j)); [by eexists|done..].
Qed.

(** ** What the search writes *)

Lemma marks_next n s sink parent0 visited parent u q k :
  bfs_marks n s sink parent0 visited parent u q k ->
  bfs_marks n s sink parent0 visited parent u q (S k).
Proof.
  intros HM. split; try apply HM.
  intros v Hv. destruct (bm_written HM v Hv)
    as (Hvis & Hne & p & Hp & Hpv & Hpq & Hps & Hpu).
  split; [done|]. split; [done|]. exists p. repeat (split; [done|]).
  intros Heq. specialize (Hpu Heq). lia.
Qed.

Lemma marks_pop n s sink parent0 visited parent u u' q k :
  bfs_marks n s sink parent0 visited parent u (u' :: q) k ->
  bfs_marks n s sink parent0 visited parent u' q 0.
Proof.
  intros HM. split; try apply HM.
  - intros x Hx. apply (bm_queue HM). by right.
  - pose proof (bm_nodup HM) as Hnd. by apply NoDup_cons in Hnd as [_ ?].
  - intros v Hv. destruct (bm_written HM v Hv)
      as (Hvis & Hne & p & Hp & Hpv & Hpq & Hps & Hpu).
    split; [done|]. split; [done|]. exists p. repeat (split; [done|]).
    apply not_elem_of_cons in Hpq as [Hpu' Hpq].
    split; [done|]. split; [done|]. done.
Qed.

Lemma marks_init n s sink parent0 :
  length parent0 = n -> (s < n)%nat -> Z.of_nat s <> sink ->
  bfs_marks n s sink parent0 (<[s:=true]> (replicate n false)) parent0 s [] 0.
Proof.
  intros Hlen Hs Hne.
  assert (Hsrc : <[s:=true]> (replicate n false) !! s = Some true).
  { apply list_lookup_insert_eq. by rewrite length_replicate. }
  split; try done.
  - by rewrite length_insert, length_replicate.
  - intros x Hx. apply list_elem_of_singleton in Hx as ->. done.
  - apply NoDup_singleton.
Qed.

(** Marking [k], found from [u], and putting it on the queue. *)
Lemma marks_visit n s sink parent0 visited parent u q k :
  bfs_marks n s sink parent0 visited parent u q k ->
  visited !! k = Some false -> Z.of_nat k <> sink ->
  bfs_marks n s sink parent0 (<[k:=true]> visited) (<[k:=Z.of_nat u]> parent)
    u (q ++ [k]) (S k).
Proof.
  intros HM Hk Hsink.
  assert (Hkn : (k < n)%nat).
  { rewrite <- (bm_len_v HM). by eapply lookup_lt_Some. }
  assert (Hkeep : forall x, visited !! x = Some true ->
    <[k:=true]> visited !! x = Some true).
  { intros x Hx. rewrite list_lookup_insert_ne; [done|]. congruence. }
  assert (Hu : visited !! u = Some true) by (apply (bm_queue HM); left).
  assert (Hout : k ∉ u :: q).
  { intros Hin. destruct (bm_queue HM k Hin). congruence. }
  split.
  - rewrite length_insert. apply HM.
  - rewrite length_insert. apply HM.
  - apply Hkeep, HM.
  - intros x Hx. rewrite app_comm_cons in Hx.
    apply elem_of_app in Hx as [Hx|Hx].
    + destruct (bm_queue HM x Hx). split; [by apply Hkeep|done].
    + apply list_elem_of_singleton in Hx as ->. split; [|done].
      apply list_lookup_insert_eq. rewrite (bm_len_v HM). done.
  - rewrite app_comm_cons. apply NoDup_app. split; [apply HM|].
    split; [|apply NoDup_singleton].
    intros x Hx Hx'. apply list_elem_of_singleton in Hx' as ->. done.
  - intros v Hv. destruct (decide (v = k)) as [->|Hvk].
    + split.
      { apply list_lookup_insert_eq. rewrite (bm_len_v HM). done. }
      split.
      { intros ->. pose proof (bm_src HM). congruence. }
      exists u. split.
      { apply list_lookup_insert_eq. rewrite (bm_len_p HM). done. }
      split; [by apply Hkeep|]. split.
      { intros Hin. apply elem_of_app in Hin as [Hin|Hin].
        - pose proof (bm_nodup HM) as Hnd.
          by apply NoDup_cons in Hnd as [? _].
        - apply list_elem_of_singleton in Hin as ->. congruence. }
      split; [apply (bm_queue HM); left|]. lia.
    + rewrite list_lookup_insert_ne in Hv by done.
      destruct (bm_written HM v Hv)
        as (Hvis & Hne & p & Hp & Hpv & Hpq & Hps & Hpu).
      split; [by apply Hkeep|]. split; [done|]. exists p.
      rewrite list_lookup_insert_ne by done.
      split; [done|]. split; [by apply Hkeep|]. split.
      { intros Hin. apply elem_of_app in Hin as [Hin|Hin]; [done|].
        apply list_elem_of_singleton in Hin as ->. congruence. }
      split; [done|]. intros Heq. specialize (Hpu Heq). lia.
Qed.

(** Marking the sink, found from [u]: the search returns. *)
Lemma marks_stop n s sink parent0 visited parent u q t :
  bfs_marks n s sink parent0 visited parent u q t ->
  visited !! t = Some false -> Z.of_nat t = sink ->
  bfs_stopped s t parent0 (<[t:=true]> visited) (<[t:=Z.of_nat u]> parent).
Proof.
  intros HM Ht Hsink.
  assert (Htn : (t < n)%nat).
  { rewrite <- (bm_len_v HM). by eapply lookup_lt_Some. }
  assert (Hus : Z.of_nat u <> sink) by (apply (bm_queue HM); left).
  assert (Hpt : <[t:=Z.of_nat u]> parent !! t = Some (Z.of_nat u)).
  { apply list_lookup_insert_eq. rewrite (bm_len_p HM). done. }
  split.
  - intros v Hv. destruct (decide (v = t)) as [->|Hvt].
    + split.
      * apply list_lookup_insert_eq. rewrite (bm_len_v HM). done.
      * intros ->. pose proof (bm_src HM). congruence.
    + rewrite list_lookup_insert_ne in Hv by done.
      destruct (bm_written HM v Hv) as (Hvis & Hne & _).
      split; [|done]. rewrite list_lookup_insert_ne; [done|]. congruence.
  - intros v Hv.
    destruct (decide (<[t:=Z.of_nat u]> parent !! v = parent0 !! v))
      as [<-|Hch]; [done|].
    exfalso. destruct (decide (v = t)) as [->|Hvt].
    + rewrite Hpt in Hv. injection Hv as Hv. lia.
    + rewrite list_lookup_insert_ne in Hv, Hch by done.
      destruct (bm_written HM v Hch) as (_ & _ & p & Hp & _ & _ & Hps & _).
      rewrite Hp in Hv. injection Hv as Hv. lia.
  - intros v Hv Heq. destruct (decide (v = t)) as [->|Hvt]; [done|].
    rewrite Hpt in Heq. rewrite list_lookup_insert_ne in Hv, Heq by done.
    destruct (bm_written HM v Hv) as (_ & _ & p & Hp & _ & _ & _ & Hpu).
    rewrite Hp in Heq. injection Heq as Heq. apply Nat2Z.inj in Heq.
    specialize (Hpu Heq). lia.
Qed.

(** The loop over the neighbours of [u] keeps the record of what was
    written, and leaves through [return True] only by marking the
    sink. *)
Lemma bfs_for_marks capacity flow n s sink parent0 u :
  square n capacity = true -> square n flow = true ->
  forall m k visited q parent found visited' q' parent',
  (k + m = n)%nat ->
  bfs_marks n s sink parent0 visited parent u q k ->
  bfs_for capacity flow sink (Z.of_nat u) (seqZ (Z.of_nat k) (Z.of_nat m))
    (BfsState visited (Z.of_nat <$> q) parent)
  = Ok (found, BfsState visited' (Z.of_nat <$> q') parent') ->
  if (found : bool)
  then exists t, sink = Z.of_nat t /\ bfs_stopped s t parent0 visited' parent'
  else bfs_marks n s sink parent0 visited' parent' u q' n.
Proof.
  intros Hcap Hflow.
  induction m as [|m IH];
    intros k visited q parent found visited' q' parent' Hkm HM H.
  - simpl in H. injection H as <- <- Hq <-.
    apply (inj (fmap Z.of_nat)) in Hq as <-.
    assert (k = n) as <- by lia. done.
  - rewrite range_step in H. cbn [bfs_for bs_visited bs_queue bs_parent] in H.
    assert (Hun : (u < n)%nat).
    { apply (visited_lt n visited); [apply HM|]. apply (bm_queue HM). left. }
    destruct (lookup_lt_is_Some_2 visited k
                ltac:(rewrite (bm_len_v HM); lia)) as [b Hb].
    rewrite (getitem_nat _ _ _ Hb), bind_ok in H. cbv beta in H.
    destruct b.
    { apply (IH (S k) visited q parent); [lia|by apply marks_next|done]. }
    rewrite (getitem2_nat n capacity u k), bind_ok in H by (done || lia).
    cbv beta in H.
    rewrite (getitem2_nat n flow u k), bind_ok in H by (done || lia).
    cbv beta in H. bind_inv H.
    destruct (num_pos a).
    + rewrite (setitem_nat parent), bind_ok in H
        by (rewrite (bm_len_p HM); lia).
      cbv beta in H.
      rewrite (setitem_nat visited), bind_ok in H
        by (rewrite (bm_len_v HM); lia).
      cbv beta in H. case_bool_decide as Hsink.
      * injection H as <- <- _ <-. exists k. split; [done|].
        by eapply marks_stop.
      * replace ((Z.of_nat <$> q) ++ [Z.of_nat k])
          with (Z.of_nat <$> (q ++ [k])) in H by (by rewrite fmap_app).
        apply (IH (S k) _ _ _ _ _ _ _ ltac:(lia) (marks_visit _ _ _ _ _ _ _ _ _ HM Hb Hsink) H).
    + apply (IH (S k) visited q parent); [lia|by apply marks_next|done].
Qed.

Section SearchMarks.
Variables (capacity flow : matrix) (n s : nat) (sink : Z) (parent0 : list Z).
Hypothesis Hcap : square n capacity = true.
Hypothesis Hflow : square n flow = true.
Hypothesis Hres : forall i j, (i < n)%nat -> (j < n)%nat ->
  exists r, num_sub (at2 capacity i j) (at2 flow i j) = Ok r.

(** The search as a whole, with what it has written. *)
Lemma bfs_while_marks : forall fuel visited q parent depth,
  bfs_inv capacity flow n s sink visited parent q depth ->
  match q with
  | [] => True
  | u :: q' => bfs_marks n s sink parent0 visited parent u q' 0
  end ->
  (unvisited visited + length q < fuel)%nat ->
  length capacity = n ->
  exists found parent',
    bfs_while fuel capacity flow sink
      (BfsState visited (Z.of_nat <$> q) parent) = Ok (found, parent') /\
    if (found : bool)
    then exists visited' depth' t,
      bfs_found capacity flow n s sink visited' parent' depth' t /\
      bfs_stopped s t parent0 visited' parent'
    else exists visited',
      bfs_closed capacity flow n s sink visited' /\ length parent' = n.
Proof.
  induction fuel as [|fuel IH];
    intros visited q parent depth HI HM Hfuel Hn; [lia|].
  cbn [bfs_while bs_queue bs_visited bs_parent].
  destruct q as [|u q]; cbn [fmap list_fmap].
  - exists false, parent. split; [done|]. exists visited.
    split; [by eapply inv_closed|]. apply HI.
  - rewrite Hn. unfold range.
    destruct (bfs_for_spec capacity flow n s sink Hcap Hflow Hres
                u n 0%nat visited q parent depth ltac:(lia) HI ltac:(lia))
      as (found & v2 & q2 & p2 & d2 & Hrun & Hpost).
    change 0 with (Z.of_nat 0).
    pose proof (bfs_for_marks capacity flow n s sink parent0 u Hcap Hflow
                  n 0%nat visited q parent found v2 q2 p2 ltac:(lia) HM Hrun)
      as Hmarks.
    rewrite Hrun; ok_step.
    destruct found.
    + exists true, p2. split; [done|]. destruct Hpost as [t Ht].
      destruct Hmarks as (t' & Ht' & Hstop).
      exists v2, d2, t. split; [done|].
      pose proof (bf_sink Ht) as Heq. rewrite Ht' in Heq.
      apply Nat2Z.inj in Heq. by subst t'.
    + destruct Hpost as (HI2 & Hall & Hme).
      apply (IH v2 q2 p2 d2); [by eapply inv_pop| |simpl in Hfuel; lia|done].
      destruct q2 as [|u' q2]; [done|]. by eapply marks_pop.
Qed.

Lemma bfs_marks_spec fuel :
  length parent0 = n -> (s < n)%nat -> Z.of_nat s <> sink -> (n < fuel)%nat ->
  exists found parent',
    bfs fuel capacity flow (Z.of_nat s) sink parent0 = Ok (found, parent') /\
    if (found : bool)
    then exists visited' depth' t,
      bfs_found capacity flow n s sink visited' parent' depth' t /\
      bfs_stopped s t parent0 visited' parent'
    else exists visited',
      bfs_closed capacity flow n s sink visited' /\ length parent' = n.
Proof.
  intros Hlp Hs Hne Hfuel. unfold bfs.
  pose proof (square_length _ _ Hcap) as Hn. rewrite Hn.
  rewrite setitem_nat by (by rewrite length_replicate); ok_step.
  change [Z.of_nat s] with (Z.of_nat <$> [s]).
  eapply bfs_while_marks; [by apply inv_init|by apply marks_init| |done].
  assert (Hrep : replicate n false !! s = Some false)
    by (by apply lookup_replicate).
  pose proof (unvisited_visit _ _ Hrep) as Hc.
  rewrite unvisited_replicate in Hc. simpl. lia.
Qed.

End SearchMarks.



(** ** Zero and negative capacities *)

(** C7. The builder never looks at the sign of a weight: whatever the
    weight [w] of the edge, zero and negative ints included, it is written
    into the matrix and nothing is raised. *)
Theorem build_accepts_nonpositive_capacity (w : num) :
  build_capacity_matrix [("A", "B", w)] (enumerate ["A"; "B"])
    = Ok [[Int 0; w]; [Int 0; Int 0]].
Proof. vm_compute. reflexivity. Qed.

Example build_zero_capacity :
  build_capacity_matrix [("A", "B", Int 0)] (enumerate ["A"; "B"])
    = Ok [[Int 0; Int 0]; [Int 0; Int 0]].
Proof. vm_compute. reflexivity. Qed.

Example build_negative_capacity :
  build_capacity_matrix [("A", "B", Int (-5))] (enumerate ["A"; "B"])
    = Ok [[Int 0; Int (-5)]; [Int 0; Int 0]].
Proof. vm_compute. reflexivity. Qed.

(** ** Endpoints *)

(** Equal source and sink are not rejected: the engine returns a zero
    flow. *)
Lemma equal_endpoints_accepted :
  edmonds_karp 3 [[Int 0; Int 5]; [Int 0; Int 0]] 0 0
    = Ok (Int 0, [[Int 0; Int 0]; [Int 0; Int 0]]).
Proof. vm_compute. reflexivity. Qed.

Lemma sub_zeros_ok n capacity i j :
  (i < n)%nat -> (j < n)%nat ->
  exists r, num_sub (at2 capacity i j) (at2 (zeros n) i j) = Ok r.
Proof.
  intros Hi Hj. rewrite at2_zeros by done.
  destruct (at2 capacity i j); simpl; by eexists.
Qed.

(** C8. The engine does not validate its endpoints.  With the source in
    range and the sink equal to it or outside [0, n), the first search
    finds no path and the engine returns 0 and the all-zero flow; with
    the source outside [-n, n) the first search raises IndexError. *)
Theorem endpoints_not_validated n capacity fuel :
  square n capacity = true -> (n < fuel)%nat ->
  (forall (s : nat) (sink : Z),
     (s < n)%nat -> sink = Z.of_nat s \/ ~ (0 <= sink < Z.of_nat n) ->
     edmonds_karp fuel capacity (Z.of_nat s) sink = Ok (Int 0, zeros n)) /\
  (forall source sink : Z,
     ~ (- Z.of_nat n <= source < Z.of_nat n) ->
     edmonds_karp fuel capacity source sink = Raise IndexError).
Proof.
  intros Hsq Hfuel. pose proof (square_length _ _ Hsq) as Hlen.
  destruct fuel as [|fuel']; [lia|]. split.
  - intros s sink Hs Hsink.
    destruct (bfs_spec capacity (zeros n) n s sink Hsq (square_zeros n)
                (sub_zeros_ok n capacity) (S fuel') (replicate n (-1))
                (length_replicate _ _) Hs Hfuel)
      as (found & parent' & Hrun & Hpost).
    unfold edmonds_karp, ek_init. cbn [ek_loop]. unfold ek_step.
    cbn [ek_flow ek_parent ek_max_flow]. rewrite Hlen, Hrun; ok_step.
    cbn beta iota. destruct found; [|done].
    exfalso. destruct Hpost as (visited & depth & t & HFound).
    pose proof (bf_sink HFound) as Heq.
    pose proof (bf_ne HFound) as Hne.
    pose proof (bf_visited HFound) as Hvt.
    pose proof (visited_lt n visited t
                  (bt_len_v (bf_tree HFound)) Hvt).
    destruct Hsink as [Hsink|Hsink]; lia.
  - intros source sink Hsource.
    unfold edmonds_karp, ek_init. cbn [ek_loop]. unfold ek_step, bfs.
    cbn [ek_flow ek_parent ek_max_flow]. rewrite Hlen.
    unfold setitem, py_index. rewrite length_replicate.
    rewrite !bool_decide_eq_false_2 by lia. done.
Qed.

Lemma endpoints_not_validated_witness :
  (forall (s : nat) (sink : Z),
     (s < 22)%nat -> sink = Z.of_nat s \/ ~ (0 <= sink < Z.of_nat 22) ->
     edmonds_karp 23 capacity_matrix (Z.of_nat s) sink
       = Ok (Int 0, zeros 22)) /\
  (forall source sink : Z,
     ~ (- Z.of_nat 22 <= source < Z.of_nat 22) ->
     edmonds_karp 23 capacity_matrix source sink = Raise IndexError).
Proof.
  apply (endpoints_not_validated 22 capacity_matrix 23).
  - vm_compute. reflexivity.
  - lia.
Defined.

(** ** The flow table *)

Lemma int_matrix_entry n (flow : matrix) i j :
  square n flow = true -> int_matrix flow = true ->
  (i < n)%nat -> (j < n)%nat -> at2 flow i j = Int (fl flow i j).
Proof.
  intros Hsq Hint Hi Hj.
  destruct (square_row n flow i Hsq Hi) as [Hrow _].
  pose proof (square_entry n flow i j Hsq Hi Hj) as Hcell.
  unfold int_matrix in Hint. rewrite forallb_forall in Hint.
  specialize (Hint (flow !!! i)).
  rewrite forallb_forall in Hint.
  specialize (Hint ltac:(apply list_elem_of_In; by eapply list_elem_of_lookup_2)
                (at2 flow i j)
                ltac:(apply list_elem_of_In; by eapply list_elem_of_lookup_2)).
  unfold fl. by destruct (at2 flow i j).
Qed.

Lemma lookup_node_ok n (node_indices : gmap string Z) names name :
  names_ok n node_indices names = true -> name ∈ names ->
  lookup_node node_indices name = Ok (Z.of_nat (index_of node_indices name)) /\
  (index_of node_indices name < n)%nat.
Proof.
  unfold names_ok. intros H Hin%list_elem_of_In.
  rewrite forallb_forall in H. specialize (H name Hin).
  unfold lookup_node, index_of.
  destruct (node_indices !! name) as [i|]; [|done].
  apply bool_decide_eq_true_1 in H. split; [|lia].
  f_equal. lia.
Qed.

Section Table.
Variables (n : nat) (flow : matrix) (node_indices : gmap string Z).
Hypothesis Hsq : square n flow = true.
Hypothesis Hint : int_matrix flow = true.

#[local] Abbreviation idx := (index_of node_indices).

Lemma warehouse_loop_spec e x : forall ws total,
  (e < n)%nat -> (x < n)%nat -> names_ok n node_indices ws = true ->
  warehouse_loop flow node_indices (Z.of_nat e) (Z.of_nat x) ws (Int total)
  = Ok (Int (total + attributed (fl flow) e x (idx <$> ws))).
Proof.
  induction ws as [|w ws IH]; intros total He Hx Hws;
    cbn [warehouse_loop fmap list_fmap attributed].
  - f_equal. f_equal. lia.
  - destruct (lookup_node_ok n node_indices (w :: ws) w Hws ltac:(left))
      as [Hw Hwn].
    assert (Hws' : names_ok n node_indices ws = true).
    { unfold names_ok in *. simpl in Hws. by apply andb_true_iff in Hws as [_ ?]. }
    rewrite Hw; ok_step.
    rewrite (getitem2_nat n flow (idx w) x) by done; ok_step.
    rewrite (getitem2_nat n flow e (idx w)) by done.
    rewrite (int_matrix_entry n flow (idx w) x) by done.
    rewrite (int_matrix_entry n flow e (idx w)) by done.
    set (a := fl flow (idx w) x). set (b := fl flow e (idx w)).
    unfold num_pos. cbn [num_lt].
    destruct (0 <? a) eqn:Ha.
    + rewrite bind_ok. cbv beta. cbn [num_lt].
      destruct (0 <? b) eqn:Hb.
      * rewrite !bind_ok. cbv beta. unfold py_min. cbn [num_lt].
        apply Z.ltb_lt in Ha, Hb.
        destruct (b <? a) eqn:Hba; cbn [num_add]; rewrite bind_ok; cbv beta;
          rewrite IH by done; f_equal; f_equal;
          rewrite bool_decide_eq_true_2 by lia; lia.
      * rewrite IH by done. f_equal. f_equal.
        apply Z.ltb_ge in Hb. rewrite bool_decide_eq_false_2 by lia. lia.
    + rewrite IH by done. f_equal. f_equal.
      apply Z.ltb_ge in Ha. rewrite bool_decide_eq_false_2 by lia. lia.
Qed.

Lemma store_loop_spec term e ws : forall ks out,
  (e < n)%nat -> names_ok n node_indices ws = true ->
  names_ok n node_indices (store_name <$> ks) = true ->
  store_loop flow node_indices term (Z.of_nat e) ws ks out
  = (out ++ (store_num ← ks;
       let a := attributed (fl flow) e (idx (store_name store_num))
                  (idx <$> ws) in
       if bool_decide (0 < a) then [(term, store_name store_num, Int a)]
       else []), Ok tt).
Proof.
  induction ks as [|k ks IH]; intros out He Hws Hks; cbn [store_loop].
  - by rewrite app_nil_r.
  - destruct (lookup_node_ok n node_indices (store_name <$> k :: ks)
                (store_name k) Hks ltac:(left)) as [Hk Hkn].
    assert (Hks' : names_ok n node_indices (store_name <$> ks) = true).
    { unfold names_ok in *. simpl in Hks. by apply andb_true_iff in Hks as [_ ?]. }
    rewrite Hk; ok_step.
    rewrite (warehouse_loop_spec e (idx (store_name k)) ws 0) by done.
    cbn zeta. rewrite IH by done. f_equal.
    cbn [mbind list_bind]. rewrite Z.add_0_l.
    unfold num_pos. cbn [num_lt].
    set (a := attributed (fl flow) e (idx (store_name k)) (idx <$> ws)).
    destruct (0 <? a) eqn:Ha.
    + apply Z.ltb_lt in Ha. rewrite bool_decide_eq_true_2 by done.
      by rewrite <- app_assoc.
    + apply Z.ltb_ge in Ha. rewrite bool_decide_eq_false_2 by lia. done.
Qed.

Lemma terminal_loop_spec ws ks : forall ts out,
  names_ok n node_indices ts = true -> names_ok n node_indices ws = true ->
  names_ok n node_indices (store_name <$> ks) = true ->
  terminal_loop flow node_indices ts ws ks out
  = (out ++ decompose flow node_indices ts ws ks, Ok tt).
Proof.
  induction ts as [|term ts IH]; intros out Hts Hws Hks; cbn [terminal_loop].
  - by rewrite app_nil_r.
  - destruct (lookup_node_ok n node_indices (term :: ts) term Hts ltac:(left))
      as [Hterm Htn].
    assert (Hts' : names_ok n node_indices ts = true).
    { unfold names_ok in *. simpl in Hts. by apply andb_true_iff in Hts as [_ ?]. }
    rewrite Hterm, store_loop_spec by done.
    rewrite IH by done. f_equal.
    unfold decompose. cbn [mbind list_bind]. by rewrite <- app_assoc.
Qed.

End Table.

(** C9. For an [n] by [n] flow matrix of ints and names that all have an
    index below [n], the call completes and the table printed is the one
    the specification describes: per (terminal, store) pair the sum over
    the warehouses of the strictly positive
    [min(flow[terminal][w], flow[w][store])], and a line exactly for the
    pairs where that sum is strictly positive. *)
Theorem print_flow_table_decomposes n flow node_indices terminals warehouses
    store_range :
  square n flow = true -> int_matrix flow = true ->
  names_ok n node_indices terminals = true ->
  names_ok n node_indices warehouses = true ->
  names_ok n node_indices (store_name <$> store_range) = true ->
  print_flow_table flow node_indices terminals warehouses store_range
  = (decompose flow node_indices terminals warehouses store_range, Ok tt).
Proof.
  intros Hsq Hint Hts Hws Hks. unfold print_flow_table.
  by rewrite (terminal_loop_spec n).
Qed.

Lemma print_flow_table_decomposes_witness :
  print_flow_table logistics_flow node_indices terminals warehouses (seqZ 1 14)
  = (decompose logistics_flow node_indices terminals warehouses (seqZ 1 14),
     Ok tt).
Proof.
  apply (print_flow_table_decomposes 22 logistics_flow node_indices
           terminals warehouses (seqZ 1 14)); vm_compute; reflexivity.
Defined.

(** ** The run of the script, and inputs outside the bounded networks *)

Example script_max_flow :
  edmonds_karp 200 capacity_matrix 20 21 = Ok (Int 115, logistics_flow).
Proof. vm_compute. reflexivity. Qed.

Example script_min_cut :
  cut_capacity 22 capacity_matrix terminal_side = Fin 115.
Proof. vm_compute. reflexivity. Qed.

Example script_flow_table :
  print_flow_table logistics_flow node_indices terminals warehouses (seqZ 1 14)
  = ([ ("Термінал 1", store_name 1, Int 15);
       ("Термінал 1", store_name 2, Int 10);
       ("Термінал 1", store_name 4, Int 15);
       ("Термінал 1", store_name 5, Int 10);
       ("Термінал 1", store_name 6, Int 5);
       ("Термінал 1", store_name 7, Int 15);
       ("Термінал 1", store_name 8, Int 10);
       ("Термінал 2", store_name 4, Int 10);
       ("Термінал 2", store_name 5, Int 10);
       ("Термінал 2", store_name 6, Int 5);
       ("Термінал 2", store_name 7, Int 15);
       ("Термінал 2", store_name 8, Int 10);
       ("Термінал 2", store_name 10, Int 20);
       ("Термінал 2", store_name 11, Int 10) ], Ok tt).
Proof. vm_compute. reflexivity. Qed.

(** A finite capacity too large for a float next to an infinite edge: the
    second search raises when it subtracts the flow from [inf]. *)
Example capacity_beyond_float :
  edmonds_karp 5
    [[Int 0; inf; Int 0]; [Int 0; Int 0; Int (2 ^ 1024)]; [Int 0; Int 0; Int 0]]
    0 2
  = Raise OverflowError.
Proof. vm_compute. reflexivity. Qed.

(** ** The builder on any graph *)

Lemma names_ok_app n (node_indices : gmap string Z) l1 l2 :
  names_ok n node_indices (l1 ++ l2) =
  names_ok n node_indices l1 && names_ok n node_indices l2.
Proof. unfold names_ok. apply forallb_app. Qed.

Lemma names_ok_cons n (node_indices : gmap string Z) x l :
  names_ok n node_indices (x :: l) = true ->
  (exists i, node_indices !! x = Some (Z.of_nat i) /\ (i < n)%nat) /\
  names_ok n node_indices l = true.
Proof.
  unfold names_ok. simpl. intros [Hx Hl]%andb_true_iff. split; [|done].
  destruct (node_indices !! x) as [z|]; [|done].
  apply bool_decide_eq_true_1 in Hx. exists (Z.to_nat z).
  split; [f_equal|]; lia.
Qed.

Lemma fill_matrix_app node_indices pre rest m :
  fill_matrix node_indices (pre ++ rest) m =
  fill_matrix node_indices pre m ≫= fill_matrix node_indices rest.
Proof.
  revert m. induction pre as [|[[u v] w] pre IH]; intros m; [done|].
  cbn [app fill_matrix].
  destruct (lookup_node node_indices u); [|done..]. rewrite !bind_ok.
  destruct (lookup_node node_indices v); [|done..]. rewrite !bind_ok.
  destruct (setitem2 m a a0 w); [|done..]. rewrite !bind_ok. apply IH.
Qed.

Lemma fill_matrix_spec n node_indices : forall edges m,
  square n m = true -> names_ok n node_indices (endpoints edges) = true ->
  exists m', fill_matrix node_indices edges m = Ok m' /\
    square n m' = true /\
    forall i j, (i < n)%nat -> (j < n)%nat ->
      at2 m' i j = written node_indices edges i j (at2 m i j).
Proof.
  induction edges as [|[[u v] w] edges IH]; intros m Hsq Hok.
  - exists m. done.
  - cbn [endpoints] in Hok.
    apply names_ok_cons in Hok as [(a & Hu & Ha) Hok].
    apply names_ok_cons in Hok as [(b & Hv & Hb) Hok].
    cbn [fill_matrix]. unfold lookup_node. rewrite Hu, Hv, !bind_ok.
    rewrite (setitem2_nat n) by done. ok_step.
    destruct (IH (set2 m a b w) (square_set2 n m a b w Hsq) Hok)
      as (m' & Hrun & Hsq' & Hcells).
    exists m'. split; [done|]. split; [done|].
    intros i j Hi Hj. rewrite (Hcells i j Hi Hj). cbn [written].
    rewrite (at2_set2 n) by done. f_equal.
    rewrite Hu, Hv.
    destruct (decide (i = a /\ j = b)) as [[-> ->]|Hne].
    + by rewrite !bool_decide_eq_true_2.
    + rewrite (bool_decide_eq_false_2 (i = a /\ j = b)) by done.
      rewrite bool_decide_eq_false_2; [done|].
      intros [[= Ha'] [= Hb']]. apply Hne. lia.
Qed.

(** X1. When every name of the graph has an index below
    [len(node_indices)], the builder returns a square matrix of that size
    whose cell [(i, j)] holds the weight of the last edge enumerated
    between the names with these indices, and 0 when there is none. *)
Theorem build_capacity_matrix_entries G (node_indices : gmap string Z) :
  names_ok (size node_indices) node_indices (endpoints G) = true ->
  exists m, build_capacity_matrix G node_indices = Ok m /\
    square (size node_indices) m = true /\
    forall i j, (i < size node_indices)%nat -> (j < size node_indices)%nat ->
      at2 m i j = written node_indices G i j (Int 0).
Proof.
  intros Hok. unfold build_capacity_matrix.
  destruct (fill_matrix_spec (size node_indices) node_indices G
              (zeros (size node_indices)) (square_zeros _) Hok)
    as (m & Hrun & Hsq & Hcells).
  exists m. split; [done|]. split; [done|].
  intros i j Hi Hj. by rewrite (Hcells i j Hi Hj), at2_zeros.
Qed.

Lemma build_capacity_matrix_entries_witness :
  exists m, build_capacity_matrix logistics_graph node_indices = Ok m /\
    square (size node_indices) m = true /\
    forall i j, (i < size node_indices)%nat -> (j < size node_indices)%nat ->
      at2 m i j = written node_indices logistics_graph i j (Int 0).
Proof.
  apply (build_capacity_matrix_entries logistics_graph node_indices).
  vm_compute. reflexivity.
Defined.

(** X2. An edge one of whose names is not in [node_indices] makes the
    builder raise KeyError, once the edges before it have been written. *)
Theorem build_capacity_matrix_missing_name pre u v w post
    (node_indices : gmap string Z) :
  names_ok (size node_indices) node_indices (endpoints pre) = true ->
  node_indices !! u = None \/ node_indices !! v = None ->
  build_capacity_matrix (pre ++ (u, v, w) :: post) node_indices
  = Raise KeyError.
Proof.
  intros Hok Hmiss. unfold build_capacity_matrix. rewrite fill_matrix_app.
  destruct (fill_matrix_spec (size node_indices) node_indices pre
              (zeros (size node_indices)) (square_zeros _) Hok)
    as (m & Hrun & _).
  rewrite Hrun, bind_ok. cbn [fill_matrix]. unfold lookup_node.
  destruct (node_indices !! u) as [i|]; [|done]. rewrite bind_ok.
  destruct Hmiss as [?|Hv]; [done|]. by rewrite Hv.
Qed.

Lemma build_capacity_matrix_missing_name_witness :
  build_capacity_matrix
    ([("A", "B", Int 3)] ++ ("B", "C", Int 4) :: [("A", "C", Int 1)])
    (enumerate ["A"; "B"])
  = Raise KeyError.
Proof.
  apply (build_capacity_matrix_missing_name [("A", "B", Int 3)] "B" "C"
           (Int 4) [("A", "C", Int 1)] (enumerate ["A"; "B"])).
  - vm_compute. reflexivity.
  - right. vm_compute. reflexivity.
Defined.

Lemma getitem_row n (m : matrix) (i : Z) :
  square n m = true -> - Z.of_nat n <= i < Z.of_nat n ->
  exists row, getitem m i = Ok row /\ length row = n.
Proof.
  intros Hsq Hi. pose proof (square_length _ _ Hsq) as Hlen.
  unfold getitem, py_index. rewrite Hlen.
  assert (Hk : exists k, (k < n)%nat /\
    (if bool_decide (0 <= i < Z.of_nat n) then Some (Z.to_nat i)
     else if bool_decide (- Z.of_nat n <= i < 0)
          then Some (Z.to_nat (Z.of_nat n + i)) else None) = Some k).
  { case_bool_decide; [exists (Z.to_nat i); split; [lia|done]|].
    rewrite bool_decide_eq_true_2 by lia.
    exists (Z.to_nat (Z.of_nat n + i)). split; [lia|done]. }
  destruct Hk as (k & Hk & ->).
  destruct (square_row n m k Hsq Hk) as [Hrow Hl]. rewrite Hrow. eauto.
Qed.

(** X3. An edge whose names are both in [node_indices] but one of whose
    indices lies outside [-n, n), [n] the number of names, makes the
    builder raise IndexError. *)
Theorem build_capacity_matrix_index_error pre u v w post
    (node_indices : gmap string Z) (i j : Z) :
  names_ok (size node_indices) node_indices (endpoints pre) = true ->
  node_indices !! u = Some i -> node_indices !! v = Some j ->
  ~ (- Z.of_nat (size node_indices) <= i < Z.of_nat (size node_indices)) \/
  ~ (- Z.of_nat (size node_indices) <= j < Z.of_nat (size node_indices)) ->
  build_capacity_matrix (pre ++ (u, v, w) :: post) node_indices
  = Raise IndexError.
Proof.
  intros Hok Hu Hv Hout. unfold build_capacity_matrix. rewrite fill_matrix_app.
  destruct (fill_matrix_spec (size node_indices) node_indices pre
              (zeros (size node_indices)) (square_zeros _) Hok)
    as (m & Hrun & Hsq & _).
  rewrite Hrun, bind_ok. cbn [fill_matrix]. unfold lookup_node.
  rewrite Hu, Hv, !bind_ok. unfold setitem2.
  set (n := size node_indices) in *.
  destruct (decide (- Z.of_nat n <= i < Z.of_nat n)) as [Hi|Hi].
  - destruct (getitem_row n m i Hsq Hi) as (row & -> & Hlen).
    rewrite bind_ok. unfold setitem, py_index. rewrite Hlen.
    destruct Hout as [?|Hj]; [done|].
    rewrite (bool_decide_eq_false_2 (0 <= j < Z.of_nat n)) by lia.
    rewrite (bool_decide_eq_false_2 (- Z.of_nat n <= j < 0)) by lia. done.
  - unfold getitem, py_index. rewrite (square_length _ _ Hsq).
    rewrite !bool_decide_eq_false_2 by lia. done.
Qed.

Lemma build_capacity_matrix_index_error_witness :
  build_capacity_matrix ([] ++ ("A", "B", Int 3) :: [])
    (<["A" := 0]> (<["B" := 5]> ∅))
  = Raise IndexError.
Proof.
  apply (build_capacity_matrix_index_error [] "A" "B" (Int 3) []
           (<["A" := 0]> (<["B" := 5]> ∅)) 0 5).
  - reflexivity.
  - vm_compute. reflexivity.
  - vm_compute. reflexivity.
  - right. vm_compute. intros [_ H]. discriminate H.
Defined.

(** ** The node list and the index dictionary of the script *)

Lemma enumerate_lookup (nodes : list string) x i :
  NoDup nodes ->
  enumerate nodes !! x = Some i <->
  exists k, i = Z.of_nat k /\ nodes !! k = Some x.
Proof.
  intros Hnd. unfold enumerate, range.
  rewrite <- elem_of_list_to_map.
  2:{ rewrite fst_zip; [done|]. rewrite length_seqZ. lia. }
  rewrite list_elem_of_lookup. split.
  - intros [k Hk]. exists k. rewrite lookup_zip_with in Hk.
    destruct (nodes !! k) as [y|] eqn:Hy; [|done]. simpl in Hk.
    destruct (seqZ 0 (Z.of_nat (length nodes)) !! k) as [z|] eqn:Hz; [|done].
    simpl in Hk. injection Hk as -> ->.
    apply lookup_seqZ in Hz as [-> _]. split; [lia|done].
  - intros (k & -> & Hk). exists k. rewrite lookup_zip_with, Hk.
    simpl. apply lookup_lt_Some in Hk as Hlt.
    assert (Hz : seqZ 0 (Z.of_nat (length nodes)) !! k = Some (Z.of_nat k)).
    { apply lookup_seqZ. lia. }
    by rewrite Hz.
Qed.

Lemma enumerate_size (nodes : list string) :
  NoDup nodes -> size (enumerate nodes) = length nodes.
Proof.
  intros Hnd. unfold enumerate, range.
  rewrite map_size_list_to_map.
  - rewrite length_zip_with_l_eq; [done|]. rewrite length_seqZ. lia.
  - rewrite fst_zip; [done|]. rewrite length_seqZ. lia.
Qed.

Lemma add_node_NoDup (seen : list string) x :
  NoDup seen -> NoDup (if decide (x ∈ seen) then seen else seen ++ [x]).
Proof.
  intros Hnd. destruct (decide (x ∈ seen)); [done|].
  apply NoDup_app. split; [done|]. split; [|apply NoDup_singleton].
  intros y Hy ->%list_elem_of_singleton. done.
Qed.

Lemma add_node_elem (seen : list string) x y :
  y ∈ (if decide (x ∈ seen) then seen else seen ++ [x]) <->
  y ∈ seen \/ y = x.
Proof.
  destruct (decide (x ∈ seen)).
  - split; [by left|]. intros [?| ->]; done.
  - by rewrite elem_of_app, list_elem_of_singleton.
Qed.

Lemma nodes_from_NoDup : forall G seen, NoDup seen -> NoDup (nodes_from G seen).
Proof.
  induction G as [|[[u v] w] G IH]; intros seen Hnd; [done|].
  cbn [nodes_from]. by apply IH, add_node_NoDup, add_node_NoDup.
Qed.

Lemma nodes_from_seen : forall G seen x, x ∈ seen -> x ∈ nodes_from G seen.
Proof.
  induction G as [|[[u v] w] G IH]; intros seen x Hx; [done|].
  cbn [nodes_from]. apply IH. rewrite !add_node_elem. tauto.
Qed.

Lemma nodes_from_endpoints : forall G seen x,
  x ∈ endpoints G -> x ∈ nodes_from G seen.
Proof.
  induction G as [|[[u v] w] G IH]; intros seen x Hx;
    [by apply elem_of_nil in Hx|].
  cbn [nodes_from endpoints] in *.
  apply elem_of_cons in Hx as [->|Hx].
  - apply nodes_from_seen. rewrite !add_node_elem. tauto.
  - apply elem_of_cons in Hx as [->|Hx]; [|by apply IH].
    apply nodes_from_seen. rewrite !add_node_elem. tauto.
Qed.

(** Only names the edges mention, or names seen before, become nodes. *)
Lemma nodes_from_only : forall G seen x,
  x ∈ nodes_from G seen -> x ∈ seen \/ x ∈ endpoints G.
Proof.
  induction G as [|[[u v] w] G IH]; intros seen x Hx; [by left|].
  cbn [nodes_from endpoints] in *.
  apply IH in Hx as [Hx|Hx]; [|right; by do 2 right].
  rewrite !add_node_elem in Hx. rewrite !elem_of_cons. tauto.
Qed.

Lemma names_ok_intro n (node_indices : gmap string Z) names :
  (forall x, x ∈ names ->
     exists k, node_indices !! x = Some (Z.of_nat k) /\ (k < n)%nat) ->
  names_ok n node_indices names = true.
Proof.
  intros H. unfold names_ok. apply forallb_forall.
  intros x Hx%list_elem_of_In. destruct (H x Hx) as (k & -> & Hk).
  apply bool_decide_eq_true_2. lia.
Qed.

Lemma enumerate_names_ok (nodes names : list string) :
  NoDup nodes -> names ⊆ nodes ->
  names_ok (length nodes) (enumerate nodes) names = true.
Proof.
  intros Hnd Hsub. apply names_ok_intro. intros x Hx.
  apply Hsub, list_elem_of_lookup in Hx as [k Hk]. exists k. split.
  - apply enumerate_lookup; [done|]. by exists k.
  - by eapply lookup_lt_Some.
Qed.

Lemma written_last_weight (node_indices : gmap string Z) u v i j :
  node_indices !! u = Some (Z.of_nat i) ->
  node_indices !! v = Some (Z.of_nat j) ->
  (forall x y k, node_indices !! x = Some k -> node_indices !! y = Some k ->
     x = y) ->
  forall edges acc,
    written node_indices edges i j acc = last_weight edges u v acc.
Proof.
  intros Hu Hv Hinj.
  induction edges as [|[[u' v'] w] edges IH]; intros acc; [done|].
  cbn [written last_weight]. rewrite IH. f_equal.
  destruct (decide (u' = u /\ v' = v)) as [[-> ->]|Hne].
  - by rewrite !bool_decide_eq_true_2.
  - rewrite (bool_decide_eq_false_2 (u' = u /\ v' = v)) by done.
    rewrite bool_decide_eq_false_2; [done|].
    intros [H1 H2]. apply Hne. split; by eapply Hinj.
Qed.

Lemma enumerate_inj (nodes : list string) x y k :
  NoDup nodes -> enumerate nodes !! x = Some k -> enumerate nodes !! y = Some k ->
  x = y.
Proof.
  intros Hnd (a & -> & Ha)%enumerate_lookup (b & Hb & Hb')%enumerate_lookup;
    try done.
  apply Nat2Z.inj in Hb as <-. congruence.
Qed.

(** X4. Built the way the script does it, from the node list of the graph
    itself, the matrix never fails to build, whatever the graph: it is
    square, one row per node, and the cell of two nodes holds the weight
    of the last edge between them, 0 when there is none. *)
Theorem script_matrix_built (G : graph) :
  exists m,
    build_capacity_matrix G (enumerate (nodes_from G [])) = Ok m /\
    square (length (nodes_from G [])) m = true /\
    forall i j u v,
      nodes_from G [] !! i = Some u -> nodes_from G [] !! j = Some v ->
      at2 m i j = last_weight G u v (Int 0).
Proof.
  set (nodes := nodes_from G []).
  assert (Hnd : NoDup nodes) by apply nodes_from_NoDup, NoDup_nil_2.
  pose proof (enumerate_size nodes Hnd) as Hsize.
  unfold build_capacity_matrix. rewrite Hsize.
  destruct (fill_matrix_spec (length nodes) (enumerate nodes) G
              (zeros (length nodes)) (square_zeros _))
    as (m & Hrun & Hsq & Hcells).
  { apply enumerate_names_ok; [done|].
    intros x Hx. by apply nodes_from_endpoints. }
  exists m. split; [done|]. split; [done|].
  intros i j u v Hu Hv.
  apply lookup_lt_Some in Hu as Hi. apply lookup_lt_Some in Hv as Hj.
  rewrite Hcells, at2_zeros by done.
  apply written_last_weight.
  - apply enumerate_lookup; [done|]. by exists i.
  - apply enumerate_lookup; [done|]. by exists j.
  - intros x y k. by apply enumerate_inj.
Qed.

(** ** The super source and the super sink *)

Lemma last_weight_app l1 l2 u v acc :
  last_weight (l1 ++ l2) u v acc = last_weight l2 u v (last_weight l1 u v acc).
Proof.
  revert acc. induction l1 as [|[[u' v'] w] l1 IH]; intros acc; [done|].
  cbn [app last_weight]. apply IH.
Qed.

(** The last weight is that of an edge of the list, unless no edge
    joins the two names. *)
Lemma last_weight_cases l u v acc :
  (last_weight l u v acc = acc /\ forall w, (u, v, w) ∉ l) \/
  (u, v, last_weight l u v acc) ∈ l.
Proof.
  revert acc. induction l as [|[[u' v'] w] l IH]; intros acc.
  - left. split; [done|]. intros w. apply not_elem_of_nil.
  - cbn [last_weight]. case_bool_decide as Hm.
    + destruct Hm as [-> ->]. right.
      destruct (IH w) as [[-> _]|Hin]; [left|by right].
    + destruct (IH acc) as [[-> Hno]|Hin]; [|right; by right].
      left. split; [done|]. intros w' [Heq|Hin]%elem_of_cons; [|by eapply Hno].
      injection Heq as -> -> ->. tauto.
Qed.

Lemma virtual_edges_inf terminals stores ss st u v w :
  (u, v, w) ∈ ((fun terminal : string => (ss, terminal, inf)) <$> terminals)
            ++ ((fun store : string => (store, st, inf)) <$> stores) ->
  w = inf /\ ((u = ss /\ v ∈ terminals) \/ (u ∈ stores /\ v = st)).
Proof.
  intros [Hin|Hin]%elem_of_app;
    apply list_elem_of_fmap in Hin as (x & [= -> -> ->] & Hx); tauto.
Qed.

(** X5. In the matrix the script builds after [add_super_source_sink],
    the cell from the super source to every terminal and the cell from
    every store to the super sink hold [float("inf")], whatever the graph
    held between them before. *)
Theorem super_edges_infinite G terminals stores ss st :
  exists m,
    build_capacity_matrix (add_super_source_sink G terminals stores ss st)
      (enumerate (nodes_from (add_super_source_sink G terminals stores ss st) []))
    = Ok m /\
    forall i j u v,
      nodes_from (add_super_source_sink G terminals stores ss st) [] !! i
        = Some u ->
      nodes_from (add_super_source_sink G terminals stores ss st) [] !! j
        = Some v ->
      (u = ss /\ v ∈ terminals) \/ (u ∈ stores /\ v = st) ->
      at2 m i j = inf.
Proof.
  set (G' := add_super_source_sink G terminals stores ss st).
  set (nodes := nodes_from G' []).
  assert (Hnd : NoDup nodes) by apply nodes_from_NoDup, NoDup_nil_2.
  unfold build_capacity_matrix. rewrite (enumerate_size nodes Hnd).
  destruct (fill_matrix_spec (length nodes) (enumerate nodes) G'
              (zeros (length nodes)) (square_zeros _))
    as (m & Hrun & Hsq & Hcells).
  { apply enumerate_names_ok; [done|].
    intros x Hx. by apply nodes_from_endpoints. }
  exists m. split; [done|]. intros i j u v Hu Hv Hrole.
  apply lookup_lt_Some in Hu as Hi. apply lookup_lt_Some in Hv as Hj.
  rewrite Hcells, at2_zeros by done.
  rewrite (written_last_weight (enumerate nodes) u v).
  2:{ apply enumerate_lookup; [done|]. by exists i. }
  2:{ apply enumerate_lookup; [done|]. by exists j. }
  2:{ intros x y k. by apply enumerate_inj. }
  unfold G', add_super_source_sink. rewrite last_weight_app.
  match goal with |- last_weight ?l u v ?acc = _ =>
    destruct (last_weight_cases l u v acc) as [[_ Hno]|Hin] end.
  - exfalso. apply (Hno inf). apply elem_of_app.
    destruct Hrole as [[-> Hv']|[Hu' ->]]; [left|right];
      apply list_elem_of_fmap; eauto.
  - by apply virtual_edges_inf in Hin as [-> _].
Qed.

(** X6. [add_super_source_sink] adds no edge into the super source and
    none out of the super sink: when the graph had none either, and the
    super source is no terminal and the super sink no store, the column
    of the super source and the row of the super sink are all zero in the
    matrix the script builds. *)
Theorem super_nodes_one_way G terminals stores ss st :
  ss <> st -> ss ∉ terminals -> st ∉ stores ->
  ss ∉ G.*1.*2 -> st ∉ G.*1.*1 ->
  exists m,
    build_capacity_matrix (add_super_source_sink G terminals stores ss st)
      (enumerate (nodes_from (add_super_source_sink G terminals stores ss st) []))
    = Ok m /\
    forall i j u v,
      nodes_from (add_super_source_sink G terminals stores ss st) [] !! i
        = Some u ->
      nodes_from (add_super_source_sink G terminals stores ss st) [] !! j
        = Some v ->
      v = ss \/ u = st ->
      at2 m i j = Int 0.
Proof.
  intros Hst Hss Hsink Hin_ss Hout_st.
  set (G' := add_super_source_sink G terminals stores ss st).
  set (nodes := nodes_from G' []).
  assert (Hnd : NoDup nodes) by apply nodes_from_NoDup, NoDup_nil_2.
  unfold build_capacity_matrix. rewrite (enumerate_size nodes Hnd).
  destruct (fill_matrix_spec (length nodes) (enumerate nodes) G'
              (zeros (length nodes)) (square_zeros _))
    as (m & Hrun & Hsq & Hcells).
  { apply enumerate_names_ok; [done|].
    intros x Hx. by apply nodes_from_endpoints. }
  exists m. split; [done|]. intros i j u v Hu Hv Hrole.
  apply lookup_lt_Some in Hu as Hi. apply lookup_lt_Some in Hv as Hj.
  rewrite Hcells, at2_zeros by done.
  rewrite (written_last_weight (enumerate nodes) u v).
  2:{ apply enumerate_lookup; [done|]. by exists i. }
  2:{ apply enumerate_lookup; [done|]. by exists j. }
  2:{ intros x y k. by apply enumerate_inj. }
  destruct (last_weight_cases G' u v (Int 0)) as [[-> _]|Hin]; [done|].
  exfalso. unfold G', add_super_source_sink in Hin.
  apply elem_of_app in Hin as [Hin|Hin].
  - destruct Hrole as [->| ->].
    + apply Hin_ss. apply list_elem_of_fmap. exists (u, ss). split; [done|].
      apply list_elem_of_fmap. by exists (u, ss, last_weight G' u ss (Int 0)).
    + apply Hout_st. apply list_elem_of_fmap. exists (st, v). split; [done|].
      apply list_elem_of_fmap. by exists (st, v, last_weight G' st v (Int 0)).
  - apply virtual_edges_inf in Hin as [_ [[-> Hv']|[Hu' ->]]];
      destruct Hrole as [->| ->]; done.
Qed.

Lemma super_nodes_one_way_witness :
  exists m,
    build_capacity_matrix
      (add_super_source_sink create_logistics_graph terminals stores
         super_source super_sink)
      (enumerate (nodes_from
         (add_super_source_sink create_logistics_graph terminals stores
            super_source super_sink) []))
    = Ok m /\
    forall i j u v,
      nodes_from (add_super_source_sink create_logistics_graph terminals
                    stores super_source super_sink) [] !! i = Some u ->
      nodes_from (add_super_source_sink create_logistics_graph terminals
                    stores super_source super_sink) [] !! j = Some v ->
      v = super_source \/ u = super_sink ->
      at2 m i j = Int 0.
Proof.
  apply (super_nodes_one_way create_logistics_graph terminals stores
           super_source super_sink).
  - apply (bool_decide_eq_true_1 _). vm_compute. reflexivity.
  - apply (bool_decide_eq_true_1 _). vm_compute. reflexivity.
  - apply (bool_decide_eq_true_1 _). vm_compute. reflexivity.
  - apply (bool_decide_eq_true_1 _). vm_compute. reflexivity.
  - apply (bool_decide_eq_true_1 _). vm_compute. reflexivity.
Defined.

(** ** The order of the edges *)

Lemma matrix_ext n (m1 m2 : matrix) :
  square n m1 = true -> square n m2 = true ->
  (forall i j, (i < n)%nat -> (j < n)%nat -> at2 m1 i j = at2 m2 i j) ->
  m1 = m2.
Proof.
  intros H1 H2 Hcells. apply list_eq. intros i.
  destruct (decide (i < n)%nat) as [Hi|Hi].
  - destruct (square_row n m1 i H1 Hi) as [-> Hl1].
    destruct (square_row n m2 i H2 Hi) as [-> Hl2].
    f_equal. apply list_eq. intros j.
    destruct (decide (j < n)%nat) as [Hj|Hj].
    + rewrite (square_entry n m1 i j), (square_entry n m2 i j) by done.
      f_equal. by apply Hcells.
    + rewrite !lookup_ge_None_2; [done|lia..].
  - rewrite !lookup_ge_None_2; [done|..].
    + rewrite (square_length _ _ H2). lia.
    + rewrite (square_length _ _ H1). lia.
Qed.

Lemma last_weight_unique l u v w acc :
  NoDup l.*1 -> (u, v, w) ∈ l -> last_weight l u v acc = w.
Proof.
  intros Hnd Hin.
  destruct (last_weight_cases l u v acc) as [[_ Hno]|Hin']; [by destruct (Hno w)|].
  apply list_elem_of_lookup in Hin as [a Ha].
  apply list_elem_of_lookup in Hin' as [b Hb].
  assert (a = b) as ->.
  { eapply (NoDup_lookup _ _ _ (u, v) Hnd);
      rewrite list_lookup_fmap; [by rewrite Ha|by rewrite Hb]. }
  congruence.
Qed.

Lemma last_weight_perm l1 l2 u v acc :
  NoDup l1.*1 -> l1 ≡ₚ l2 ->
  last_weight l1 u v acc = last_weight l2 u v acc.
Proof.
  intros Hnd Hperm.
  assert (Hnd2 : NoDup l2.*1) by (by rewrite <- Hperm).
  assert (Hmem : forall e, e ∈ l1 <-> e ∈ l2) by (intros e; by rewrite Hperm).
  destruct (last_weight_cases l1 u v acc) as [[-> Hno]|Hin].
  - destruct (last_weight_cases l2 u v acc) as [[-> _]|Hin]; [done|].
    apply Hmem in Hin. by destruct (Hno _ Hin).
  - apply Hmem in Hin. symmetry. by apply last_weight_unique.
Qed.

Lemma endpoints_elem G x :
  x ∈ endpoints G <-> exists u v w, (u, v, w) ∈ G /\ (x = u \/ x = v).
Proof.
  induction G as [|[[u v] w] G IH]; cbn [endpoints].
  - split; [by intros ?%elem_of_nil|]. by intros (? & ? & ? & ?%elem_of_nil & _).
  - rewrite !elem_of_cons, IH. split.
    + intros [Hx|[Hx|(u' & v' & w' & Hin & Hx)]].
      * exists u, v, w. split; [by left|by left].
      * exists u, v, w. split; [by left|by right].
      * exists u', v', w'. split; [by right|done].
    + intros (u' & v' & w' & [[= -> -> ->]|Hin]%elem_of_cons & Hx);
        [tauto|]. right. right. by exists u', v', w'.
Qed.

(** X7. The matrix does not depend on the order in which the edges are
    enumerated: two lists of the same edges, each ordered pair of names
    occurring once, give the same matrix when the indices are the
    positions in a duplicate-free node list that holds every name. *)
Theorem build_capacity_matrix_order (nodes : list string) G1 G2 :
  NoDup nodes -> endpoints G1 ⊆ nodes -> NoDup G1.*1 -> G1 ≡ₚ G2 ->
  build_capacity_matrix G1 (enumerate nodes)
  = build_capacity_matrix G2 (enumerate nodes).
Proof.
  intros Hnd Hsub Hpairs Hperm. unfold build_capacity_matrix.
  rewrite (enumerate_size nodes Hnd).
  assert (Hsub2 : endpoints G2 ⊆ nodes).
  { intros x (u & v & w & Hin & Hx)%endpoints_elem. apply Hsub.
    apply endpoints_elem. exists u, v, w. split; [|done].
    assert (Hmem : forall e, e ∈ G1 <-> e ∈ G2) by (intros e; by rewrite Hperm).
    by apply Hmem. }
  destruct (fill_matrix_spec (length nodes) (enumerate nodes) G1
              (zeros (length nodes)) (square_zeros _)
              (enumerate_names_ok nodes _ Hnd Hsub))
    as (m1 & -> & Hsq1 & Hc1).
  destruct (fill_matrix_spec (length nodes) (enumerate nodes) G2
              (zeros (length nodes)) (square_zeros _)
              (enumerate_names_ok nodes _ Hnd Hsub2))
    as (m2 & -> & Hsq2 & Hc2).
  f_equal. apply (matrix_ext (length nodes)); [done..|].
  intros i j Hi Hj. rewrite Hc1, Hc2 by done.
  destruct (lookup_lt_is_Some_2 nodes i Hi) as [u Hu].
  destruct (lookup_lt_is_Some_2 nodes j Hj) as [v Hv].
  assert (Hiu : enumerate nodes !! u = Some (Z.of_nat i))
    by (apply enumerate_lookup; [done|]; by exists i).
  assert (Hjv : enumerate nodes !! v = Some (Z.of_nat j))
    by (apply enumerate_lookup; [done|]; by exists j).
  rewrite !(written_last_weight (enumerate nodes) u v i j Hiu Hjv)
    by (intros x y k; by apply enumerate_inj).
  by apply last_weight_perm.
Qed.

Lemma build_capacity_matrix_order_witness :
  build_capacity_matrix
    [("A", "B", Int 3); ("B", "C", Int 4); ("A", "C", Int 1)]
    (enumerate ["A"; "B"; "C"])
  = build_capacity_matrix
      [("A", "C", Int 1); ("A", "B", Int 3); ("B", "C", Int 4)]
      (enumerate ["A"; "B"; "C"]).
Proof.
  apply (build_capacity_matrix_order ["A"; "B"; "C"]
           [("A", "B", Int 3); ("B", "C", Int 4); ("A", "C", Int 1)]
           [("A", "C", Int 1); ("A", "B", Int 3); ("B", "C", Int 4)]).
  - apply (bool_decide_eq_true_1 _). vm_compute. reflexivity.
  - apply (bool_decide_eq_true_1 _). vm_compute. reflexivity.
  - apply (bool_decide_eq_true_1 _). vm_compute. reflexivity.
  - apply (bool_decide_eq_true_1 _). vm_compute. reflexivity.
Defined.

(** ** The network of the script is bounded *)

Lemma capacity_ok_zval x : capacity_ok x = true -> 0 <= zval x.
Proof.
  destruct x as [z|[]]; simpl; try done. by intros ?%bool_decide_eq_true_1.
Qed.

Lemma matrix_total_set2 n (m : matrix) i j x :
  square n m = true -> (i < n)%nat -> (j < n)%nat ->
  matrix_total n (set2 m i j x) = matrix_total n m + (zval x - fl m i j).
Proof.
  intros Hsq Hi Hj. unfold matrix_total.
  rewrite <- (sumZ_delta n i (zval x - fl m i j) Hi), <- sumZ_add.
  apply sumZ_ext. intros a Ha. by rewrite (row_sum_set2 n).
Qed.

Lemma matrix_total_zeros n : matrix_total n (zeros n) = 0.
Proof.
  unfold matrix_total. rewrite (sumZ_ext n _ (fun _ => 0)); [apply sumZ_zero|].
  intros i Hi. by apply row_sum_zeros.
Qed.

Lemma fill_matrix_valid n node_indices : forall edges m,
  square n m = true -> names_ok n node_indices (endpoints edges) = true ->
  (forall i j, (i < n)%nat -> (j < n)%nat -> capacity_ok (at2 m i j) = true) ->
  Forall (fun e : string * string * num => capacity_ok e.2 = true) edges ->
  exists m', fill_matrix node_indices edges m = Ok m' /\
    (forall i j, (i < n)%nat -> (j < n)%nat ->
       capacity_ok (at2 m' i j) = true) /\
    matrix_total n m' <= matrix_total n m + total_weight edges.
Proof.
  induction edges as [|[[u v] w] edges IH]; intros m Hsq Hok Hcells Hws.
  - exists m. split; [done|]. split; [done|]. simpl. lia.
  - cbn [endpoints] in Hok.
    apply names_ok_cons in Hok as [(a & Hu & Ha) Hok].
    apply names_ok_cons in Hok as [(b & Hv & Hb) Hok].
    apply Forall_cons in Hws as [Hw Hws]. simpl in Hw.
    cbn [fill_matrix]. unfold lookup_node. rewrite Hu, Hv, !bind_ok.
    rewrite (setitem2_nat n) by done. ok_step.
    destruct (IH (set2 m a b w) (square_set2 n m a b w Hsq) Hok)
      as (m' & Hrun & Hcells' & Htotal); [|done|].
    { intros i j Hi Hj. rewrite (at2_set2 n) by done.
      case_bool_decide; [done|by apply Hcells]. }
    exists m'. split; [done|]. split; [done|].
    rewrite (matrix_total_set2 n) in Htotal by done.
    pose proof (capacity_ok_zval _ (Hcells a b Ha Hb)) as Hold.
    unfold fl in Htotal. cbn [total_weight]. lia.
Qed.

Lemma valid_capacity_intro n (m : matrix) :
  square n m = true ->
  (forall i j, (i < n)%nat -> (j < n)%nat -> capacity_ok (at2 m i j) = true) ->
  valid_capacity n m = true.
Proof.
  intros Hsq Hcells. unfold valid_capacity. rewrite Hsq. simpl.
  apply forallb_forall. intros row Hrow%list_elem_of_In.
  apply list_elem_of_lookup in Hrow as [i Hi].
  assert (Hin : (i < n)%nat).
  { rewrite <- (square_length _ _ Hsq). by eapply lookup_lt_Some. }
  destruct (square_row n m i Hsq Hin) as [Hrow Hlen].
  rewrite Hi in Hrow. injection Hrow as ->.
  apply forallb_forall. intros x Hx%list_elem_of_In.
  apply list_elem_of_lookup in Hx as [j Hj].
  assert (Hjn : (j < n)%nat).
  { rewrite <- Hlen. by eapply lookup_lt_Some. }
  pose proof (square_entry n m i j Hsq Hin Hjn) as Hcell.
  rewrite Hj in Hcell. injection Hcell as ->. by apply Hcells.
Qed.

Lemma in_cut_side_of (nodes names : list string) i u :
  nodes !! i = Some u ->
  in_cut (side_of nodes names) i = bool_decide (u ∈ names).
Proof.
  intros Hu. unfold in_cut, side_of. by rewrite list_lookup_fmap, Hu.
Qed.

Lemma nonempty_elem (l : list string) : l <> [] -> exists x, x ∈ l.
Proof. destruct l as [|x l]; [done|]. intros _. exists x. by left. Qed.

Lemma total_weight_app l1 l2 :
  total_weight (l1 ++ l2) = total_weight l1 + total_weight l2.
Proof.
  induction l1 as [|[[u v] w] l1 IH]; cbn [app total_weight]; lia.
Qed.

Lemma total_weight_inf (l : graph) :
  Forall (fun e : string * string * num => e.2 = inf) l -> total_weight l = 0.
Proof.
  induction 1 as [|[[u v] w] l Hw _ IH]; [done|].
  simpl in Hw. subst w. cbn [total_weight]. by rewrite IH.
Qed.

Lemma roles_ok_spec terminals stores ss st :
  roles_ok terminals stores ss st = true ->
  terminals <> [] /\ stores <> [] /\ ss <> st /\ (ss ∉ stores) /\
  (st ∉ terminals) /\ forall x, x ∈ terminals -> x ∉ stores.
Proof.
  unfold roles_ok.
  rewrite !andb_true_iff. intros [[[[[H1 H2] H3] H4] H5] H6].
  apply bool_decide_eq_true_1 in H1, H2, H3, H4, H5.
  repeat (split; [done|]). intros x Hx%list_elem_of_In.
  rewrite forallb_forall in H6. by apply (bool_decide_eq_true_1 _), H6.
Qed.

Lemma weights_ok_spec G u v w :
  weights_ok G = true -> (u, v, w) ∈ G -> exists z, w = Int z /\ 0 <= z.
Proof.
  unfold weights_ok. rewrite forallb_forall.
  intros H Hin%list_elem_of_In. specialize (H _ Hin). simpl in H.
  destruct w as [z|]; [|done]. exists z. split; [done|].
  by apply bool_decide_eq_true_1 in H.
Qed.

Section ScriptNetwork.
Variables (G : graph) (terminals stores : list string) (ss st : string).
Hypothesis Hweights : weights_ok G = true.
Hypothesis Hroles : roles_ok terminals stores ss st = true.

Let G' := add_super_source_sink G terminals stores ss st.
Let nodes := nodes_from G' [].
Let side := side_of nodes (ss :: terminals).

Lemma script_weights_capacity_ok :
  Forall (fun e : string * string * num => capacity_ok e.2 = true) G'.
Proof.
  apply Forall_forall. intros [[u v] w] Hin. simpl.
  unfold G', add_super_source_sink in Hin.
  apply elem_of_app in Hin as [Hin|Hin].
  - destruct (weights_ok_spec G u v w Hweights Hin) as (z & -> & Hz).
    simpl. by apply bool_decide_eq_true_2.
  - by apply virtual_edges_inf in Hin as [-> _].
Qed.

Lemma script_total_weight : total_weight G' = total_weight G.
Proof.
  unfold G', add_super_source_sink.
  rewrite total_weight_app, (total_weight_inf (_ ++ _)); [lia|].
  apply Forall_forall. intros [[u v] w] Hin. simpl.
  by apply virtual_edges_inf in Hin as [-> _].
Qed.

Lemma script_super_nodes :
  exists s t, nodes !! s = Some ss /\ nodes !! t = Some st.
Proof.
  destruct (roles_ok_spec _ _ _ _ Hroles) as (Ht & Hs & _).
  destruct (nonempty_elem _ Ht) as [t0 Ht0].
  destruct (nonempty_elem _ Hs) as [s0 Hs0].
  assert (Hss : ss ∈ nodes).
  { apply nodes_from_endpoints, endpoints_elem. exists ss, t0, inf.
    split; [|by left]. unfold G', add_super_source_sink.
    rewrite !elem_of_app. right. left. apply list_elem_of_fmap.
    by exists t0. }
  assert (Hst : st ∈ nodes).
  { apply nodes_from_endpoints, endpoints_elem. exists s0, st, inf.
    split; [|by right]. unfold G', add_super_source_sink.
    rewrite !elem_of_app. right. right. apply list_elem_of_fmap.
    by exists s0. }
  apply list_elem_of_lookup in Hss as [s Hs'].
  apply list_elem_of_lookup in Hst as [t Ht'].
  by exists s, t.
Qed.

(** An edge that leaves the side of the super source and the terminals
    is an edge of the original graph. *)
Lemma script_crossing_finite u v :
  u ∈ ss :: terminals -> v ∉ ss :: terminals ->
  exists z, last_weight G' u v (Int 0) = Int z /\ 0 <= z.
Proof.
  intros Hu Hv.
  destruct (roles_ok_spec _ _ _ _ Hroles) as (_ & _ & _ & Hss & _ & Hdisj).
  destruct (last_weight_cases G' u v (Int 0)) as [[-> _]|Hin];
    [by exists 0|].
  unfold G', add_super_source_sink in Hin.
  apply elem_of_app in Hin as [Hin|Hin].
  - by eapply weights_ok_spec.
  - exfalso. apply virtual_edges_inf in Hin as [_ [[-> Hv']|[Hu' ->]]].
    + apply Hv. by right.
    + apply elem_of_cons in Hu as [->|Hu]; [done|]. by eapply Hdisj.
Qed.

Lemma script_network_bounded_aux :
  total_weight G < DBL_OVERFLOW ->
  exists m s t c,
    build_capacity_matrix G' (enumerate nodes) = Ok m /\
    nodes !! s = Some ss /\ nodes !! t = Some st /\
    cut_capacity (length nodes) m side = Fin c /\ c <= total_weight G /\
    bounded_network (length nodes) m s t side = true.
Proof.
  intros Hsum.
  destruct (roles_ok_spec _ _ _ _ Hroles) as (_ & _ & Hne & _ & Hst & _).
  assert (Hnd : NoDup nodes) by apply nodes_from_NoDup, NoDup_nil_2.
  assert (Hok : names_ok (length nodes) (enumerate nodes) (endpoints G') = true).
  { apply enumerate_names_ok; [done|].
    intros x Hx. by apply nodes_from_endpoints. }
  unfold build_capacity_matrix. rewrite (enumerate_size nodes Hnd).
  set (n := length nodes).
  destruct (fill_matrix_spec n (enumerate nodes) G' (zeros n)
              (square_zeros _) Hok) as (m & Hrun & Hsq & Hcells).
  destruct (fill_matrix_valid n (enumerate nodes) G' (zeros n)
              (square_zeros _) Hok) as (m2 & Hrun2 & Hvalid & Htotal).
  { intros i j Hi Hj. by rewrite at2_zeros. }
  { apply script_weights_capacity_ok. }
  rewrite Hrun in Hrun2. injection Hrun2 as <-.
  rewrite matrix_total_zeros, script_total_weight in Htotal.
  destruct script_super_nodes as (s & t & Hs & Ht).
  assert (Hcell : forall i j u v, nodes !! i = Some u -> nodes !! j = Some v ->
    at2 m i j = last_weight G' u v (Int 0)).
  { intros i j u v Hu Hv.
    apply lookup_lt_Some in Hu as Hi. apply lookup_lt_Some in Hv as Hj.
    rewrite Hcells, at2_zeros by done. apply written_last_weight.
    - apply enumerate_lookup; [done|]. by exists i.
    - apply enumerate_lookup; [done|]. by exists j.
    - intros x y k. by apply enumerate_inj. }
  set (g := fun i j : nat =>
    if in_cut side i && negb (in_cut side j) then zval (at2 m i j) else 0).
  assert (Hc : cut_capacity n m side
               = Fin (sumZ n (fun i => sumZ n (fun j => g i j)))).
  { unfold cut_capacity. apply sum_ext_of_fin. intros i Hi.
    apply sum_ext_of_fin. intros j Hj. unfold g.
    destruct (lookup_lt_is_Some_2 nodes i Hi) as [u Hu].
    destruct (lookup_lt_is_Some_2 nodes j Hj) as [v Hv].
    unfold side. rewrite (in_cut_side_of _ _ i u Hu), (in_cut_side_of _ _ j v Hv).
    case_bool_decide as Hu'; [|done]. case_bool_decide as Hv'; [done|]. simpl.
    destruct (script_crossing_finite u v Hu' Hv') as (z & Hz & _).
    by rewrite (Hcell i j u v Hu Hv), Hz. }
  assert (Hle : sumZ n (fun i => sumZ n (fun j => g i j)) <= total_weight G).
  { etransitivity; [|exact Htotal]. unfold matrix_total, row_sum.
    apply sumZ_le. intros i Hi. apply sumZ_le. intros j Hj. unfold g.
    pose proof (capacity_ok_zval _ (Hvalid i j Hi Hj)).
    destruct (in_cut side i && negb (in_cut side j)); lia. }
  eexists m, s, t, _. split; [done|]. split; [done|]. split; [done|].
  split; [exact Hc|]. split; [done|].
  unfold bounded_network. rewrite Hc.
  rewrite (valid_capacity_intro n m Hsq Hvalid).
  rewrite !bool_decide_eq_true_2;
    [|lia|by eapply lookup_lt_Some|by eapply lookup_lt_Some].
  unfold is_cut, side.
  rewrite (in_cut_side_of _ _ s ss Hs), (in_cut_side_of _ _ t st Ht).
  rewrite bool_decide_eq_true_2 by (unfold side_of; by rewrite length_fmap).
  rewrite bool_decide_eq_true_2 by (by left).
  rewrite bool_decide_eq_false_2; [done|].
  intros [?|?]%elem_of_cons; done.
Qed.

End ScriptNetwork.

(** X8. The script always hands the engine a bounded network: for every
    graph of non-negative int weights whose sum converts to a float, with
    some terminal and some store, no store that is a terminal or the
    super source and a super sink that is neither a terminal nor the
    super source, the matrix builds, the super source and the super sink
    are nodes, and the super source with the terminals is the source side
    of a cut of finite capacity. *)
Theorem script_network_bounded G terminals stores ss st :
  weights_ok G = true -> roles_ok terminals stores ss st = true ->
  total_weight G < DBL_OVERFLOW ->
  exists m s t,
    build_capacity_matrix (add_super_source_sink G terminals stores ss st)
      (enumerate (nodes_from (add_super_source_sink G terminals stores ss st) []))
    = Ok m /\
    nodes_from (add_super_source_sink G terminals stores ss st) [] !! s
      = Some ss /\
    nodes_from (add_super_source_sink G terminals stores ss st) [] !! t
      = Some st /\
    bounded_network
      (length (nodes_from (add_super_source_sink G terminals stores ss st) []))
      m s t
      (side_of (nodes_from (add_super_source_sink G terminals stores ss st) [])
         (ss :: terminals))
    = true.
Proof.
  intros Hw Hr Hsum.
  destruct (script_network_bounded_aux G terminals stores ss st Hw Hr Hsum)
    as (m & s & t & c & Hrun & Hs & Ht & _ & _ & Hb).
  by exists m, s, t.
Qed.

Lemma script_network_bounded_witness :
  exists m s t,
    build_capacity_matrix
      (add_super_source_sink create_logistics_graph terminals stores
         super_source super_sink)
      (enumerate (nodes_from
         (add_super_source_sink create_logistics_graph terminals stores
            super_source super_sink) []))
    = Ok m /\
    nodes_from (add_super_source_sink create_logistics_graph terminals stores
                  super_source super_sink) [] !! s = Some super_source /\
    nodes_from (add_super_source_sink create_logistics_graph terminals stores
                  super_source super_sink) [] !! t = Some super_sink /\
    bounded_network
      (length (nodes_from
         (add_super_source_sink create_logistics_graph terminals stores
            super_source super_sink) []))
      m s t
      (side_of (nodes_from
         (add_super_source_sink create_logistics_graph terminals stores
            super_source super_sink) [])
         (super_source :: terminals))
    = true.
Proof.
  apply (script_network_bounded create_logistics_graph terminals stores
           super_source super_sink).
  - vm_compute. reflexivity.
  - vm_compute. reflexivity.
  - vm_compute. reflexivity.
Defined.

(** ** What the engine returns *)

Lemma cut_endpoints_differ n s t side : is_cut n s t side = true -> s <> t.
Proof. intros (_ & Hs & Ht)%is_cut_spec ->. congruence. Qed.

Lemma flow_inv_feasible capacity n s t flow value :
  flow_inv capacity n s t flow value -> feasible capacity n s t flow.
Proof. intros HF. split; apply HF. Qed.

(** The net flow out of the source of a feasible flow crosses every cut,
    so it is bounded by the capacity of every finite cut. *)
Lemma feasible_le_cut capacity n s t g S c :
  feasible capacity n s t g -> (s < n)%nat ->
  is_cut n s t S = true -> cut_capacity n capacity S = Fin c ->
  row_sum n g s <= c.
Proof.
  intros HG Hs Hcut Hc.
  destruct (is_cut_spec _ _ _ _ Hcut) as (Hlen & HSs & HSt).
  assert (Hval : row_sum n g s = cut_flow n g S).
  { transitivity (sumZ n (fun i => if in_cut S i then row_sum n g i else 0)).
    { rewrite <- (sumZ_delta n s (row_sum n g s) Hs). apply sumZ_ext.
      intros i Hi. destruct (decide (i = s)) as [->|Hne].
      - by rewrite HSs.
      - destruct (in_cut S i) eqn:HSi; [|done].
        symmetry. apply (fe_cons HG); [done|done|]. intros ->. congruence. }
    transitivity
      (sumZ n (fun i => sumZ n (fun j =>
         if in_cut S i && in_cut S j then fl g i j else 0)) + cut_flow n g S).
    { unfold cut_flow. rewrite <- sumZ_add. apply sumZ_ext. intros i Hi.
      rewrite <- sumZ_add. unfold row_sum.
      destruct (in_cut S i); simpl.
      - apply sumZ_ext. intros j Hj. unfold fl.
        destruct (in_cut S j); simpl; lia.
      - rewrite sumZ_zero. lia. }
    rewrite sumZ_skew; [lia|].
    intros i j Hi Hj. rewrite (andb_comm (in_cut S j)).
    destruct (in_cut S i && in_cut S j); [|lia]. by apply (fe_skew HG). }
  rewrite Hval. apply sum_ext_fin in Hc as [Hrows ->].
  apply sumZ_le. intros i Hi.
  pose proof (Hrows i Hi) as Hrow. cbv beta in Hrow.
  apply sum_ext_fin in Hrow as [Hcells ->].
  apply sumZ_le. intros j Hj.
  specialize (Hcells j Hj). cbv beta in Hcells.
  destruct (in_cut S i && negb (in_cut S j)); [|done].
  destruct (at2 capacity i j) as [z|f] eqn:Hz; simpl in *; [|done].
  by apply (fe_cap HG).
Qed.

(** The rows of a skew-symmetric conserved flow add up to nothing, so
    what leaves the source enters the sink. *)
Lemma feasible_sink_row capacity n s t g :
  feasible capacity n s t g -> (s < n)%nat -> (t < n)%nat -> s <> t ->
  row_sum n g t = - row_sum n g s.
Proof.
  intros HG Hs Ht Hst.
  assert (Hall : sumZ n (fun i => row_sum n g i) = 0).
  { apply (sumZ_skew n (fl g)). apply (fe_skew HG). }
  assert (Hsplit : sumZ n (fun i => row_sum n g i)
                   = row_sum n g s + row_sum n g t).
  { transitivity (sumZ n (fun i =>
      (if decide (i = s) then row_sum n g s else 0)
      + (if decide (i = t) then row_sum n g t else 0))).
    - apply sumZ_ext. intros i Hi.
      destruct (decide (i = s)) as [Hs'|Hs'], (decide (i = t)) as [Ht'|Ht'];
        subst; try done; try lia.
      rewrite (fe_cons HG) by done. lia.
    - by rewrite sumZ_add, !sumZ_delta. }
  lia.
Qed.

(** X9. On a bounded network the value the engine returns is not
    negative, is the net flow that leaves the source in the returned
    matrix, and is the net flow that enters the sink. *)
Theorem max_flow_is_net_flow n capacity s t side fuel :
  bounded_network n capacity s t side = true ->
  (budget n capacity side <= fuel)%nat ->
  exists mf flow,
    edmonds_karp fuel capacity (Z.of_nat s) (Z.of_nat t) = Ok (Int mf, flow) /\
    (0 <= mf) /\ row_sum n flow s = mf /\ col_sum n flow t = mf.
Proof.
  intros Hnet Hfuel.
  destruct (engine_spec n capacity s t side fuel Hnet Hfuel)
    as (mf & flow & visited & Hrun & HF & _).
  apply bounded_network_spec in Hnet as (_ & Hs & Ht & Hcut & _).
  exists mf, flow. split; [done|].
  pose proof (fi_bound HF s s Hs Hs) as Hb.
  pose proof (fi_value HF) as Hv.
  split; [lia|]. split; [done|].
  rewrite (col_sum_skew _ _ _ _ _ _ _ HF Ht).
  rewrite (feasible_sink_row capacity n s t flow
             (flow_inv_feasible _ _ _ _ _ _ HF) Hs Ht
             (cut_endpoints_differ _ _ _ _ Hcut)).
  lia.
Qed.

Lemma max_flow_is_net_flow_witness :
  exists mf flow,
    edmonds_karp 200 capacity_matrix (Z.of_nat 20) (Z.of_nat 21)
      = Ok (Int mf, flow) /\
    (0 <= mf) /\ row_sum 22 flow 20 = mf /\ col_sum 22 flow 21 = mf.
Proof.
  apply (max_flow_is_net_flow 22 capacity_matrix 20 21 terminal_side 200).
  - vm_compute. reflexivity.
  - vm_compute. lia.
Defined.

(** X10. On a bounded network the engine stops only when the residual
    network of the matrix it returns has no walk from the source to the
    sink. *)
Theorem no_augmenting_path_left n capacity s t side fuel :
  bounded_network n capacity s t side = true ->
  (budget n capacity side <= fuel)%nat ->
  exists mf flow,
    edmonds_karp fuel capacity (Z.of_nat s) (Z.of_nat t) = Ok (mf, flow) /\
    forall k, ~ rpath capacity flow n s k t.
Proof.
  intros Hnet Hfuel.
  destruct (engine_spec n capacity s t side fuel Hnet Hfuel)
    as (mf & flow & visited & Hrun & HF & Hcl & _).
  apply bounded_network_spec in Hnet as (_ & Hs & Ht & Hcut & _).
  exists (Int mf), flow. split; [done|]. intros k Hpath.
  pose proof (closed_rpath _ _ _ _ _ _ _ _ Hcl Hpath) as Hvt.
  destruct (bc_sink Hcl t Hvt) as [Heq|Hne]; [|done].
  by apply (cut_endpoints_differ _ _ _ _ Hcut).
Qed.

Lemma no_augmenting_path_left_witness :
  exists mf flow,
    edmonds_karp 200 capacity_matrix (Z.of_nat 20) (Z.of_nat 21)
      = Ok (mf, flow) /\
    forall k, ~ rpath capacity_matrix flow 22 20 k 21.
Proof.
  apply (no_augmenting_path_left 22 capacity_matrix 20 21 terminal_side 200).
  - vm_compute. reflexivity.
  - vm_compute. lia.
Defined.

(** X11. On a bounded network the matrix the engine returns is a feasible
    flow, and no feasible flow of the network sends more out of the
    source than the value returned. *)
Theorem max_flow_is_maximum n capacity s t side fuel :
  bounded_network n capacity s t side = true ->
  (budget n capacity side <= fuel)%nat ->
  exists mf flow,
    edmonds_karp fuel capacity (Z.of_nat s) (Z.of_nat t) = Ok (Int mf, flow) /\
    feasible capacity n s t flow /\ row_sum n flow s = mf /\
    forall g, feasible capacity n s t g -> row_sum n g s <= mf.
Proof.
  intros Hnet Hfuel.
  destruct (engine_spec n capacity s t side fuel Hnet Hfuel)
    as (mf & flow & visited & Hrun & HF & Hcl & Hmf).
  apply bounded_network_spec in Hnet
    as (Hcap & Hs & Ht & Hcut & c & Hc & Hdbl).
  exists mf, flow. split; [done|].
  split; [by eapply flow_inv_feasible|]. split; [apply HF|].
  destruct (closed_cut capacity n s t side Hcap Hs Ht Hcut flow mf visited
              HF Hmf Hcl) as [Hcutv Hcapv].
  intros g HG. by apply (feasible_le_cut capacity n s t g visited).
Qed.

Lemma max_flow_is_maximum_witness :
  exists mf flow,
    edmonds_karp 200 capacity_matrix (Z.of_nat 20) (Z.of_nat 21)
      = Ok (Int mf, flow) /\
    feasible capacity_matrix 22 20 21 flow /\ row_sum 22 flow 20 = mf /\
    forall g, feasible capacity_matrix 22 20 21 g -> row_sum 22 g 20 <= mf.
Proof.
  apply (max_flow_is_maximum 22 capacity_matrix 20 21 terminal_side 200).
  - vm_compute. reflexivity.
  - vm_compute. lia.
Defined.

(** ** The script from end to end *)

(** X12. The script runs to completion on every logistics graph of its
    kind: with non-negative int weights whose sum converts to a float,
    some terminal and some store, roles that do not overlap and
    warehouses that occur in the graph, building the matrix, looking up
    the endpoints, the engine and the table all succeed, the value is
    printed and lies between 0 and the sum of the weights, and the table
    is printed to its end. *)
Theorem script_runs fuel G terminals warehouses store_range ss st :
  weights_ok G = true ->
  roles_ok terminals (store_name <$> store_range) ss st = true ->
  warehouses ⊆ endpoints G ->
  total_weight G < Z.of_nat fuel -> total_weight G < DBL_OVERFLOW ->
  (length (nodes_from (add_super_source_sink G terminals
                         (store_name <$> store_range) ss st) []) < fuel)%nat ->
  exists mf table,
    script fuel G terminals warehouses store_range ss st
      = (Some (Int mf), (table, Ok tt)) /\
    0 <= mf <= total_weight G.
Proof.
  intros Hw Hr Hwh Hfuel Hsum Hn.
  destruct (script_network_bounded_aux G terminals (store_name <$> store_range)
              ss st Hw Hr Hsum)
    as (m & s & t & c & Hrun & Hs & Ht & Hc & Hle & Hb).
  unfold script. cbv zeta.
  set (G' := add_super_source_sink G terminals (store_name <$> store_range)
               ss st) in *.
  set (nodes := nodes_from G' []) in *.
  assert (Hnd : NoDup nodes) by apply nodes_from_NoDup, NoDup_nil_2.
  rewrite Hrun. ok_step.
  assert (Hlook : forall k x, nodes !! k = Some x ->
            lookup_node (enumerate nodes) x = Ok (Z.of_nat k)).
  { intros k x Hk. unfold lookup_node.
    assert (H : enumerate nodes !! x = Some (Z.of_nat k)).
    { apply enumerate_lookup; [done|]. by exists k. }
    by rewrite H. }
  rewrite (Hlook s ss Hs). ok_step. rewrite (Hlook t st Ht). ok_step.
  destruct (engine_spec (length nodes) m s t _ fuel Hb)
    as (mf & flow & visited & Hek & HF & _ & _).
  { unfold budget. rewrite Hc. simpl. lia. }
  rewrite Hek.
  apply bounded_network_spec in Hb as (_ & Hsn & _ & Hcut & _).
  assert (Hin : forall u v w, (u, v, w) ∈ G' -> u ∈ nodes /\ v ∈ nodes).
  { intros u v w Hin. split; apply nodes_from_endpoints, endpoints_elem;
      exists u, v, w; (split; [done|]); [by left|by right]. }
  unfold print_flow_table.
  rewrite (terminal_loop_spec (length nodes) flow (enumerate nodes)
             (fi_square HF)
             (int_matrix_of _ _ (fi_square HF) (fi_int HF))).
  - eexists mf, _. split; [done|].
    pose proof (fi_bound HF s s Hsn Hsn).
    pose proof (value_le_cut _ _ _ _ _ _ HF Hsn _ c Hcut Hc). lia.
  - apply enumerate_names_ok; [done|]. intros x Hx.
    apply (Hin ss x inf). unfold G', add_super_source_sink.
    rewrite !elem_of_app. right. left. apply list_elem_of_fmap. by exists x.
  - apply enumerate_names_ok; [done|]. intros x Hx.
    apply Hwh, endpoints_elem in Hx as (u & v & w & Hx & Huv).
    assert (Hx' : (u, v, w) ∈ G').
    { unfold G', add_super_source_sink. rewrite !elem_of_app. by left. }
    destruct (Hin u v w Hx'), Huv; by subst.
  - apply enumerate_names_ok; [done|]. intros x Hx.
    apply (Hin x st inf). unfold G', add_super_source_sink.
    rewrite !elem_of_app. right. right. apply list_elem_of_fmap. by exists x.
Qed.

Lemma script_runs_witness :
  exists mf table,
    script 400 create_logistics_graph terminals warehouses (seqZ 1 14)
      super_source super_sink = (Some (Int mf), (table, Ok tt)) /\
    0 <= mf <= total_weight create_logistics_graph.
Proof.
  apply (script_runs 400 create_logistics_graph terminals warehouses
           (seqZ 1 14) super_source super_sink).
  - vm_compute. reflexivity.
  - vm_compute. reflexivity.
  - apply (bool_decide_eq_true_1 _). vm_compute. reflexivity.
  - vm_compute. reflexivity.
  - vm_compute. reflexivity.
  - vm_compute. lia.
Defined.

(** ** Lines of the flow table *)

Lemma attributed_le_sent F e x ws : attributed F e x ws <= sent F e ws.
Proof.
  induction ws as [|w ws IH]; cbn [attributed sent]; [done|].
  case_bool_decide; lia.
Qed.

Lemma attributed_le_received F e x ws :
  attributed F e x ws <= received F x ws.
Proof.
  induction ws as [|w ws IH]; cbn [attributed received]; [done|].
  case_bool_decide; lia.
Qed.

(** X13. The call completes, and every line of the table names a listed
    terminal and the store of a listed number, and its amount is a
    strictly positive int that exceeds neither what the terminal sends to
    the warehouses nor what the store receives from them. *)
Theorem print_flow_table_lines n flow node_indices terminals warehouses
    store_range :
  square n flow = true -> int_matrix flow = true ->
  names_ok n node_indices terminals = true ->
  names_ok n node_indices warehouses = true ->
  names_ok n node_indices (store_name <$> store_range) = true ->
  exists table,
    print_flow_table flow node_indices terminals warehouses store_range
      = (table, Ok tt) /\
    forall term store a, (term, store, a) ∈ table ->
      term ∈ terminals /\
      exists k z, k ∈ store_range /\ store = store_name k /\ a = Int z /\
        0 < z /\
        z <= sent (fl flow) (index_of node_indices term)
               (index_of node_indices <$> warehouses) /\
        z <= received (fl flow) (index_of node_indices store)
               (index_of node_indices <$> warehouses).
Proof.
  intros Hsq Hint Hts Hws Hks. unfold print_flow_table.
  rewrite (terminal_loop_spec n flow node_indices Hsq Hint) by done.
  eexists. split; [done|]. intros term store a Hrow.
  rewrite app_nil_l in Hrow. unfold decompose in Hrow.
  apply list_elem_of_bind in Hrow as (term' & Hrow & Hterm).
  apply list_elem_of_bind in Hrow as (k & Hrow & Hk).
  cbv zeta in Hrow. case_bool_decide as Hpos; [|by apply elem_of_nil in Hrow].
  apply list_elem_of_singleton in Hrow. injection Hrow as -> -> ->.
  split; [done|]. eexists k, _. repeat (split; [done|]). split.
  - apply attributed_le_sent.
  - apply attributed_le_received.
Qed.

Lemma print_flow_table_lines_witness :
  exists table,
    print_flow_table logistics_flow node_indices terminals warehouses
      (seqZ 1 14) = (table, Ok tt) /\
    forall term store a, (term, store, a) ∈ table ->
      term ∈ terminals /\
      exists k z, k ∈ seqZ 1 14 /\ store = store_name k /\ a = Int z /\
        0 < z /\
        z <= sent (fl logistics_flow) (index_of node_indices term)
               (index_of node_indices <$> warehouses) /\
        z <= received (fl logistics_flow) (index_of node_indices store)
               (index_of node_indices <$> warehouses).
Proof.
  apply (print_flow_table_lines 22 logistics_flow node_indices terminals
           warehouses (seqZ 1 14)); vm_compute; reflexivity.
Defined.

Lemma store_loop_missing n flow node_indices term e ws k post :
  square n flow = true -> int_matrix flow = true ->
  (e < n)%nat -> names_ok n node_indices ws = true ->
  node_indices !! store_name k = None ->
  forall pre out, names_ok n node_indices (store_name <$> pre) = true ->
  store_loop flow node_indices term (Z.of_nat e) ws (pre ++ k :: post) out
  = (out ++ (store_num ← pre;
       let a := attributed (fl flow) e
                  (index_of node_indices (store_name store_num))
                  (index_of node_indices <$> ws) in
       if bool_decide (0 < a) then [(term, store_name store_num, Int a)]
       else []), Raise KeyError).
Proof.
  intros Hsq Hint He Hws Hnone.
  induction pre as [|p pre IH]; intros out Hpre; cbn [app store_loop].
  - unfold lookup_node. rewrite Hnone. simpl. by rewrite app_nil_r.
  - destruct (lookup_node_ok n node_indices (store_name <$> p :: pre)
                (store_name p) Hpre ltac:(left)) as [Hp Hpn].
    rewrite Hp; ok_step.
    rewrite (warehouse_loop_spec n flow node_indices Hsq Hint e _ ws 0)
      by done.
    cbn zeta. rewrite IH.
    2:{ unfold names_ok in *. simpl in Hpre.
        by apply andb_true_iff in Hpre as [_ ?]. }
    f_equal. cbn [mbind list_bind]. rewrite Z.add_0_l.
    unfold num_pos. cbn [num_lt].
    set (a := attributed (fl flow) e (index_of node_indices (store_name p))
                (index_of node_indices <$> ws)).
    destruct (0 <? a) eqn:Ha.
    + apply Z.ltb_lt in Ha. rewrite bool_decide_eq_true_2 by done.
      by rewrite <- app_assoc.
    + apply Z.ltb_ge in Ha. rewrite bool_decide_eq_false_2 by lia. done.
Qed.

(** X14. A store number whose name has no index makes the call raise
    KeyError while it reports on the first terminal.  By then it has
    printed the lines of that terminal for the store numbers before the
    missing one, and these stay printed; nothing is printed for the later
    store numbers and the later terminals. *)
Theorem print_flow_table_missing_store n flow node_indices term rest
    warehouses pre k post :
  square n flow = true -> int_matrix flow = true ->
  names_ok n node_indices [term] = true ->
  names_ok n node_indices warehouses = true ->
  names_ok n node_indices (store_name <$> pre) = true ->
  node_indices !! store_name k = None ->
  print_flow_table flow node_indices (term :: rest) warehouses
    (pre ++ k :: post)
  = (decompose flow node_indices [term] warehouses pre, Raise KeyError).
Proof.
  intros Hsq Hint Hterm Hws Hpre Hnone.
  unfold print_flow_table. cbn [terminal_loop].
  destruct (lookup_node_ok n node_indices [term] term Hterm ltac:(left))
    as [Hlook Hlt].
  rewrite Hlook.
  rewrite (store_loop_missing n flow node_indices term _ warehouses k post)
    by done.
  unfold decompose. cbn [mbind list_bind]. by rewrite app_nil_l, app_nil_r.
Qed.

Lemma print_flow_table_missing_store_witness :
  print_flow_table logistics_flow node_indices ("Термінал 1" :: ["Термінал 2"])
    warehouses ([1; 2] ++ 15 :: [3])
  = (decompose logistics_flow node_indices ["Термінал 1"] warehouses [1; 2],
     Raise KeyError).
Proof.
  apply (print_flow_table_missing_store 22 logistics_flow node_indices
           "Термінал 1" ["Термінал 2"] warehouses [1; 2] 15 [3]);
    vm_compute; reflexivity.
Defined.

(** The run the witness describes: two lines, then the exception. *)
Example missing_store_run :
  print_flow_table logistics_flow node_indices ["Термінал 1"; "Термінал 2"]
    warehouses [1; 2; 15; 3]
  = ([("Термінал 1", store_name 1, Int 15);
      ("Термінал 1", store_name 2, Int 10)], Raise KeyError).
Proof. vm_compute. reflexivity. Qed.

(** ** A sink that cannot be reached *)

Lemma residual_zeros n capacity i j :
  (i < n)%nat -> (j < n)%nat ->
  residual capacity (zeros n) i j = true -> num_pos (at2 capacity i j) = true.
Proof.
  intros Hi Hj. unfold residual. rewrite at2_zeros by done.
  destruct (at2 capacity i j) as [z|f]; simpl.
  - unfold num_pos. simpl. by rewrite Z.sub_0_r.
  - done.
Qed.

Lemma blocked_rpath n capacity s side k y :
  blocked n capacity side = true -> in_cut side s = true ->
  rpath capacity (zeros n) n s k y -> in_cut side y = true.
Proof.
  intros Hb Hs. induction 1 as [|k y z Hp IH Hz Hr]; [done|].
  pose proof (rpath_lt _ _ _ _ _ _ Hp) as Hy.
  apply (residual_zeros n) in Hr; [|done..].
  unfold blocked in Hb. rewrite forallb_forall in Hb.
  specialize (Hb y ltac:(apply in_seq; lia)).
  rewrite forallb_forall in Hb.
  specialize (Hb z ltac:(apply in_seq; lia)).
  rewrite IH, Hr in Hb. by destruct (in_cut side z).
Qed.

(** X15. When the nodes split into a part with the source and a part
    with the sink such that no edge of strictly positive capacity leads
    from the first to the second, the engine returns 0 and the all-zero
    matrix, whatever else the matrix holds. *)
Theorem no_route_no_flow n capacity s t side fuel :
  square n capacity = true -> is_cut n s t side = true ->
  blocked n capacity side = true -> (n < fuel)%nat ->
  edmonds_karp fuel capacity (Z.of_nat s) (Z.of_nat t) = Ok (Int 0, zeros n).
Proof.
  intros Hsq Hcut Hb Hfuel. pose proof (square_length _ _ Hsq) as Hlen.
  destruct (is_cut_spec _ _ _ _ Hcut) as (Hside & HSs & HSt).
  assert (Hs : (s < n)%nat).
  { unfold in_cut in HSs. destruct (side !! s) eqn:Hl; [|done].
    rewrite <- Hside. by eapply lookup_lt_Some. }
  destruct fuel as [|fuel']; [lia|].
  destruct (bfs_spec capacity (zeros n) n s (Z.of_nat t) Hsq (square_zeros n)
              (sub_zeros_ok n capacity) (S fuel') (replicate n (-1))
              (length_replicate _ _) Hs Hfuel)
    as (found & parent' & Hrun & Hpost).
  unfold edmonds_karp, ek_init. cbn [ek_loop]. unfold ek_step.
  cbn [ek_flow ek_parent ek_max_flow]. rewrite Hlen, Hrun; ok_step.
  cbn beta iota. destruct found; [|done].
  exfalso. destruct Hpost as (visited & depth & t0 & HFound).
  pose proof (bf_sink HFound) as Heq. apply Nat2Z.inj in Heq. subst t0.
  destruct (trace_spec capacity (zeros n) n s visited parent' depth
              (bf_tree HFound) (depth t) t (S (depth t))
              (bf_visited HFound) eq_refl ltac:(lia))
    as (path & _ & Hwalk & _).
  apply walk_list_rpath in Hwalk.
  pose proof (blocked_rpath _ _ _ _ _ _ Hb HSs Hwalk). congruence.
Qed.

Lemma no_route_no_flow_witness :
  edmonds_karp 4 [[Int 0; Int 5; Int 0]; [Int 2; Int 0; Int 0];
                  [Int 7; Flt NaN; Int 0]] (Z.of_nat 0) (Z.of_nat 2)
  = Ok (Int 0, zeros 3).
Proof.
  apply (no_route_no_flow 3 [[Int 0; Int 5; Int 0]; [Int 2; Int 0; Int 0];
                             [Int 7; Flt NaN; Int 0]] 0 2
           [true; true; false] 4).
  - vm_compute. reflexivity.
  - vm_compute. reflexivity.
  - vm_compute. reflexivity.
  - lia.
Defined.

(** ** The two item stores hold the same rows *)

Lemma tree_setitem_map tree item_id it :
  (list_to_map (tree_setitem tree item_id it) : gmap Z item)
  = <[item_id := it]> (list_to_map tree).
Proof.
  induction tree as [|[k v] tree IH]; cbn [tree_setitem]; [done|].
  destruct (Z.ltb_spec item_id k); [done|].
  destruct (Z.eqb_spec item_id k) as [->|Hne]; cbn [list_to_map foldr uncurry].
  - by rewrite insert_insert_eq.
  - simpl. rewrite IH. by apply insert_insert_ne.
Qed.

Lemma dict_setitem_map store item_id it :
  (list_to_map (dict_setitem store item_id it) : gmap Z item)
  = <[item_id := it]> (list_to_map store).
Proof.
  induction store as [|[k v] store IH]; cbn [dict_setitem]; [done|].
  destruct (Z.eqb_spec item_id k) as [->|Hne]; simpl.
  - by rewrite insert_insert_eq.
  - rewrite IH. by apply insert_insert_ne.
Qed.

Lemma tree_setitem_keys tree item_id it x :
  x ∈ (tree_setitem tree item_id it).*1 <-> x = item_id \/ x ∈ tree.*1.
Proof.
  induction tree as [|[k v] tree IH]; cbn [tree_setitem].
  - simpl. rewrite list_elem_of_singleton, elem_of_nil. tauto.
  - destruct (Z.ltb_spec item_id k); [simpl; by rewrite !elem_of_cons|].
    destruct (Z.eqb_spec item_id k) as [->|Hne]; simpl.
    + rewrite !elem_of_cons. tauto.
    + rewrite !elem_of_cons, IH. tauto.
Qed.

Lemma tree_setitem_sorted tree item_id it :
  StronglySorted Z.lt tree.*1 ->
  StronglySorted Z.lt (tree_setitem tree item_id it).*1.
Proof.
  induction tree as [|[k v] tree IH]; cbn [tree_setitem]; intros Hs.
  - simpl. repeat constructor.
  - simpl in Hs. apply StronglySorted_inv in Hs as [Hs Hall].
    destruct (Z.ltb_spec item_id k).
    + simpl. constructor; [by constructor|].
      constructor; [done|]. eapply Forall_impl; [done|]. simpl. lia.
    + destruct (Z.eqb_spec item_id k) as [->|Hne]; simpl.
      * by constructor.
      * constructor; [by apply IH|].
        apply Forall_forall. intros x Hx%tree_setitem_keys.
        destruct Hx as [->|Hx]; [lia|].
        rewrite Forall_forall in Hall. by apply Hall.
Qed.

Lemma dict_setitem_keys store item_id it x :
  x ∈ (dict_setitem store item_id it).*1 <-> x = item_id \/ x ∈ store.*1.
Proof.
  induction store as [|[k v] store IH]; cbn [dict_setitem].
  - simpl. rewrite list_elem_of_singleton, elem_of_nil. tauto.
  - destruct (Z.eqb_spec item_id k) as [->|Hne]; simpl.
    + rewrite !elem_of_cons. tauto.
    + rewrite !elem_of_cons, IH. tauto.
Qed.

Lemma dict_setitem_NoDup store item_id it :
  NoDup store.*1 -> NoDup (dict_setitem store item_id it).*1.
Proof.
  induction store as [|[k v] store IH]; cbn [dict_setitem]; intros Hnd.
  - simpl. apply NoDup_singleton.
  - simpl in Hnd. apply NoDup_cons in Hnd as [Hk Hnd].
    destruct (Z.eqb_spec item_id k) as [->|Hne]; simpl.
    + by apply NoDup_cons.
    + apply NoDup_cons. split; [|by apply IH].
      rewrite dict_setitem_keys. intros [?|?]; [lia|done].
Qed.

Lemma sorted_NoDup (l : list Z) : StronglySorted Z.lt l -> NoDup l.
Proof.
  induction 1 as [|x l _ IH Hall]; [constructor|].
  apply NoDup_cons. split; [|done]. intros Hx.
  rewrite Forall_forall in Hall. specialize (Hall x Hx). lia.
Qed.

Lemma last_row_map items item_id (m : gmap Z item) :
  foldl (fun m kv => <[kv.1 := kv.2]> m) m items !! item_id
  = match last_row items item_id with
    | Some x => Some x
    | None => m !! item_id
    end.
Proof.
  revert m. induction items as [|[k v] items IH]; intros m; simpl; [done|].
  rewrite IH. destruct (last_row items item_id); [done|].
  destruct (Z.eqb_spec k item_id) as [->|Hne].
  - by rewrite lookup_insert_eq.
  - by rewrite lookup_insert_ne.
Qed.

Lemma fill_stores_spec items : forall tree store,
  StronglySorted Z.lt tree.*1 -> NoDup store.*1 ->
  StronglySorted Z.lt (fill_stores items tree store).1.*1 /\
  NoDup (fill_stores items tree store).2.*1 /\
  (list_to_map (fill_stores items tree store).1 : gmap Z item)
    = foldl (fun m kv => <[kv.1 := kv.2]> m) (list_to_map tree) items /\
  (list_to_map (fill_stores items tree store).2 : gmap Z item)
    = foldl (fun m kv => <[kv.1 := kv.2]> m) (list_to_map store) items.
Proof.
  induction items as [|[k v] items IH]; intros tree store Ht Hs;
    cbn [fill_stores foldl]; [done|].
  unfold add_item_to_tree, add_item_to_dict.
  destruct (IH (tree_setitem tree k v) (dict_setitem store k v))
    as (H1 & H2 & H3 & H4).
  { by apply tree_setitem_sorted. }
  { by apply dict_setitem_NoDup. }
  rewrite H3, H4, tree_setitem_map, dict_setitem_map. done.
Qed.

Lemma query_perm (l1 l2 : list (Z * item)) lo hi :
  l1 ≡ₚ l2 -> range_query_tree l1 lo hi ≡ₚ range_query_dict l2 lo hi.
Proof.
  intros Hp. unfold range_query_tree, range_query_dict.
  rewrite <- Hp. clear Hp l2.
  induction l1 as [|[k v] l1 IH]; simpl; [done|].
  destruct (in_range lo hi v); simpl; by rewrite IH.
Qed.

(** X16. After [main] has loaded any list of rows into both stores, the
    tree query and the dict query return the same items, each as often,
    for every pair of bounds; only the order can differ. *)
Theorem range_queries_agree items min_price max_price :
  range_query_tree (fill_stores items [] []).1 min_price max_price
  ≡ₚ range_query_dict (fill_stores items [] []).2 min_price max_price.
Proof.
  destruct (fill_stores_spec items [] []) as (Ht & Hs & Hmt & Hms);
    [constructor|constructor|].
  apply query_perm, list_to_map_inj.
  - by apply sorted_NoDup.
  - done.
  - by rewrite Hmt, Hms.
Qed.

Lemma query_tree_elem tree lo hi x :
  x ∈ range_query_tree tree lo hi <->
  exists k, (k, x) ∈ tree /\ in_range lo hi x = true.
Proof.
  unfold range_query_tree. rewrite list_elem_of_bind. split.
  - intros ([k v] & Hx & Hin). simpl in Hx.
    destruct (in_range lo hi v) eqn:Hr; [|by apply elem_of_nil in Hx].
    apply list_elem_of_singleton in Hx as ->. by exists k.
  - intros (k & Hin & Hr). exists (k, x). simpl. rewrite Hr.
    split; [by left|done].
Qed.

Lemma query_dict_elem store lo hi x :
  x ∈ range_query_dict store lo hi <->
  exists k, (k, x) ∈ store /\ in_range lo hi x = true.
Proof.
  unfold range_query_dict. rewrite list_elem_of_bind. split.
  - intros (v & Hx & Hin).
    destruct (in_range lo hi v) eqn:Hr; [|by apply elem_of_nil in Hx].
    apply list_elem_of_singleton in Hx as ->.
    apply list_elem_of_fmap in Hin as ([k y] & Heq & Hin).
    simpl in Heq. subst y. by exists k.
  - intros (k & Hin & Hr). exists x. rewrite Hr.
    split; [by left|]. apply list_elem_of_fmap. by exists (k, x).
Qed.

(** X17. A later row with the same ID replaces the earlier one in both
    stores: a query returns an item exactly when it is the row loaded
    last under some ID and its price lies within the bounds. *)
Theorem range_query_last_row items min_price max_price x :
  (x ∈ range_query_tree (fill_stores items [] []).1 min_price max_price <->
   exists item_id, last_row items item_id = Some x /\
     in_range min_price max_price x = true) /\
  (x ∈ range_query_dict (fill_stores items [] []).2 min_price max_price <->
   exists item_id, last_row items item_id = Some x /\
     in_range min_price max_price x = true).
Proof.
  destruct (fill_stores_spec items [] []) as (Ht & Hs & Hmt & Hms);
    [constructor|constructor|].
  rewrite query_tree_elem, query_dict_elem.
  assert (Hlast : forall (l : list (Z * item)) k,
    NoDup l.*1 ->
    (list_to_map l : gmap Z item)
      = foldl (fun m kv => <[kv.1 := kv.2]> m) (list_to_map []) items ->
    (k, x) ∈ l <-> last_row items k = Some x).
  { intros l k Hnd Hmap.
    rewrite (elem_of_list_to_map (M := gmap Z)) by done.
    rewrite Hmap, last_row_map. simpl. rewrite lookup_empty.
    by destruct (last_row items k). }
  split; (split; intros (k & Hk & Hr); exists k; (split; [|done])).
  - by apply (Hlast _ k (sorted_NoDup _ Ht) Hmt).
  - by apply (Hlast _ k (sorted_NoDup _ Ht) Hmt).
  - by apply (Hlast _ k Hs Hms).
  - by apply (Hlast _ k Hs Hms).
Qed.

(** ** Prices and bounds that are not numbers *)

Lemma leb_nan_r x : PrimFloat.leb x nan = false.
Proof.
  rewrite leb_spec. unfold SFleb.
  replace (Prim2SF nan) with S754_nan by (vm_compute; reflexivity).
  unfold SFcompare. destruct (Prim2SF x); reflexivity.
Qed.

Lemma leb_nan_l x : PrimFloat.leb nan x = false.
Proof.
  rewrite leb_spec. unfold SFleb.
  replace (Prim2SF nan) with S754_nan by (vm_compute; reflexivity).
  unfold SFcompare. destruct (Prim2SF x); reflexivity.
Qed.

Lemma in_range_nan lo hi it :
  in_range nan hi it = false /\ in_range lo nan it = false /\
  (Price it = nan -> in_range lo hi it = false).
Proof.
  unfold in_range. rewrite leb_nan_l, leb_nan_r, andb_false_r.
  repeat (split; [done|]). intros ->. by rewrite leb_nan_r.
Qed.

(** X18. A bound that is NaN makes both queries return nothing, and an
    item whose price is NaN is returned by neither query, whatever the
    bounds. *)
Theorem range_query_nan (tree : oobtree) (store : pydict) min_price max_price :
  range_query_tree tree nan max_price = [] /\
  range_query_tree tree min_price nan = [] /\
  range_query_dict store nan max_price = [] /\
  range_query_dict store min_price nan = [] /\
  forall x,
    x ∈ range_query_tree tree min_price max_price \/
    x ∈ range_query_dict store min_price max_price ->
    Price x <> nan.
Proof.
  assert (Hempty : forall (l : list item) lo hi,
    (forall it, in_range lo hi it = false) ->
    (it ← l; if in_range lo hi it then [it] else []) = []).
  { intros l lo hi Hno. induction l as [|it l IH]; [done|].
    cbn [mbind list_bind]. by rewrite Hno, IH. }
  assert (Htree : forall lo hi,
    range_query_tree tree lo hi
    = (it ← tree.*2; if in_range lo hi it then [it] else [])).
  { intros lo hi. unfold range_query_tree.
    induction tree as [|[k v] l IH]; [done|].
    cbn [fmap list_fmap mbind list_bind snd]. by rewrite IH. }
  rewrite !Htree. unfold range_query_dict.
  split; [apply Hempty; intros it; apply (in_range_nan min_price max_price)|].
  split; [apply Hempty; intros it;
          apply (proj1 (proj2 (in_range_nan min_price max_price it)))|].
  split; [apply Hempty; intros it; apply (in_range_nan min_price max_price)|].
  split; [apply Hempty; intros it;
          apply (proj1 (proj2 (in_range_nan min_price max_price it)))|].
  intros x Hx Hnan.
  assert (Hin : forall l : list item,
    x ∈ (it ← l; if in_range min_price max_price it then [it] else []) ->
    in_range min_price max_price x = true).
  { intros l (it & Hit & _)%list_elem_of_bind.
    destruct (in_range min_price max_price it) eqn:Hr;
      [|by apply elem_of_nil in Hit].
    by apply list_elem_of_singleton in Hit as ->. }
  destruct (in_range_nan min_price max_price x) as (_ & _ & Hfalse).
  specialize (Hfalse Hnan).
  destruct Hx as [Hx%Hin|Hx%Hin]; congruence.
Qed.

(** ** Order of the answers *)

Lemma tree_rows_sorted (tree : oobtree) lo hi :
  StronglySorted Z.lt tree.*1 ->
  exists rows : list (Z * item),
    range_query_tree tree lo hi = rows.*2 /\ rows ⊆ tree /\
    StronglySorted Z.lt rows.*1.
Proof.
  induction tree as [|[k v] tree IH]; intros Hs.
  - exists []. repeat split; [done|constructor].
  - simpl in Hs. apply StronglySorted_inv in Hs as [Hs Hall].
    destruct (IH Hs) as (rows & Hq & Hsub & Hrows).
    unfold range_query_tree in *. cbn [mbind list_bind snd].
    destruct (in_range lo hi v).
    + exists ((k, v) :: rows). split; [simpl; by rewrite Hq|]. split.
      * intros e [->|He]%elem_of_cons; [by left|]. right. by apply Hsub.
      * simpl. constructor; [done|].
        apply Forall_forall. intros x Hx.
        apply list_elem_of_fmap in Hx as ([k' v'] & -> & Hx).
        rewrite Forall_forall in Hall. apply Hall.
        apply list_elem_of_fmap. exists (k', v'). split; [done|].
        by apply Hsub.
    + exists rows. split; [done|]. split; [|done].
      intros e He. right. by apply Hsub.
Qed.

(** X19. The tree query answers in ascending order of the item IDs: its
    result lists the matching rows of the tree, each under the ID it was
    loaded last with, and these IDs strictly increase along the
    result. *)
Theorem range_query_tree_ascending items min_price max_price :
  exists rows : list (Z * item),
    range_query_tree (fill_stores items [] []).1 min_price max_price
      = rows.*2 /\
    StronglySorted Z.lt rows.*1 /\
    forall item_id x, (item_id, x) ∈ rows ->
      last_row items item_id = Some x /\
      in_range min_price max_price x = true.
Proof.
  destruct (fill_stores_spec items [] []) as (Ht & Hs & Hmt & Hms);
    [constructor|constructor|].
  assert (Hkeep : forall (tree : oobtree),
    exists rows : list (Z * item),
      range_query_tree tree min_price max_price = rows.*2 /\
      forall e, e ∈ rows -> in_range min_price max_price e.2 = true).
  { intros tree. unfold range_query_tree.
    induction tree as [|[k v] tree (rows & Hq & Hr)].
    - exists []. split; [done|]. by intros e ?%elem_of_nil.
    - cbn [mbind list_bind snd].
      destruct (in_range min_price max_price v) eqn:Hv.
      + exists ((k, v) :: rows). split; [simpl; by rewrite Hq|].
        intros e [->|He]%elem_of_cons; [done|by apply Hr].
      + by exists rows. }
  destruct (tree_rows_sorted (fill_stores items [] []).1 min_price max_price
              Ht) as (rows & Hq & Hsub & Hsorted).
  exists rows. split; [done|]. split; [done|].
  intros k x Hin. split.
  - apply Hsub in Hin.
    apply (elem_of_list_to_map (M := gmap Z)) in Hin;
      [|by apply sorted_NoDup].
    rewrite Hmt, last_row_map in Hin. simpl in Hin.
    rewrite lookup_empty in Hin. by destruct (last_row items k).
  - assert (Hx : x ∈ range_query_tree (fill_stores items [] []).1
                     min_price max_price).
    { rewrite Hq. apply list_elem_of_fmap. by exists (k, x). }
    by apply query_tree_elem in Hx as (_ & _ & ?).
Qed.

(** X20. Adding an item under an ID the dict does not hold yet puts it
    at the end of the dict query's answer when its price is within the
    bounds, and leaves the answer as it was otherwise. *)
Theorem range_query_dict_after_add (store : pydict) item_id it
    min_price max_price :
  item_id ∉ store.*1 ->
  range_query_dict (add_item_to_dict store item_id it) min_price max_price
  = range_query_dict store min_price max_price
    ++ (if in_range min_price max_price it then [it] else []).
Proof.
  unfold add_item_to_dict, range_query_dict.
  induction store as [|[k v] store IH]; intros Hfresh.
  - simpl. by rewrite app_nil_r.
  - simpl in Hfresh. apply not_elem_of_cons in Hfresh as [Hne Hfresh].
    cbn [dict_setitem]. destruct (Z.eqb_spec item_id k) as [->|_]; [done|].
    cbn [fmap list_fmap mbind list_bind snd].
    rewrite IH by done. by rewrite app_assoc.
Qed.

Lemma range_query_dict_after_add_witness :
  range_query_dict
    (add_item_to_dict [(1, Item "Pen" "Office" 60); (2, Item "Desk" "Home" 200)]
       3 (Item "Lamp" "Home" 75)) 50 150
  = range_query_dict [(1, Item "Pen" "Office" 60); (2, Item "Desk" "Home" 200)]
      50 150
    ++ (if in_range 50 150 (Item "Lamp" "Home" 75)
        then [Item "Lamp" "Home" 75] else []).
Proof.
  apply (range_query_dict_after_add
           [(1, Item "Pen" "Office" 60); (2, Item "Desk" "Home" 200)]
           3 (Item "Lamp" "Home" 75) 50 150).
  apply (bool_decide_eq_true_1 _). vm_compute. reflexivity.
Defined.
